(** * Motion planning on an occupancy grid: CSDA_planner.py and DSPA_planner.py

    A shallow embedding of the planning core shared by the two planner
    files: obstacle inflation ([Planner.map_callback]), the collision
    checkers, the unicycle motion model ([Planner.motion_predict],
    [Planner.discrete_motion_predict]), the best-first search of
    CSDA_planner.py (one iteration, the loop and the action sequence it
    leaves), value iteration and policy extraction of DSPA_planner.py,
    the lookup of the action table by the executor, the histogram of the
    map values, and [dump_action_table].

    Conventions of the embedding.
    - Python [int] is [Z]; grid cells are [Z] (-1, 0, 100).
    - Python [float] is idealised as a real number ([R]): arithmetic is
      exact, [np.pi] is [PI], [np.cos]/[np.sin] are [cos]/[sin], [sqrt] is
      [sqrt].  Rounding of binary64 arithmetic is not part of this
      model.  Where the rounding decides (the exact pose that
      [motion_predict] returns), the code is modelled a second time on
      binary64 numbers, in [Binary64].
    - [int(x)] on a float is truncation toward zero ([int_trunc]);
      [round(x)] is Python 3 rounding, half to even ([py_round]); no
      result below depends on how a tie is broken.
    - A numpy 2-D array is a list of rows; indexing follows numpy: an index
      [i] with [-n <= i < 0] reads position [i + n], any other index
      outside [0, n) raises [IndexError].
    - A Python [dict] with string or integer-tuple keys is a [gmap], and a
      missing key raises [KeyError]; [visited_states], keyed by tuples of
      floats, is the list of its entries, the newest first.
    - Code that can raise returns a [result].  [map_callback] raises
      [ZeroDivisionError] at resolution zero; the collision checkers
      divide a numpy or a Python float by the resolution, depending on
      the caller, and their properties are stated for a non-zero
      resolution. *)

From Stdlib Require Import ZArith List Lia Reals Lra String Ascii Bool.
From Stdlib Require Floats.
From stdpp Require Import base tactics option list numbers gmap strings pretty.

Local Open Scope Z_scope.

(** ** Exceptions *)

Inductive exn : Type :=
| IndexError | KeyError | ValueError | ZeroDivisionError | OverflowError.

Inductive result (A : Type) : Type :=
| Ok (a : A)
| Raise (e : exn).
Arguments Ok {A} a.
Arguments Raise {A} e.

Definition rbind {A B : Type} (m : result A) (k : A -> result B) : result B :=
  match m with
  | Ok a => k a
  | Raise e => Raise e
  end.

Notation "x <-- m ;; k" := (rbind m (fun x => k))
  (at level 100, m at next level, right associativity).

(** ** Numbers *)

Module Num.

(** [int(x)] for a float [x]: truncation toward zero. *)
Definition int_trunc (x : R) : Z :=
  if Rle_dec 0 x then Zfloor x else Zceil x.

(** [round(x)] (Python 3): nearest integer, ties to the even one. *)
Definition py_round (x : R) : Z :=
  let f := Zfloor x in
  if Rlt_dec (x - IZR f) (1 / 2) then f
  else if Rlt_dec (1 / 2) (x - IZR f) then f + 1
  else if Z.even f then f else f + 1.

(** [range(a, b)] *)
Definition range (a b : Z) : list Z :=
  map (fun k : nat => a + Z.of_nat k) (seq 0 (Z.to_nat (b - a))).

End Num.

(** ** numpy arrays of rank 2 *)

Module Grid.

Abbreviation grid := (list (list Z)).

(** [shape g h w]: [g] has [h] rows of [w] cells. *)
Definition shape (g : grid) (h w : Z) : Prop :=
  Z.of_nat (length g) = h /\ Forall (fun row => Z.of_nat (length row) = w) g.

(** Cell [(r, c)] for indices known to be non-negative. *)
Definition cell (g : grid) (r c : Z) : option Z :=
  if (0 <=? r) && (0 <=? c)
  then row ← g !! Z.to_nat r; row !! Z.to_nat c
  else None.

(** numpy index normalisation along an axis of length [n]. *)
Definition norm_index (n i : Z) : option Z :=
  if (0 <=? i) && (i <? n) then Some i
  else if (- n <=? i) && (i <? 0) then Some (i + n)
  else None.

(** [g[i, j]] as numpy evaluates it. *)
Definition np_get (g : grid) (i j : Z) : result Z :=
  match norm_index (Z.of_nat (length g)) i with
  | None => Raise IndexError
  | Some i' =>
      match g !! Z.to_nat i' with
      | None => Raise IndexError
      | Some row =>
          match norm_index (Z.of_nat (length row)) j with
          | None => Raise IndexError
          | Some j' =>
              match row !! Z.to_nat j' with
              | None => Raise IndexError
              | Some v => Ok v
              end
          end
      end
  end.

(** [g[r, c] = v] for indices inside the array (the inflation loops clamp
    them); outside the array nothing is written. *)
Definition set (g : grid) (r c : Z) (v : Z) : grid :=
  if (0 <=? r) && (0 <=? c)
  then alter (fun row => <[Z.to_nat c := v]> row) (Z.to_nat r) g
  else g.

(** [np.array(data).reshape((h, w))]: row-major, [ValueError] when the
    sizes do not fit. *)
Fixpoint chunks (w : nat) (n : nat) (data : list Z) : grid :=
  match n with
  | O => []
  | S n' => take w data :: chunks w n' (drop w data)
  end.

Definition reshape (data : list Z) (h w : Z) : result grid :=
  if (0 <=? h) && (0 <=? w) && (Z.of_nat (length data) =? h * w)
  then Ok (chunks (Z.to_nat w) (Z.to_nat h) data)
  else Raise ValueError.

End Grid.

(** ** Obstacle inflation ([Planner.map_callback], both files) *)

Module Inflation.
Import Num Grid.

Definition ROBOT_SIZE : R := 2552 / 10000.

(** [pixel_buffer = int(ROBOT_SIZE / resolution * self.inflation_ratio)],
    for a resolution other than zero ([map_callback] tests it). *)
Definition pixel_buffer (resolution inflation_ratio : R) : Z :=
  int_trunc (ROBOT_SIZE / resolution * inflation_ratio).

(** The two innermost loops: every cell of
    [range(top, bottom) x range(left, right)] is set to 100. *)
Definition fill_row (aug : grid) (hi left right : Z) : grid :=
  fold_left (fun a wi => set a hi wi 100) (range left right) aug.

Definition fill_window (aug : grid) (top bottom left right : Z) : grid :=
  fold_left (fun a hi => fill_row a hi left right) (range top bottom) aug.

(** The condition of the [if] at cell [(i, ii)] of the raw map. *)
Definition trigger (h w : Z) (raw : grid) (i ii : Z) : bool :=
  bool_decide (cell raw i ii = Some 100)
  || (i =? 0) || (i =? h - 1) || (ii =? 0) || (ii =? w - 1).

(** Body of the loop over [ii]. *)
Definition inflate_cell (pb h w : Z) (raw aug : grid) (i ii : Z) : grid :=
  if trigger h w raw i ii then
    let top_index := Z.max 0 (i - pb) in
    let bottom_index := Z.min h (i + pb) in
    let left_index := Z.max 0 (ii - pb) in
    let right_index := Z.min w (ii + pb) in
    fill_window aug top_index bottom_index left_index right_index
  else aug.

Definition inflate_row (pb h w : Z) (raw aug : grid) (i : Z) : grid :=
  fold_left (fun a ii => inflate_cell pb h w raw a i ii) (range 0 w) aug.

(** [self.aug_map = copy.deepcopy(self.map)] followed by the loops. *)
Definition inflate (pb h w : Z) (raw : grid) : grid :=
  fold_left (fun a i => inflate_row pb h w raw a i) (range 0 h) raw.

(** The [else] branch of [map_callback] on the flat map data.  The
    division [ROBOT_SIZE / resolution] comes after the reshape and
    raises [ZeroDivisionError] when the resolution is zero. *)
Definition map_callback (data : list Z) (h w : Z)
    (resolution inflation_ratio : R) : result grid :=
  raw <-- reshape data h w ;;
  if Req_dec_T resolution 0 then Raise ZeroDivisionError
  else Ok (inflate (pixel_buffer resolution inflation_ratio) h w raw).

(** A cell is occupied when it holds 100. *)
Definition occupied (g : grid) (r c : Z) : Prop := cell g r c = Some 100.

(** [(r, c)] lies in the window [map_callback] fills for some cell
    [(i, ii)] that is occupied in the raw map or on its border. *)
Definition marked (pb h w : Z) (raw : grid) (r c : Z) : Prop :=
  exists i ii,
    0 <= i < h /\ 0 <= ii < w /\ trigger h w raw i ii = true /\
    i - pb <= r < i + pb /\ ii - pb <= c < ii + pb.

End Inflation.

(** ** The motion model ([Planner.motion_predict], both files)

    The two files have the same [motion_predict]; they differ in the
    [collision_checker] it calls, which is a parameter here. *)

Module Motion.
Import Num.

Definition pose : Type := (R * R * R)%type.

Definition dt_default : R := 1 / 2.
Definition frequency_default : R := 10.

Section Predict.
Variable collision_checker : R -> R -> result bool.

(** One pass through the body of [for i in range(num_steps)]:
    [None] is the [return None] of a collision. *)
Definition substep (v w frequency : R) (p : pose) : result (option pose) :=
  let '(x, y, theta) := p in
  let dx :=
    if Req_dec_T w 0
    then (v * cos theta / frequency)%R
    else ((- v) / w * sin theta + v / w * sin (theta + w / frequency))%R in
  let dy :=
    if Req_dec_T w 0
    then (v * sin theta / frequency)%R
    else (v / w * cos theta - v / w * cos (theta + w / frequency))%R in
  let x := (x + dx)%R in
  let y := (y + dy)%R in
  hit <-- collision_checker x y ;;
  if hit : bool then Ok None
  else Ok (Some (x, y, (theta + w / frequency)%R)).

Fixpoint substeps (n : nat) (v w frequency : R) (p : pose)
    : result (option pose) :=
  match n with
  | O => Ok (Some p)
  | S n' =>
      r <-- substep v w frequency p ;;
      match r with
      | None => Ok None
      | Some p' => substeps n' v w frequency p'
      end
  end.

Definition motion_predict (x y theta v w dt frequency : R)
    : result (option pose) :=
  let num_steps := int_trunc (dt * frequency) in
  substeps (Z.to_nat num_steps) v w frequency (x, y, theta).

(** [discrete_motion_predict]: two calls of [motion_predict], then
    rounding to the integer state. *)
Definition discrete_motion_predict (x y theta : Z) (v w : R)
    : result (option (Z * Z * Z)) :=
  let w_radian := (w * PI / 2)%R in
  first_step <-- motion_predict (IZR x) (IZR y) (IZR theta * PI / 2) v
                   w_radian dt_default frequency_default ;;
  match first_step with
  | None => Ok None
  | Some (x1, y1, theta1) =>
      second_step <-- motion_predict x1 y1 theta1 v w_radian
                        dt_default frequency_default ;;
      match second_step with
      | None => Ok None
      | Some (x2, y2, theta2) =>
          Ok (Some (py_round x2, py_round y2,
                    py_round (theta2 / (PI / 2)) mod 4))
      end
  end.
End Predict.

(** [_d_from_goal] and [_check_goal] (both files). *)
Definition d_from_goal (goal : R * R) (px py : R) : R :=
  sqrt ((px - fst goal) ^ 2 + (py - snd goal) ^ 2).

Definition check_goal (goal : R * R) (px py : R) : bool :=
  if Rlt_dec (d_from_goal goal px py) (25 / 100) then true else false.

End Motion.

(** ** CSDA_planner.py: best-first search *)

Module CSDA.
Import Num Grid Motion.

Record planner : Type := {
  world_width : Z;
  world_height : Z;
  resolution : R;
  com : bool;
  aug_map : grid;
  goal : R * R
}.

Definition search_resolution (p : planner) : R :=
  if com p then (5 / 10)%R else (1 / 10)%R.

(** [collision_checker]: the map is indexed without a test of the
    world size. *)
Definition collision_checker (p : planner) (x y : R) : result bool :=
  v <-- np_get (aug_map p) (int_trunc (y / resolution p))
                           (int_trunc (x / resolution p)) ;;
  Ok (v =? 100).

Definition motion_predict (p : planner) (x y theta v w : R)
    : result (option pose) :=
  Motion.motion_predict (collision_checker p) x y theta v w
    dt_default frequency_default.

Definition round_partial (p : planner) (x : R) : R :=
  (IZR (py_round (x / search_resolution p)) * search_resolution p)%R.

Definition continuous_to_resolution (p : planner) (s : pose) : pose :=
  let '(x, y, phi) := s in
  (round_partial p x, round_partial p y, round_partial p (phi / (PI / 2))).

(** A search node [(f, g, state, action, parent)]. *)
#[warnings="-register-all"]
Inductive node : Type :=
| Node (f : R) (g : Z) (state : pose) (action : option (R * R))
       (parent : option node).

Definition node_f (n : node) : R := let 'Node f _ _ _ _ := n in f.
Definition node_g (n : node) : Z := let 'Node _ g _ _ _ := n in g.
Definition node_state (n : node) : pose := let 'Node _ _ s _ _ := n in s.

(** [visited_states], a dict keyed by tuples of floats: the entries in
    insertion order, the newest first; a lookup returns the newest entry
    of a key. *)
Definition visited_map : Type := list (pose * R).

Definition pose_eq_dec (a b : pose) : {a = b} + {a <> b}.
Proof. repeat decide equality; apply Req_dec_T. Defined.

Fixpoint visited_get (vs : visited_map) (k : pose) : option R :=
  match vs with
  | [] => None
  | (k', v) :: vs' => if pose_eq_dec k k' then Some v else visited_get vs' k
  end.

Definition visited_set (vs : visited_map) (k : pose) (v : R) : visited_map :=
  (k, v) :: vs.

(** The frontier: the nodes held by the heap.  [heapq.heappush] adds one
    node; the order inside the heap is not modelled. *)
Definition frontier : Type := list node.
Definition heappush (pq : frontier) (n : node) : frontier := n :: pq.

(** [actions]: [(1, w)] for [w] in
    [np.arange(-3.14, 3.14001, 1.57)], five values. *)
Definition actions : list (R * R) :=
  map (fun i => (1%R, (- (314 / 100) + IZR i * (157 / 100))%R)) (range 0 5).

(** The new priority [self._d_from_goal(next_state) + node[1] + 1]. *)
Definition next_f (p : planner) (n : node) (next_state : pose) : R :=
  let '(x, y, _) := next_state in
  (d_from_goal (goal p) x y + IZR (node_g n) + 1)%R.

(** The test guarding [heappush]: [next_state] itself is looked up. *)
Definition push_test (p : planner) (n : node) (vs : visited_map)
    (next_state : pose) : bool :=
  match visited_get vs next_state with
  | None => true
  | Some old => if Rlt_dec (next_f p n next_state) old then true else false
  end.

(** Body of [for action in actions]. *)
Definition expand_action (p : planner) (n : node) (vs : visited_map)
    (pq : frontier) (a : R * R) : result frontier :=
  let '(x, y, theta) := node_state n in
  next <-- motion_predict p x y theta (fst a) (snd a) ;;
  match next with
  | None => Ok pq
  | Some next_state =>
      if push_test p n vs next_state then
        Ok (heappush pq
              (Node (next_f p n next_state) (node_g n + 1) next_state
                    (Some a) (Some n)))
      else Ok pq
  end.

Fixpoint expand (p : planner) (n : node) (vs : visited_map)
    (pq : frontier) (acts : list (R * R)) : result frontier :=
  match acts with
  | [] => Ok pq
  | a :: acts' =>
      pq' <-- expand_action p n vs pq a ;;
      expand p n vs pq' acts'
  end.

(** What one pass through the body of [while len(priority_queue) != 0]
    ends with: the [break] at the goal, or the next heap and visited
    map. *)
Inductive outcome : Type :=
| GoalFound (n : node)
| Continue (pq : frontier) (vs : visited_map).

(** One pass through the body of [while len(priority_queue) != 0], for
    the node [n] that [heappop] returned and the rest [pq] of the heap. *)
Definition iteration (p : planner) (n : node) (pq : frontier)
    (vs : visited_map) : result outcome :=
  let '(x, y, _) := node_state n in
  if check_goal (goal p) x y then Ok (GoalFound n)
  else
    let discretized_state := continuous_to_resolution p (node_state n) in
    let skip :=
      match visited_get vs discretized_state with
      | None => false
      | Some old => if Rge_dec (node_f n) old then true else false
      end in
    if skip then Ok (Continue pq vs)
    else
      let vs' := visited_set vs discretized_state (node_f n) in
      pq' <-- expand p n vs' pq actions ;;
      Ok (Continue pq' vs').

End CSDA.

(** ** DSPA_planner.py: value iteration *)

Module DSPA.
Import Num Grid Motion.

Record planner : Type := {
  world_width : Z;
  world_height : Z;
  resolution : R;
  com : bool;
  aug_map : grid;
  goal : R * R
}.

Definition crash_penalty : R := (- 20)%R.

Definition distance_penalty_normalization (p : planner) : R :=
  ((IZR (world_height p) * resolution p + IZR (world_width p) * resolution p)
   * 10)%R.

(** [collision_checker]: the four tests of the world size come first and
    short-circuit the access to the map. *)
Definition collision_checker (p : planner) (x y : R) : result bool :=
  let iy := int_trunc (y / resolution p) in
  let ix := int_trunc (x / resolution p) in
  if (iy <=? 0) || (iy >=? world_height p)
     || (ix <=? 0) || (ix >=? world_width p)
  then Ok true
  else
    v <-- np_get (aug_map p) iy ix ;;
    Ok (v =? 100).

Definition motion_predict (p : planner) (x y theta v w : R)
    : result (option pose) :=
  Motion.motion_predict (collision_checker p) x y theta v w
    dt_default frequency_default.

Definition discrete_motion_predict (p : planner) (x y theta : Z) (v w : R)
    : result (option (Z * Z * Z)) :=
  Motion.discrete_motion_predict (collision_checker p) x y theta v w.

Definition state : Type := (Z * Z * Z)%type.
Definition action : Type := (Z * Z)%type.

Definition FORWARD : action := (1, 0).
Definition TURN_LEFT : action := (0, 1).
Definition TURN_RIGHT : action := (0, -1).

(** [actions = [(1, 0), (0, 1), (0, -1)]] *)
Definition actions : list action := [FORWARD; TURN_LEFT; TURN_RIGHT].

(** The initial value [-10000000] of both running maxima. *)
Definition sentinel : R := (- 10000000)%R.

Definition get_current_state_value (p : planner) (s : state) : result R :=
  let '(x, y, _) := s in
  hit <-- collision_checker p (IZR x) (IZR y) ;;
  if hit : bool then Ok crash_penalty
  else if check_goal (goal p) (IZR x) (IZR y) then Ok 20%R
  else Ok (- (d_from_goal (goal p) (IZR x) (IZR y)
              / distance_penalty_normalization p))%R.

(** [self.state_values[next_state]] raises [KeyError] on a state outside
    the table. *)
Definition get_next_state_value (state_values : gmap state R)
    (next_state : option state) : result R :=
  match next_state with
  | None => Ok crash_penalty
  | Some s =>
      match state_values !! s with
      | Some v => Ok v
      | None => Raise KeyError
      end
  end.

Definition get_forward_action_value (p : planner)
    (state_values : gmap state R) (s : state) : result R :=
  let '(x, y, theta) := s in
  let next_state_value := 0%R in
  next_state <-- discrete_motion_predict p x y theta 1 0 ;;
  v1 <-- get_next_state_value state_values next_state ;;
  let next_state_value := (next_state_value + v1 * (9 / 10))%R in
  next_state <-- discrete_motion_predict p x y theta (PI / 2) 1 ;;
  v2 <-- get_next_state_value state_values next_state ;;
  let next_state_value := (next_state_value + v2 * (5 / 100))%R in
  next_state <-- discrete_motion_predict p x y theta (PI / 2) (-1) ;;
  v3 <-- get_next_state_value state_values next_state ;;
  let next_state_value := (next_state_value + v3 * (5 / 100))%R in
  Ok next_state_value.

(** The value of the successor(s) of [s] under action [a], as both loops
    of [generate_plan] compute it. *)
Definition next_state_value (p : planner) (state_values : gmap state R)
    (s : state) (a : action) : result R :=
  if bool_decide (a = (0, 1) \/ a = (0, -1)) then
    let '(v, w) := a in
    let '(x, y, theta) := s in
    next_state <-- discrete_motion_predict p x y theta (IZR v) (IZR w) ;;
    get_next_state_value state_values next_state
  else get_forward_action_value p state_values s.

(** [states]: the three nested loops. *)
Definition states (p : planner) : list state :=
  height ← range 0 (int_trunc (IZR (world_height p) * resolution p) + 1);
  width ← range 0 (int_trunc (IZR (world_width p) * resolution p) + 1);
  theta ← range 0 4;
  [(width, height, theta)].

Definition init_values (sts : list state) : gmap state R :=
  fold_left (fun sv s => <[s := 0%R]> sv) sts ∅.

(** The loop over [actions] inside a sweep: the running maximum
    [state_value] of [current_state_value + 0.95 * next_state_value]. *)
Fixpoint best_total (p : planner) (state_values : gmap state R) (s : state)
    (acts : list action) (state_value : R) : result R :=
  match acts with
  | [] => Ok state_value
  | a :: acts' =>
      current_state_value <-- get_current_state_value p s ;;
      nsv <-- next_state_value p state_values s a ;;
      let total_value := (current_state_value + 95 / 100 * nsv)%R in
      best_total p state_values s acts'
        (if Rgt_dec total_value state_value then total_value
         else state_value)
  end.

(** One sweep: [self.state_values[state]] is overwritten state by state. *)
Fixpoint sweep (p : planner) (sts : list state) (state_values : gmap state R)
    : result (gmap state R) :=
  match sts with
  | [] => Ok state_values
  | s :: sts' =>
      state_value <-- best_total p state_values s actions sentinel ;;
      sweep p sts' (<[s := state_value]> state_values)
  end.

Fixpoint sweeps (p : planner) (n : nat) (sts : list state)
    (state_values : gmap state R) : result (gmap state R) :=
  match n with
  | O => Ok state_values
  | S n' =>
      sv <-- sweep p sts state_values ;;
      sweeps p n' sts sv
  end.

Definition steps (p : planner) : nat := if com p then 100%nat else 200%nat.

(** The loop over [actions] of the policy extraction: the running
    [(max_value, best_action)]. *)
Fixpoint best_action (p : planner) (state_values : gmap state R) (s : state)
    (acts : list action) (acc : R * option action)
    : result (R * option action) :=
  match acts with
  | [] => Ok acc
  | a :: acts' =>
      nsv <-- next_state_value p state_values s a ;;
      best_action p state_values s acts'
        (if Rgt_dec nsv (fst acc) then (nsv, Some a) else acc)
  end.

(** ["{},{},{}".format(state[0], state[1], state[2] % 4)] *)
Definition state_key (s : state) : string :=
  let '(x, y, theta) := s in
  pretty x +:+ "," +:+ pretty y +:+ "," +:+ pretty (theta mod 4).

(** A value of the action table: an action, or Python's [None]. *)
Abbreviation action_table := (gmap string (option action)).

Fixpoint extract (p : planner) (state_values : gmap state R)
    (sts : list state) (table : action_table) : result action_table :=
  match sts with
  | [] => Ok table
  | s :: sts' =>
      r <-- best_action p state_values s actions (sentinel, None) ;;
      extract p state_values sts' (<[state_key s := snd r]> table)
  end.

(** [generate_plan]: the table of state values after the sweeps and the
    action table. *)
Definition generate_plan (p : planner)
    : result (gmap state R * action_table) :=
  let sts := states p in
  sv <-- sweeps p (steps p) sts (init_values sts) ;;
  table <-- extract p sv sts ∅ ;;
  Ok (sv, table).

(** The lookup of [publish_stochastic_control] for the discrete state
    [current_state]. *)
Definition executor_lookup (table : action_table) (current_state : state)
    : result (option action) :=
  match table !! state_key current_state with
  | Some a => Ok a
  | None => Raise KeyError
  end.

(** The states that [states] enumerates. *)
Definition in_state_space (p : planner) (s : state) : Prop :=
  let '(x, y, theta) := s in
  0 <= x <= int_trunc (IZR (world_width p) * resolution p) /\
  0 <= y <= int_trunc (IZR (world_height p) * resolution p) /\
  0 <= theta < 4.

End DSPA.

(** ** [dump_action_table] (DSPA_planner.py) *)

Module Dump.

(** [','.join([str(i) for i in k])] for a key [k] that is a string: the
    iteration runs over the characters of [k]. *)
Fixpoint join_chars (cs : list ascii) : string :=
  match cs with
  | [] => EmptyString
  | [c] => String c EmptyString
  | c :: cs' => String c (String "," (join_chars cs'))
  end.

Definition dump_key (k : string) : string :=
  join_chars (list_ascii_of_string k).

(** [tab], the dict handed to [json.dump]. *)
Definition dump_action_table (table : DSPA.action_table) : DSPA.action_table :=
  kmap dump_key table.

(** [json.load] of the file written by [json.dump]: the keys are the
    strings that were written; a pair comes back as a two-element list,
    which the executor accepts in place of the pair. *)
Definition reload (tab : DSPA.action_table) : DSPA.action_table := tab.

End Dump.

(** ** Auxiliary notions used to state the properties *)

Module Aux.
Import Grid.

(** Overwriting with 100 a cell that exists. *)
Definition stamp (b : bool) (o : option Z) : option Z :=
  if b then (fun _ => 100) <$> o else o.

(** Membership of a cell in a half-open window of rows and columns. *)
Definition in_window (top bottom left right r c : Z) : bool :=
  (top <=? r) && (r <? bottom) && (left <=? c) && (c <? right).

(** The cells that the pass of [Inflation.inflate_cell] for [(i, ii)]
    stamps. *)
Definition hit_cell (pb h w : Z) (raw : grid) (r c i ii : Z) : bool :=
  Inflation.trigger h w raw i ii
  && in_window (Z.max 0 (i - pb)) (Z.min h (i + pb))
               (Z.max 0 (ii - pb)) (Z.min w (ii + pb)) r c.

(** A grid of free cells, and one with a single occupied cell. *)
Definition free_grid (h w : nat) : grid := replicate h (replicate w 0).

Definition one_obstacle : grid := Grid.set (free_grid 7 7) 3 3 100.

(** The flat map data of [one_obstacle], row by row. *)
Definition one_obstacle_data : list Z := concat one_obstacle.

(** The inflated map of the standard maze of the [__main__] blocks (200 x
    200 cells, a buffer of 10 cells) when the raw map has no obstacle. *)
Definition maze_map : grid :=
  Inflation.inflate 10 200 200 (free_grid 200 200).

End Aux.

(** ** Example planners *)

Module Examples.
Import Grid Aux.

(** The standard maze of the [__main__] block of CSDA_planner.py: 200 x
    200 cells at resolution 0.05, inflation ratio 2 (a buffer of 10
    cells), here with a map of free cells and the default goal. *)
Definition csda_maze : CSDA.planner := {|
  CSDA.world_width := 200;
  CSDA.world_height := 200;
  CSDA.resolution := 5 / 100;
  CSDA.com := false;
  CSDA.aug_map := maze_map;
  CSDA.goal := (1%R, 8%R)
|}.

End Examples.

(** ** Notions for the search iteration *)

Module SearchAux.
Import Motion CSDA.

(** [m] is a node that the expansion of [n] builds: the pose predicted
    for one of the actions, with its priority, cost, action and parent. *)
Definition successor (p : planner) (n m : node) : Prop :=
  exists (a : R * R) (next_state : pose),
    a ∈ actions /\
    (let '(x, y, theta) := node_state n in
     motion_predict p x y theta (fst a) (snd a)) = Ok (Some next_state) /\
    m = Node (next_f p n next_state) (node_g n + 1) next_state (Some a) (Some n).



End SearchAux.

(** ** Notions for the value iteration *)

Module MdpAux.
Import Num Grid Motion DSPA.

(** The planner invariants the loops of [generate_plan] rely on: the
    inflated map has the shape of the world, the resolution is positive,
    and the world measures a whole number of units in each direction. *)
Definition well_formed (p : planner) : Prop :=
  shape (aug_map p) (world_height p) (world_width p) /\
  (0 < resolution p)%R /\
  (IZR (world_width p) * resolution p
   = IZR (int_trunc (IZR (world_width p) * resolution p)))%R /\
  (IZR (world_height p) * resolution p
   = IZR (int_trunc (IZR (world_height p) * resolution p)))%R.

(** The position of state [s] is not in collision. *)
Definition interior (p : planner) (s : state) : Prop :=
  let '(x, y, _) := s in collision_checker p (IZR x) (IZR y) = Ok false.

(** The table of values covers the state space. *)
Definition covers (p : planner) (sv : gmap state R) : Prop :=
  forall s, in_state_space p s -> is_Some (sv !! s).

(** A value that a successor contributes: a table entry or the crash
    penalty. *)
Definition contributed (sv : gmap state R) (v : R) : Prop :=
  v = crash_penalty \/ exists k, sv !! k = Some v.

(** [a] is a best action of [s] for the next-state values alone: its
    value [q] exceeds the initial [max_value] and no action has a higher
    one. *)
Definition maximizes_next_value (p : planner) (sv : gmap state R)
    (s : state) (a : action) : Prop :=
  exists q : R,
    next_state_value p sv s a = Ok q /\ (sentinel < q)%R /\
    forall a' q', a' ∈ actions -> next_state_value p sv s a' = Ok q' ->
                  (q' <= q)%R.

(** No action of [s] has a next-state value above the initial
    [max_value]. *)
Definition no_value_above_sentinel (p : planner) (sv : gmap state R)
    (s : state) : Prop :=
  forall a q, a ∈ actions -> next_state_value p sv s a = Ok q ->
              (q <= sentinel)%R.

(** The rewards of the states of the state space stay above -500000:
    the goal is within 499999 times the normalization of each of them. *)
Definition goal_in_reach (p : planner) : Prop :=
  (0 < distance_penalty_normalization p)%R /\
  forall x y theta, in_state_space p (x, y, theta) ->
    (d_from_goal (goal p) (IZR x) (IZR y)
     <= 499999 * distance_penalty_normalization p)%R.

(** The lower bound -9999980 on the state values. *)
Definition values_above (sv : gmap state R) : Prop :=
  forall s v, sv !! s = Some v -> (- 9999980 <= v)%R.

(** The state values lie between the initial maximum and 0. *)
Definition values_between (sv : gmap state R) : Prop :=
  forall s v, sv !! s = Some v -> (sentinel <= v <= 0)%R.

(** The standard maze of the [__main__] block of DSPA_planner.py: 200 x
    200 cells at resolution 0.05, inflation ratio 2 (a buffer of 10
    cells), here with a map of free cells, for the goal [g]. *)
Definition dspa_maze (g : R * R) : planner := {|
  world_width := 200;
  world_height := 200;
  resolution := 5 / 100;
  com := false;
  aug_map := Aux.maze_map;
  goal := g
|}.

(** The maze with the goal of [--goal 10000000000,0], and with the
    default goal (1, 8). *)
Definition dspa_far : planner := dspa_maze (10000000000%R, 0%R).

Definition dspa_near : planner := dspa_maze (1%R, 8%R).

End MdpAux.

(** ** Notions for the keys of the action table *)

Module KeyAux.

(** A string without a comma. *)
Fixpoint comma_free (s : string) : Prop :=
  match s with
  | EmptyString => True
  | String c s' => c <> ","%char /\ comma_free s'
  end.

(** The number of commas of a string. *)
Fixpoint count_commas (s : string) : nat :=
  match s with
  | EmptyString => 0
  | String c s' => (if Ascii.eqb c "," then 1 else 0) + count_commas s'
  end.

End KeyAux.

(** ** The histogram of the map data ([Planner.map_callback], both files) *)

Module MapStats.

(** [map_values]: the dict that counts how often each value occurs in
    the map data, as [map_callback] builds and prints it. *)
Definition map_values (data : list Z) : gmap Z Z :=
  fold_left
    (fun mv value =>
       match mv !! value with
       | Some n => <[value := n + 1]> mv
       | None => <[value := 1]> mv
       end)
    data ∅.

End MapStats.

(** ** Notions for the inflated border *)

Module FrameAux.

(** The frame of a grid of [h] rows and [w] columns that a buffer of
    [pb] cells reaches from the border cells: [pb] rows and columns at
    the top and the left, [pb + 1] at the bottom and the right. *)
Definition in_frame (pb h w r c : Z) : Prop :=
  r < pb \/ h - 1 - pb <= r \/ c < pb \/ w - 1 - pb <= c.

End FrameAux.

(** ** Notions for comparing the two collision checkers *)

Module CheckerAux.


End CheckerAux.

(** ** Notions for the trajectories of the motion model *)

Module Trajectory.
Import Motion.

(** The pose after [k] sub-steps of [motion_predict] from [p] in closed
    form: a point of the line through [p] when [w = 0], of the circle of
    radius [v / w] through [p] otherwise. *)
Definition waypoint (v w frequency : R) (p : pose) (k : nat) : pose :=
  let '(x, y, theta) := p in
  let theta_k := (theta + INR k * (w / frequency))%R in
  if Req_dec_T w 0
  then ((x + INR k * (v * cos theta / frequency))%R,
        (y + INR k * (v * sin theta / frequency))%R, theta_k)
  else ((x + v / w * (sin theta_k - sin theta))%R,
        (y - v / w * (cos theta_k - cos theta))%R, theta_k).

(** What the collision checker answers at the position of a waypoint. *)
Definition at_waypoint (collision_checker : R -> R -> result bool)
    (v w frequency : R) (p : pose) (k : nat) : result bool :=
  let '(x, y, _) := waypoint v w frequency p k in collision_checker x y.

(** The unit step of the heading [theta]: 0 east, 1 north, 2 west,
    3 south. *)
Definition heading_vector (theta : Z) : Z * Z :=
  if theta =? 0 then (1, 0)
  else if theta =? 1 then (0, 1)
  else if theta =? 2 then (-1, 0)
  else (0, -1).

End Trajectory.

(** ** Notions for the totality of [generate_plan] *)

Module PlanAux.
Import Grid DSPA.

(** What [generate_plan] of DSPA_planner.py needs of the planner: the
    inflated map has the shape of the world, and the resolution is
    positive. *)
Definition usable (p : planner) : Prop :=
  shape (aug_map p) (world_height p) (world_width p) /\
  (0 < resolution p)%R.

(** The controls [(v, w)] that [generate_plan] passes to
    [discrete_motion_predict]: the two turns, and the three outcomes of
    FORWARD. *)
Definition control (v w : R) : Prop :=
  (v = 0%R /\ (w = 1%R \/ w = (-1)%R)) \/
  (v = 1%R /\ w = 0%R) \/
  (v = (PI / 2)%R /\ (w = 1%R \/ w = (-1)%R)).

End PlanAux.

(** ** The executor side of DSPA_planner.py *)

Module Executor.
Import Num Motion DSPA.

(** [rd(x) = int(round(x))] *)
Definition rd (x : R) : Z := py_round x.

(** [get_current_discrete_state] on the continuous state
    [(x, y, phi)] that [get_current_continuous_state] returns. *)
Definition get_current_discrete_state (continuous_state : pose) : state :=
  let '(x, y, phi) := continuous_state in
  (rd x, rd y, rd (phi / (PI / 2))).

End Executor.

(** ** Further example planners *)

Module Examples2.
Import Grid Aux.

(** The inflated map of the COM1 world of the [__main__] blocks (2500 x
    983 cells at resolution 0.02, inflation ratio 2) when the raw map
    has no obstacle, and the planner of DSPA_planner.py on it. *)
Definition com1_map : grid :=
  Inflation.inflate (Inflation.pixel_buffer (2 / 100) 2) 983 2500
    (free_grid 983 2500).

Definition dspa_com1 (g : R * R) : DSPA.planner := {|
  DSPA.world_width := 2500;
  DSPA.world_height := 983;
  DSPA.resolution := 2 / 100;
  DSPA.com := true;
  DSPA.aug_map := com1_map;
  DSPA.goal := g
|}.


End Examples2.

(** ** CSDA_planner.py: the search loop and the action sequence *)

Module Search.
Import Num Motion CSDA.

(** [heapq.heappop]: one node leaves the heap.  Python returns the
    smallest node for the order of tuples; which node it is plays no
    part in the properties below, which hold for any node of the
    heap. *)
Definition heappop (pq : frontier) (n : node) (pq' : frontier) : Prop :=
  pq ≡ₚ n :: pq'.

(** The runs of [while len(priority_queue) != 0] that end, from the heap
    [pq] and the visited map [vs], with the [goal_node] they leave
    ([None] when the heap runs empty).  A run in which the body raises
    does not end. *)
Inductive search (p : planner) : frontier -> visited_map -> option node -> Prop :=
| search_empty (vs : visited_map) : search p [] vs None
| search_goal (pq pq' : frontier) (vs : visited_map) (n : node) :
    heappop pq n pq' ->
    iteration p n pq' vs = Ok (GoalFound n) ->
    search p pq vs (Some n)
| search_step (pq pq' pq'' : frontier) (vs vs' : visited_map) (n : node)
    (goal_node : option node) :
    heappop pq n pq' ->
    iteration p n pq' vs = Ok (Continue pq'' vs') ->
    search p pq'' vs' goal_node ->
    search p pq vs goal_node.

(** The loop [while goal_node[4] is not None] that collects the actions
    from the goal node back to the initial node. *)
Fixpoint path_actions (n : node) : list (option (R * R)) :=
  match n with
  | Node _ _ _ action parent =>
      match parent with
      | None => []
      | Some n' => action :: path_actions n'
      end
  end.

(** [self.action_seq] after [self.action_seq.reverse()]. *)
Definition action_seq (goal_node : option node) : list (option (R * R)) :=
  rev (match goal_node with
       | Some n => path_actions n
       | None => []
       end).

(** The initial node [(h(start), 0, start, None, None)]. *)
Definition initial_node (p : planner) (start : pose) : node :=
  let '(x, y, _) := start in
  Node (d_from_goal (goal p) x y) 0 start None None.

(** [generate_plan] from the current continuous state [start]: the
    action sequences that its runs leave in [self.action_seq]. *)
Definition generate_plan (p : planner) (start : pose)
    (seq : list (option (R * R))) : Prop :=
  exists goal_node,
    search p [initial_node p start] [] goal_node /\
    seq = action_seq goal_node.

(** The pose that [motion_predict] predicts for a sequence of actions
    applied one after the other; [None] when one of them collides. *)
Fixpoint replay (p : planner) (s : pose) (acts : list (R * R))
    : result (option pose) :=
  match acts with
  | [] => Ok (Some s)
  | a :: acts' =>
      let '(x, y, theta) := s in
      next <-- motion_predict p x y theta (fst a) (snd a) ;;
      match next with
      | None => Ok None
      | Some s' => replay p s' acts'
      end
  end.

(** The nodes that the search builds from the initial pose [start]: the
    initial node, and the successors of such nodes. *)
Inductive reached (p : planner) (start : pose) : node -> Prop :=
| reached_initial (f : R) : reached p start (Node f 0 start None None)
| reached_successor (n m : node) :
    reached p start n -> SearchAux.successor p n m -> reached p start m.

(** A search in [Examples.csda_maze] from the pose (1, 7.5, pi / 2), half
    a unit south of the goal (1, 8) and facing it: the initial node, and
    the node of the action [(1, 0)], which lies on the goal. *)
Definition example_start : pose := (1%R, (75 / 10)%R, (PI / 2)%R).

Definition example_root : node := initial_node Examples.csda_maze example_start.

Definition example_goal_pose : pose := (1%R, 8%R, (PI / 2)%R).

Definition example_child : node :=
  Node (next_f Examples.csda_maze example_root example_goal_pose)
       (node_g example_root + 1) example_goal_pose
       (Some (1%R, 0%R)) (Some example_root).



End Search.

(** ** Notions for the dumped keys *)

Module DumpAux.

(** The characters at the even positions of a string. *)
Fixpoint every_other (s : string) : string :=
  match s with
  | EmptyString => EmptyString
  | String c EmptyString => String c EmptyString
  | String c (String _ s') => String c (every_other s')
  end.

End DumpAux.

(** ** Binary64: [motion_predict] as Python evaluates it

    The model above computes with real numbers.  Here [collision_checker]
    of CSDA_planner.py and [motion_predict] are modelled on IEEE 754
    binary64 numbers ([float], rounding to nearest even, as Python and
    numpy compute), for the properties that depend on the rounding.
    [np.cos] and [np.sin] are parameters: they are functions of the
    platform's mathematical library. *)

Module Binary64.
Import Floats Grid.

#[local] Set Warnings "-inexact-float".

Definition pose : Type := (float * float * float)%type.

(** [int(x)] on a float: truncation toward zero; [ValueError] for a nan
    and [OverflowError] for an infinity. *)
Definition int_of_float (x : float) : result Z :=
  match Prim2SF x with
  | S754_zero _ => Ok 0
  | S754_infinity _ => Raise OverflowError
  | S754_nan => Raise ValueError
  | S754_finite s m e =>
      let magnitude :=
        if 0 <=? e then Z.pos m * 2 ^ e else Z.pos m / 2 ^ (- e) in
      Ok (if s then - magnitude else magnitude)
  end.

(** [collision_checker] of CSDA_planner.py, called from [motion_predict]
    with numpy floats (a division by zero gives an infinity or a nan,
    which [int] refuses). *)
Definition collision_checker (aug_map : grid) (resolution x y : float)
    : result bool :=
  i <-- int_of_float (y / resolution) ;;
  ii <-- int_of_float (x / resolution) ;;
  v <-- np_get aug_map i ii ;;
  Ok (v =? 100).

Section Predict.
Variables np_cos np_sin : float -> float.
Variable collision_checker : float -> float -> result bool.

(** One pass through the body of [for i in range(num_steps)]. *)
Definition substep (v w frequency : float) (p : pose) : result (option pose) :=
  let '(x, y, theta) := p in
  let dx :=
    if negb (w =? 0)%float
    then ((- v) / w * np_sin theta
          + v / w * np_sin (theta + w / frequency))%float
    else (v * np_cos theta / frequency)%float in
  let dy :=
    if negb (w =? 0)%float
    then (v / w * np_cos theta
          - v / w * np_cos (theta + w / frequency))%float
    else (v * np_sin theta / frequency)%float in
  let x := (x + dx)%float in
  let y := (y + dy)%float in
  hit <-- collision_checker x y ;;
  if hit : bool then Ok None
  else Ok (Some (x, y, (theta + w / frequency)%float)).

Fixpoint substeps (n : nat) (v w frequency : float) (p : pose)
    : result (option pose) :=
  match n with
  | O => Ok (Some p)
  | S n' =>
      r <-- substep v w frequency p ;;
      match r with
      | None => Ok None
      | Some p' => substeps n' v w frequency p'
      end
  end.

Definition motion_predict (x y theta v w dt frequency : float)
    : result (option pose) :=
  num_steps <-- int_of_float (dt * frequency) ;;
  substeps (Z.to_nat num_steps) v w frequency (x, y, theta).
End Predict.




End Binary64.

(* ================================================================== *)
(** * Properties *)

(** ** Truncation, rounding and ranges *)

Section NumFacts.
Import Num.

Lemma int_trunc_nonneg (x : R) : (0 <= x)%R -> int_trunc x = Zfloor x.
Proof. intros Hx. unfold int_trunc. destruct (Rle_dec 0 x); [done | lra]. Qed.

Lemma int_trunc_neg (x : R) : (x < 0)%R -> int_trunc x = Zceil x.
Proof. intros Hx. unfold int_trunc. destruct (Rle_dec 0 x); [lra | done]. Qed.

Lemma int_trunc_le (x : R) : (0 <= x)%R -> (IZR (int_trunc x) <= x)%R.
Proof. intros Hx. rewrite int_trunc_nonneg by done. apply Zfloor_bound. Qed.

Lemma int_trunc_IZR (n : Z) : int_trunc (IZR n) = n.
Proof.
  unfold int_trunc. destruct (Rle_dec 0 (IZR n)).
  - apply ZfloorZ.
  - apply Zceil_eq. lra.
Qed.

(** Below 1 the truncation is at most 0. *)
Lemma int_trunc_lt_1 (x : R) : (x < 1)%R -> int_trunc x <= 0.
Proof.
  intros Hx. unfold int_trunc. destruct (Rle_dec 0 x).
  - pose proof (Zfloor_bound x) as [Hlo _].
    assert (IZR (Zfloor x) < IZR 1)%R as Hlt by (simpl; lra).
    apply lt_IZR in Hlt. lia.
  - pose proof (Zceil_bound x) as [Hlo _].
    assert (IZR (Zceil x) < IZR 1)%R as Hlt by (simpl; lra).
    apply lt_IZR in Hlt. lia.
Qed.

(** A positive truncation brackets its argument. *)
Lemma int_trunc_pos_bound (x : R) :
  0 < int_trunc x -> (IZR (int_trunc x) <= x < IZR (int_trunc x) + 1)%R.
Proof.
  intros Hpos. destruct (Rle_dec 0 x) as [Hx | Hx].
  - rewrite int_trunc_nonneg by done. apply Zfloor_bound.
  - assert (x < 1)%R as Hlt by lra. apply int_trunc_lt_1 in Hlt. lia.
Qed.

(** From an integer bound on the argument to one on the truncation. *)
Lemma int_trunc_ge (n : Z) (x : R) : 0 <= n -> (IZR n <= x)%R -> n <= int_trunc x.
Proof.
  intros Hn Hx.
  assert (0 <= x)%R as Hx0.
  { apply IZR_le in Hn. simpl in Hn. lra. }
  rewrite int_trunc_nonneg by done. by apply Zfloor_lub.
Qed.

Lemma int_trunc_eq (n : Z) (x : R) :
  0 <= n -> (IZR n <= x < IZR n + 1)%R -> int_trunc x = n.
Proof.
  intros Hn Hx.
  assert (0 <= x)%R as Hx0.
  { apply IZR_le in Hn. simpl in Hn. lra. }
  rewrite int_trunc_nonneg by done. by apply Zfloor_eq.
Qed.

Lemma int_trunc_neg_eq (n : Z) (x : R) :
  n <= 0 -> (IZR n - 1 < x <= IZR n)%R -> int_trunc x = n.
Proof.
  intros Hn Hx. unfold int_trunc. destruct (Rle_dec 0 x) as [Hx0 | Hx0].
  - assert (IZR n <= 0)%R as Hn' by (apply IZR_le in Hn; simpl in Hn; lra).
    assert (x = 0%R) as -> by lra.
    assert (IZR n = 0%R) as Hz by lra.
    apply eq_IZR in Hz. subst n. apply (ZfloorZ 0).
  - by apply Zceil_eq.
Qed.

Lemma py_round_IZR (n : Z) : py_round (IZR n) = n.
Proof.
  unfold py_round. rewrite ZfloorZ.
  destruct (Rlt_dec (IZR n - IZR n) (1 / 2)); [done | lra].
Qed.

(** [round] moves its argument by at most one half. *)
Lemma py_round_bound (x : R) :
  (x - 1 / 2 <= IZR (py_round x) <= x + 1 / 2)%R.
Proof.
  unfold py_round. pose proof (Zfloor_bound x) as [Hlo Hhi].
  destruct (Rlt_dec (x - IZR (Zfloor x)) (1 / 2)); [lra |].
  destruct (Rlt_dec (1 / 2) (x - IZR (Zfloor x))).
  - rewrite plus_IZR. simpl. lra.
  - destruct (Z.even (Zfloor x)); [lra |]. rewrite plus_IZR. simpl. lra.
Qed.

(** [round] of a number between two integers stays between them. *)
Lemma py_round_between (a b : Z) (x : R) :
  (IZR a <= x <= IZR b)%R -> a <= py_round x <= b.
Proof.
  intros [Ha Hb]. pose proof (py_round_bound x) as [Hlo Hhi].
  split.
  - assert (IZR a - 1 < IZR (py_round x))%R as H by lra.
    rewrite <- minus_IZR in H. apply lt_IZR in H. lia.
  - assert (IZR (py_round x) < IZR b + 1)%R as H by lra.
    rewrite <- plus_IZR in H. apply lt_IZR in H. lia.
Qed.

Lemma elem_of_range (a b k : Z) : k ∈ range a b <-> a <= k < b.
Proof.
  unfold range. rewrite list_elem_of_fmap. split.
  - intros (n & -> & Hn). apply list_elem_of_In, in_seq in Hn. lia.
  - intros Hk. exists (Z.to_nat (k - a)). split; [lia |].
    apply list_elem_of_In, in_seq. lia.
Qed.

Lemma range_empty (a b : Z) : b <= a -> range a b = [].
Proof.
  intros Hab. unfold range. replace (Z.to_nat (b - a)) with 0%nat by lia. done.
Qed.

End NumFacts.

(** ** Arrays *)

Section GridFacts.
Import Num Grid Aux.

Lemma stamp_stamp (b1 b2 : bool) (o : option Z) :
  stamp b2 (stamp b1 o) = stamp (b1 || b2) o.
Proof. by destruct b1, b2, o. Qed.

Lemma cell_set (g : grid) (r c v r' c' : Z) :
  cell (set g r c v) r' c'
  = if bool_decide (r = r' /\ c = c') then (fun _ => v) <$> cell g r' c'
    else cell g r' c'.
Proof.
  unfold set, cell.
  destruct (0 <=? r) eqn:Hr, (0 <=? c) eqn:Hc; simpl;
    case_bool_decide as Heq;
    try (destruct Heq as [<- <-]; rewrite ?Hr, ?Hc; simpl); try done.
  - rewrite list_lookup_alter_eq.
    destruct (g !! Z.to_nat r) as [row |] eqn:Hrow; simpl; [| done].
    destruct (decide (Z.to_nat c < length row)%nat) as [Hlt | Hge].
    + rewrite list_lookup_insert_eq by done.
      apply lookup_lt_is_Some_2 in Hlt as [x ->]. done.
    + rewrite list_insert_ge by lia.
      rewrite (lookup_ge_None_2 row) by lia. done.
  - destruct (0 <=? r') eqn:Hr', (0 <=? c') eqn:Hc'; simpl; try done.
    destruct (decide (Z.to_nat r = Z.to_nat r')) as [Hrr | Hrr].
    + rewrite <- Hrr, list_lookup_alter_eq.
      destruct (g !! Z.to_nat r) as [row |]; simpl; [| done].
      rewrite list_lookup_insert_ne; [done |].
      intros Hcc. apply Heq. split; lia.
    + by rewrite list_lookup_alter_ne.
Qed.

Lemma shape_set (g : grid) (r c v h w : Z) :
  shape g h w -> shape (set g r c v) h w.
Proof.
  intros [Hlen Hrows]. unfold set.
  destruct ((0 <=? r) && (0 <=? c)); [| done]. split.
  - by rewrite length_alter.
  - apply Forall_alter; [done |]. intros row _ Hrow.
    by rewrite length_insert.
Qed.

Lemma cell_in_shape (g : grid) (h w r c : Z) :
  shape g h w -> 0 <= r < h -> 0 <= c < w -> is_Some (cell g r c).
Proof.
  intros [Hlen Hrows] Hr Hc. unfold cell.
  replace (0 <=? r) with true by lia. replace (0 <=? c) with true by lia.
  simpl. destruct (lookup_lt_is_Some_2 g (Z.to_nat r)) as [row Hrow]; [lia |].
  rewrite Hrow. simpl. apply lookup_lt_is_Some_2.
  rewrite Forall_lookup in Hrows. specialize (Hrows _ _ Hrow). lia.
Qed.

Lemma cell_out_of_shape (g : grid) (h w r c : Z) :
  shape g h w -> ~ (0 <= r < h /\ 0 <= c < w) -> cell g r c = None.
Proof.
  intros [Hlen Hrows] Hout. unfold cell.
  destruct (0 <=? r) eqn:Hr, (0 <=? c) eqn:Hc; simpl; try done.
  destruct (g !! Z.to_nat r) as [row |] eqn:Hrow; simpl; [| done].
  apply lookup_ge_None_2.
  rewrite Forall_lookup in Hrows. specialize (Hrows _ _ Hrow).
  apply lookup_lt_Some in Hrow. lia.
Qed.

Lemma shape_free_grid (h w : nat) :
  shape (free_grid h w) (Z.of_nat h) (Z.of_nat w).
Proof.
  unfold free_grid. split.
  - by rewrite length_replicate.
  - apply Forall_replicate. by rewrite length_replicate.
Qed.

Lemma cell_free_grid (h w : nat) (r c v : Z) :
  cell (free_grid h w) r c = Some v -> v = 0.
Proof.
  unfold cell, free_grid. destruct ((0 <=? r) && (0 <=? c)); [| done].
  destruct (replicate h (replicate w 0) !! Z.to_nat r) as [row |] eqn:Hrow;
    simpl; [| done].
  apply lookup_replicate in Hrow as [-> _].
  intros Hv. by apply lookup_replicate in Hv as [-> _].
Qed.

(** A loop whose every pass stamps a cell or leaves it: the cell ends
    stamped exactly when one pass stamped it. *)
Lemma fold_left_stamp {A : Type} (step : grid -> A -> grid)
    (hit : A -> bool) (r c : Z) (l : list A) :
  (forall g a, cell (step g a) r c = stamp (hit a) (cell g r c)) ->
  forall g, cell (fold_left step l g) r c = stamp (existsb hit l) (cell g r c).
Proof.
  intros Hstep. induction l as [| a l IH]; intros g; simpl; [done |].
  by rewrite IH, Hstep, stamp_stamp.
Qed.

Lemma fold_left_shape {A : Type} (step : grid -> A -> grid) (h w : Z)
    (l : list A) :
  (forall g a, shape g h w -> shape (step g a) h w) ->
  forall g, shape g h w -> shape (fold_left step l g) h w.
Proof.
  intros Hstep. induction l as [| a l IH]; intros g Hg; simpl; auto.
Qed.

Lemma existsb_range (a b : Z) (f : Z -> bool) :
  existsb f (range a b) = true <-> exists k, a <= k < b /\ f k = true.
Proof.
  rewrite existsb_exists. split.
  - intros (k & Hk & Hf). exists k. split; [| done].
    by apply elem_of_range, list_elem_of_In.
  - intros (k & Hk & Hf). exists k. split; [| done].
    by apply list_elem_of_In, elem_of_range.
Qed.

(** An index inside the array is its own numpy index. *)
Lemma np_get_inside (g : grid) (h w i j : Z) :
  shape g h w -> 0 <= i < h -> 0 <= j < w ->
  exists v, cell g i j = Some v /\ np_get g i j = Ok v.
Proof.
  intros [Hlen Hrows] Hi Hj. unfold np_get, norm_index, cell.
  replace ((0 <=? i) && (i <? Z.of_nat (length g))) with true by lia.
  replace ((0 <=? i) && (0 <=? j)) with true by lia.
  destruct (lookup_lt_is_Some_2 g (Z.to_nat i)) as [row Hrow]; [lia |].
  rewrite Hrow. simpl.
  rewrite Forall_lookup in Hrows. specialize (Hrows _ _ Hrow).
  replace ((0 <=? j) && (j <? Z.of_nat (length row))) with true by lia.
  destruct (lookup_lt_is_Some_2 row (Z.to_nat j)) as [v Hv]; [lia |].
  rewrite Hv. by exists v.
Qed.

(** An index at or beyond the length of the second axis raises. *)
Lemma np_get_beyond (g : grid) (h w i j : Z) :
  shape g h w -> w <= j -> np_get g i j = Raise IndexError.
Proof.
  intros [Hlen Hrows] Hj. unfold np_get.
  destruct (norm_index (Z.of_nat (length g)) i) as [i' |]; [| done].
  destruct (g !! Z.to_nat i') as [row |] eqn:Hrow; [| done].
  rewrite Forall_lookup in Hrows. specialize (Hrows _ _ Hrow).
  unfold norm_index.
  replace ((0 <=? j) && (j <? Z.of_nat (length row))) with false by lia.
  replace ((- Z.of_nat (length row) <=? j) && (j <? 0)) with false by lia.
  done.
Qed.

End GridFacts.

(** ** Inflation *)

Section InflationFacts.
Import Num Grid Aux Inflation.

Lemma cell_fill_row (g : grid) (hi left right r c : Z) :
  cell (fill_row g hi left right) r c
  = stamp ((hi =? r) && (left <=? c) && (c <? right)) (cell g r c).
Proof.
  unfold fill_row.
  rewrite (fold_left_stamp _ (fun wi => (hi =? r) && (wi =? c))).
  - f_equal. apply eq_true_iff_eq. rewrite existsb_range. split.
    + intros (k & Hk & Hf). lia.
    + intros Hf. exists c. lia.
  - intros a wi. rewrite cell_set. unfold stamp.
    case_bool_decide as Heq.
    + replace ((hi =? r) && (wi =? c)) with true by lia. done.
    + replace ((hi =? r) && (wi =? c)) with false by lia. done.
Qed.

Lemma cell_fill_window (g : grid) (top bottom left right r c : Z) :
  cell (fill_window g top bottom left right) r c
  = stamp (in_window top bottom left right r c) (cell g r c).
Proof.
  unfold fill_window.
  rewrite (fold_left_stamp _
             (fun hi => (hi =? r) && (left <=? c) && (c <? right))).
  - f_equal. apply eq_true_iff_eq. rewrite existsb_range. unfold in_window.
    split.
    + intros (k & Hk & Hf). lia.
    + intros Hf. exists r. lia.
  - intros a hi. apply cell_fill_row.
Qed.

Lemma cell_inflate_cell (pb h w : Z) (raw g : grid) (i ii r c : Z) :
  cell (inflate_cell pb h w raw g i ii) r c
  = stamp (hit_cell pb h w raw r c i ii) (cell g r c).
Proof.
  unfold inflate_cell, hit_cell. destruct (trigger h w raw i ii); simpl.
  - apply cell_fill_window.
  - done.
Qed.

Lemma cell_inflate (pb h w : Z) (raw : grid) (r c : Z) :
  cell (inflate pb h w raw) r c
  = stamp (existsb (fun i => existsb (hit_cell pb h w raw r c i) (range 0 w))
             (range 0 h))
      (cell raw r c).
Proof.
  unfold inflate. apply fold_left_stamp. intros g i.
  unfold inflate_row. apply fold_left_stamp. intros g' ii.
  apply cell_inflate_cell.
Qed.

(** Inside the grid the stamped cells are the marked ones. *)
Lemma hit_marked (pb h w : Z) (raw : grid) (r c : Z) :
  0 <= r < h -> 0 <= c < w ->
  existsb (fun i => existsb (hit_cell pb h w raw r c i) (range 0 w)) (range 0 h)
  = true <-> marked pb h w raw r c.
Proof.
  intros Hr Hc. rewrite existsb_range. unfold marked. split.
  - intros (i & Hi & Hex). apply existsb_range in Hex as (ii & Hii & Hhit).
    exists i, ii. unfold hit_cell, in_window in Hhit.
    apply andb_true_iff in Hhit as [Htrig Hwin]. repeat split; try done; lia.
  - intros (i & ii & Hi & Hii & Htrig & Hrw & Hcw). exists i. split; [done |].
    apply existsb_range. exists ii. split; [done |].
    unfold hit_cell, in_window. rewrite Htrig. simpl. lia.
Qed.

Lemma shape_fill_window (g : grid) (top bottom left right h w : Z) :
  shape g h w -> shape (fill_window g top bottom left right) h w.
Proof.
  unfold fill_window. apply fold_left_shape. intros g' hi.
  unfold fill_row. apply fold_left_shape. intros g'' wi. apply shape_set.
Qed.

Lemma shape_inflate (pb h w : Z) (raw : grid) :
  shape raw h w -> shape (inflate pb h w raw) h w.
Proof.
  unfold inflate. apply fold_left_shape. intros g i.
  unfold inflate_row. apply fold_left_shape. intros g' ii Hg'.
  unfold inflate_cell. destruct (trigger h w raw i ii); [| done].
  by apply shape_fill_window.
Qed.


Lemma length_chunks (w n : nat) (data : list Z) : length (chunks w n data) = n.
Proof. revert data. induction n as [| n IH]; intros data; simpl; auto. Qed.

Lemma Forall_chunks (w n : nat) (data : list Z) :
  length data = (n * w)%nat ->
  Forall (fun row => length row = w) (chunks w n data).
Proof.
  revert data. induction n as [| n IH]; intros data Hlen; simpl.
  - constructor.
  - constructor.
    + rewrite length_take. lia.
    + apply IH. rewrite length_drop. lia.
Qed.

Lemma reshape_shape (data : list Z) (h w : Z) (raw : grid) :
  reshape data h w = Ok raw -> shape raw h w.
Proof.
  unfold reshape.
  destruct ((0 <=? h) && (0 <=? w) && (Z.of_nat (length data) =? h * w))
    eqn:Hok; [| done].
  intros [= <-]. split.
  - rewrite length_chunks. lia.
  - eapply Forall_impl.
    + apply Forall_chunks. nia.
    + intros row Hrow. simpl in Hrow. lia.
Qed.

(** Inflation writes 100 only: an occupied cell stays occupied. *)
Lemma occupied_inflate (pb h w : Z) (raw : grid) (r c : Z) :
  occupied raw r c -> occupied (inflate pb h w raw) r c.
Proof.
  unfold occupied. intros Hocc. rewrite cell_inflate, Hocc.
  by destruct (existsb _ _).
Qed.

(** With a buffer of zero or less every window is empty. *)
Lemma inflate_no_buffer (pb h w : Z) (raw : grid) :
  pb <= 0 -> inflate pb h w raw = raw.
Proof.
  intros Hpb. unfold inflate.
  assert (forall l g, fold_left (fun a i => inflate_row pb h w raw a i) l g = g)
    as Hrows; [| apply Hrows].
  induction l as [| i l IH]; intros g; simpl; [done |].
  rewrite IH. unfold inflate_row.
  assert (forall l' g', fold_left
            (fun a ii => inflate_cell pb h w raw a i ii) l' g' = g')
    as Hcols; [| apply Hcols].
  induction l' as [| ii l' IH']; intros g'; simpl; [done |].
  rewrite IH'. unfold inflate_cell.
  destruct (trigger h w raw i ii); [| done].
  unfold fill_window. rewrite range_empty by lia. done.
Qed.

End InflationFacts.

Section InflationClaims.
Import Num Grid Aux Inflation.

Lemma once_inflated_cell :
  cell (inflate 1 7 7 one_obstacle) 4 3 = Some 0.
Proof. vm_compute. reflexivity. Qed.

Lemma twice_inflated_cell :
  cell (inflate 1 7 7 (inflate 1 7 7 one_obstacle)) 4 3 = Some 100.
Proof. vm_compute. reflexivity. Qed.


Lemma shape_one_obstacle : shape one_obstacle 7 7.
Proof. apply shape_set, (shape_free_grid 7 7). Qed.

Lemma reshape_one_obstacle : reshape one_obstacle_data 7 7 = Ok one_obstacle.
Proof. vm_compute. reflexivity. Qed.



(** C6.  When [map_callback] returns the inflated grid, every cell that
    holds 100 in the raw grid (the reshaped map data) holds 100 in the
    inflated grid. *)
Theorem C6_inflation_monotonic (data : list Z) (h w : Z)
    (resolution inflation_ratio : R) (aug : grid) :
  map_callback data h w resolution inflation_ratio = Ok aug ->
  exists raw,
    reshape data h w = Ok raw /\
    forall r c, occupied raw r c -> occupied aug r c.
Proof.
  unfold map_callback. intros Hrun.
  destruct (reshape data h w) as [raw |]; cbn [rbind] in Hrun; [| done].
  destruct (Req_dec_T resolution 0) as [Hz | _]; [done |].
  injection Hrun as <-. exists raw. split; [done |].
  intros r c. apply occupied_inflate.
Qed.

Lemma C6_inflation_monotonic_witness :
  exists raw,
    reshape one_obstacle_data 7 7 = Ok raw /\
    forall r c, occupied raw r c ->
      occupied (inflate (pixel_buffer (25 / 100) 1) 7 7 one_obstacle) r c.
Proof.
  apply (C6_inflation_monotonic one_obstacle_data 7 7 (25 / 100) 1).
  unfold map_callback. rewrite reshape_one_obstacle. cbn [rbind].
  destruct (Req_dec_T (25 / 100) 0) as [Hz | _]; [lra | reflexivity].
Defined.

(** C5 (as amended).  Inflating an inflated grid again with the same
    buffer keeps every occupied cell of the inflated grid, and returns
    it unchanged when the buffer is zero or less. *)
Theorem C5_inflation_twice (pb h w : Z) (raw : grid) :
  shape raw h w ->
  shape (inflate pb h w raw) h w /\
  (forall r c, occupied (inflate pb h w raw) r c ->
               occupied (inflate pb h w (inflate pb h w raw)) r c) /\
  (pb <= 0 -> inflate pb h w (inflate pb h w raw) = inflate pb h w raw).
Proof.
  intros Hshape. split; [by apply shape_inflate |]. split.
  - intros r c. apply occupied_inflate.
  - intros Hpb. rewrite (inflate_no_buffer pb h w raw Hpb).
    apply inflate_no_buffer, Hpb.
Qed.

Lemma C5_inflation_twice_witness :
  shape one_obstacle 7 7 /\
  (forall r c, occupied (inflate 1 7 7 one_obstacle) r c ->
               occupied (inflate 1 7 7 (inflate 1 7 7 one_obstacle)) r c) /\
  inflate 0 7 7 (inflate 0 7 7 one_obstacle) = inflate 0 7 7 one_obstacle.
Proof.
  split; [exact shape_one_obstacle |]. split.
  - apply (C5_inflation_twice 1 7 7 one_obstacle shape_one_obstacle).
  - apply (C5_inflation_twice 0 7 7 one_obstacle shape_one_obstacle). lia.
Defined.

(** C5 fails as stated: with the buffer 1 the second inflation of the
    7 x 7 grid with one occupied cell occupies cell (4, 3), which the
    first left free. *)
Lemma C5_counterexample :
  shape one_obstacle 7 7 /\
  cell (inflate 1 7 7 one_obstacle) 4 3 = Some 0 /\
  cell (inflate 1 7 7 (inflate 1 7 7 one_obstacle)) 4 3 = Some 100 /\
  inflate 1 7 7 (inflate 1 7 7 one_obstacle) <> inflate 1 7 7 one_obstacle.
Proof.
  split; [apply shape_one_obstacle |].
  split; [apply once_inflated_cell |].
  split; [apply twice_inflated_cell |].
  intros Heq. pose proof twice_inflated_cell as Hcell.
  rewrite Heq, once_inflated_cell in Hcell. discriminate Hcell.
Qed.

End InflationClaims.

(** ** The collision checkers and the motion model *)

Section MotionFacts.
Import Num Grid Aux Motion.

(** Straight-line motion ([w = 0]): [n] sub-steps without a collision
    advance the position by [n] times the displacement of one. *)
Lemma substeps_straight (cc : R -> R -> result bool) (frequency v theta : R)
    (n : nat) :
  forall x y : R,
  (forall k : nat, (1 <= k <= n)%nat ->
     cc (x + INR k * (v * cos theta / frequency))%R
        (y + INR k * (v * sin theta / frequency))%R = Ok false) ->
  substeps cc n v 0 frequency (x, y, theta)
  = Ok (Some ((x + INR n * (v * cos theta / frequency))%R,
              (y + INR n * (v * sin theta / frequency))%R, theta)).
Proof.
  induction n as [| n IH]; intros x y Hfree.
  - simpl. by rewrite !Rmult_0_l, !Rplus_0_r.
  - cbn [substeps substep]. destruct (Req_dec_T 0 0) as [_ | Hne]; [| lra].
    pose proof (Hfree 1%nat ltac:(lia)) as H1. simpl INR in H1.
    rewrite !Rmult_1_l in H1. rewrite H1. cbn [rbind].
    replace (theta + 0 / frequency)%R with theta by (unfold Rdiv; lra).
    rewrite IH.
    + rewrite S_INR.
      replace (x + v * cos theta / frequency
               + INR n * (v * cos theta / frequency))%R
        with (x + (INR n + 1) * (v * cos theta / frequency))%R by lra.
      replace (y + v * sin theta / frequency
               + INR n * (v * sin theta / frequency))%R
        with (y + (INR n + 1) * (v * sin theta / frequency))%R by lra.
      done.
    + intros k Hk. pose proof (Hfree (S k) ltac:(lia)) as HS.
      rewrite S_INR in HS.
      replace (x + v * cos theta / frequency
               + INR k * (v * cos theta / frequency))%R
        with (x + (INR k + 1) * (v * cos theta / frequency))%R by lra.
      replace (y + v * sin theta / frequency
               + INR k * (v * sin theta / frequency))%R
        with (y + (INR k + 1) * (v * sin theta / frequency))%R by lra.
      exact HS.
Qed.

Lemma num_steps_default :
  Z.to_nat (int_trunc (dt_default * frequency_default)) = 5%nat.
Proof.
  unfold dt_default, frequency_default.
  rewrite (int_trunc_eq 5); [done | lia | simpl; lra].
Qed.

(** The checker of DSPA_planner.py returns a boolean, and [True] outside
    the interior of the world; the map is read at the cell of the
    position only. *)
Lemma dspa_collision_checker_spec (p : DSPA.planner) (x y : R) :
  shape (DSPA.aug_map p) (DSPA.world_height p) (DSPA.world_width p) ->
  let iy := int_trunc (y / DSPA.resolution p) in
  let ix := int_trunc (x / DSPA.resolution p) in
  exists b, DSPA.collision_checker p x y = Ok b /\
    (b = true <->
     iy <= 0 \/ iy >= DSPA.world_height p \/
     ix <= 0 \/ ix >= DSPA.world_width p \/
     cell (DSPA.aug_map p) iy ix = Some 100).
Proof.
  intros Hshape iy ix. unfold DSPA.collision_checker. fold iy ix.
  destruct ((iy <=? 0) || (iy >=? DSPA.world_height p)
            || (ix <=? 0) || (ix >=? DSPA.world_width p)) eqn:Hedge.
  - exists true. split; [done |]. split; [| done]. intros _. lia.
  - destruct (np_get_inside _ _ _ iy ix Hshape) as (v & Hcell & Hget);
      [lia | lia |].
    rewrite Hget. simpl. exists (v =? 100). split; [done |].
    rewrite Hcell. split.
    + intros Hv. do 4 right. f_equal. lia.
    + intros [H | [H | [H | [H | H]]]]; try lia. injection H as ->. done.
Qed.

(** The checker of CSDA_planner.py raises for a position at or beyond
    the right edge of the world. *)
Lemma csda_collision_checker_beyond (p : CSDA.planner) (x y : R) :
  shape (CSDA.aug_map p) (CSDA.world_height p) (CSDA.world_width p) ->
  CSDA.world_width p <= int_trunc (x / CSDA.resolution p) ->
  CSDA.collision_checker p x y = Raise IndexError.
Proof.
  intros Hshape Hx. unfold CSDA.collision_checker.
  by rewrite (np_get_beyond _ _ _ _ _ Hshape Hx).
Qed.

End MotionFacts.

Section MotionClaims.
Import Num Grid Aux Motion Examples.

Lemma div_lt_1 (x r : R) : (0 < r)%R -> (x < r)%R -> (x / r < 1)%R.
Proof.
  intros Hr Hx. apply (Rmult_lt_reg_r r); [done |].
  unfold Rdiv. rewrite Rmult_assoc, Rinv_l by lra. lra.
Qed.

Lemma div_ge (x r : R) (n : Z) :
  (0 < r)%R -> (IZR n * r <= x)%R -> (IZR n <= x / r)%R.
Proof.
  intros Hr Hx. apply (Rmult_le_reg_r r); [done |].
  unfold Rdiv. rewrite Rmult_assoc, Rinv_l by lra. lra.
Qed.

(** A negative index down to minus the length wraps around. *)
Lemma np_get_wrap (g : grid) (h w i j : Z) :
  shape g h w -> 0 <= i < h -> - w <= j < 0 ->
  exists v, cell g i (j + w) = Some v /\ np_get g i j = Ok v.
Proof.
  intros [Hlen Hrows] Hi Hj. unfold np_get, norm_index, cell.
  replace ((0 <=? i) && (i <? Z.of_nat (length g))) with true by lia.
  replace ((0 <=? i) && (0 <=? j + w)) with true by lia.
  destruct (lookup_lt_is_Some_2 g (Z.to_nat i)) as [row Hrow]; [lia |].
  rewrite Hrow. simpl.
  rewrite Forall_lookup in Hrows. specialize (Hrows _ _ Hrow).
  replace ((0 <=? j) && (j <? Z.of_nat (length row))) with false by lia.
  replace ((- Z.of_nat (length row) <=? j) && (j <? 0)) with true by lia.
  rewrite Hrows.
  destruct (lookup_lt_is_Some_2 row (Z.to_nat (j + w))) as [v Hv]; [lia |].
  rewrite Hv. by exists v.
Qed.

Lemma csda_maze_pixel_buffer : Inflation.pixel_buffer (5 / 100) 2 = 10.
Proof.
  unfold Inflation.pixel_buffer, Inflation.ROBOT_SIZE.
  apply int_trunc_eq; [lia | simpl; lra].
Qed.

Lemma shape_maze_map : shape maze_map 200 200.
Proof. apply shape_inflate, (shape_free_grid 200 200). Qed.

(** The inflated free map of the standard maze is free away from its
    border: the inflated border reaches rows and columns 0 to 9 and 189
    to 199 only. *)
Lemma maze_cell_free (r c : Z) :
  10 <= r <= 188 -> 10 <= c <= 188 -> cell maze_map r c = Some 0.
Proof.
  intros Hr Hc. unfold maze_map. rewrite cell_inflate.
  destruct (cell_in_shape (free_grid 200 200) 200 200 r c
              (shape_free_grid 200 200)) as [v Hv]; [lia | lia |].
  rewrite Hv. pose proof (cell_free_grid _ _ _ _ _ Hv) as ->.
  destruct (existsb _ _) eqn:Hex; [| done].
  apply hit_marked in Hex; [| lia | lia].
  destruct Hex as (i & ii & Hi & Hii & Htrig & Hrw & Hcw).
  unfold Inflation.trigger in Htrig.
  case_bool_decide as Hcell; [| simpl in Htrig; lia].
  by apply cell_free_grid in Hcell.
Qed.

Opaque maze_map.

Lemma shape_csda_maze : shape (CSDA.aug_map csda_maze) 200 200.
Proof. exact shape_maze_map. Qed.

Lemma csda_maze_cell : cell (CSDA.aug_map csda_maze) 100 180 = Some 0.
Proof. apply maze_cell_free; lia. Qed.

(** The standard maze is free between 1 and 2 units from its lower
    left corner. *)
Lemma csda_maze_free (x y : R) :
  (1 <= x < 2)%R -> (1 <= y < 2)%R ->
  CSDA.collision_checker csda_maze x y = Ok false.
Proof.
  intros Hx Hy. unfold CSDA.collision_checker.
  cbn [csda_maze CSDA.resolution].
  assert (forall c : R, (1 <= c < 2)%R ->
            20 <= int_trunc (c / (5 / 100)) <= 40) as Hidx.
  { intros c Hc. split.
    - apply int_trunc_ge; [lia | simpl; lra].
    - apply le_IZR.
      pose proof (int_trunc_le (c / (5 / 100)) ltac:(lra)). simpl. lra. }
  pose proof (Hidx x Hx) as Hix. pose proof (Hidx y Hy) as Hiy.
  destruct (np_get_inside _ 200 200 (int_trunc (y / (5 / 100)))
              (int_trunc (x / (5 / 100))) shape_csda_maze)
    as (v & Hv & ->); [lia | lia |].
  cbn [csda_maze CSDA.aug_map] in Hv. rewrite maze_cell_free in Hv by lia.
  by injection Hv as <-.
Qed.



(** Straight-line motion with the default [dt] and [frequency]. *)
Lemma motion_predict_straight (cc : R -> R -> result bool) (x y theta v : R) :
  (forall k : nat, (1 <= k <= 5)%nat ->
     cc (x + INR k * (v * cos theta / 10))%R
        (y + INR k * (v * sin theta / 10))%R = Ok false) ->
  Motion.motion_predict cc x y theta v 0 (1 / 2) 10
  = Ok (Some ((x + v * (1 / 2) * cos theta)%R,
              (y + v * (1 / 2) * sin theta)%R, theta)).
Proof.
  intros Hfree. unfold Motion.motion_predict.
  pose proof num_steps_default as Hn.
  unfold dt_default, frequency_default in Hn. rewrite Hn.
  rewrite (substeps_straight _ 10 v theta 5 x y Hfree).
  replace (x + INR 5 * (v * cos theta / 10))%R
    with (x + v * (1 / 2) * cos theta)%R by (simpl; lra).
  replace (y + INR 5 * (v * sin theta / 10))%R
    with (y + v * (1 / 2) * sin theta)%R by (simpl; lra).
  done.
Qed.

(** C1 fails for CSDA_planner.py.  In the standard maze (200 x 200
    cells at resolution 0.05): the position (10.0, 5.0), one cell
    beyond the right edge, makes [collision_checker] raise
    [IndexError]; [motion_predict] from (9.95, 5.0) heading east raises
    it too instead of returning [None]; and the position (-1.0, 5.0),
    left of the world, is read from column 180 and reported free. *)
Theorem C1_csda_out_of_bounds :
  CSDA.collision_checker csda_maze 10 5 = Raise IndexError /\
  CSDA.motion_predict csda_maze (995 / 100) 5 0 1 0 = Raise IndexError /\
  CSDA.collision_checker csda_maze (-1) 5 = Ok false.
Proof.
  split; [| split].
  - apply csda_collision_checker_beyond; [apply shape_csda_maze |].
    simpl. apply int_trunc_ge; [lia | simpl; lra].
  - unfold CSDA.motion_predict, Motion.motion_predict.
    rewrite num_steps_default. cbn [substeps substep].
    destruct (Req_dec_T 0 0) as [_ | Hne]; [| lra].
    rewrite csda_collision_checker_beyond; [done | apply shape_csda_maze |].
    rewrite cos_0. unfold frequency_default. simpl.
    apply int_trunc_ge; [lia | simpl; lra].
  - unfold CSDA.collision_checker.
    replace (int_trunc (5 / CSDA.resolution csda_maze)) with 100
      by (symmetry; apply int_trunc_eq; [lia | simpl; lra]).
    replace (int_trunc (-1 / CSDA.resolution csda_maze)) with (-20)
      by (symmetry; apply int_trunc_neg_eq; [lia | simpl; lra]).
    destruct (np_get_wrap _ 200 200 100 (-20) shape_csda_maze)
      as (v & Hv & Hget); [lia | lia |].
    rewrite Hget. simpl. change (-20 + 200) with 180 in Hv.
    rewrite csda_maze_cell in Hv. by injection Hv as <-.
Qed.

(** The sibling checker of DSPA_planner.py reports a collision for
    every position outside the world. *)
Lemma dspa_collision_checker_outside (p : DSPA.planner) (x y : R) :
  shape (DSPA.aug_map p) (DSPA.world_height p) (DSPA.world_width p) ->
  (0 < DSPA.resolution p)%R ->
  0 <= DSPA.world_width p -> 0 <= DSPA.world_height p ->
  (x < 0 \/ IZR (DSPA.world_width p) * DSPA.resolution p <= x \/
   y < 0 \/ IZR (DSPA.world_height p) * DSPA.resolution p <= y)%R ->
  DSPA.collision_checker p x y = Ok true.
Proof.
  intros Hshape Hres Hw Hh Hout.
  destruct (dspa_collision_checker_spec p x y Hshape) as (b & Hb & Hiff).
  rewrite Hb. f_equal. apply Hiff.
  destruct Hout as [Hx | [Hx | [Hy | Hy]]].
  - right; right; left. apply int_trunc_lt_1, div_lt_1; lra.
  - right; right; right; left. apply Z.le_ge, int_trunc_ge; [done |].
    by apply div_ge.
  - left. apply int_trunc_lt_1, div_lt_1; lra.
  - right; left. apply Z.le_ge, int_trunc_ge; [done |]. by apply div_ge.
Qed.

End MotionClaims.

(** ** One iteration of the search of CSDA_planner.py *)

Section SearchClaims.
Import Num Grid Aux Motion Examples CSDA SearchAux.

(** Equality of results that carry poses, componentwise. *)
Ltac pose_eq :=
  repeat match goal with
         | |- Ok _ = Ok _ => f_equal
         | |- Some _ = Some _ => f_equal
         | |- (_, _) = (_, _) => f_equal
         end;
  try lra.


Lemma visited_get_set_ne (vs : visited_map) (k k' : pose) (v : R) :
  k' <> k -> visited_get (visited_set vs k v) k' = visited_get vs k'.
Proof. intros Hne. simpl. destruct (pose_eq_dec k' k); [congruence | done]. Qed.

(** The expansion pushes successors of the popped node only. *)
Lemma expand_pushes (p : planner) (n : node) (vs : visited_map)
    (acts : list (R * R)) :
  forall pq pq' : frontier,
  (forall a, a ∈ acts -> a ∈ actions) ->
  expand p n vs pq acts = Ok pq' ->
  forall m, m ∈ pq' -> m ∈ pq \/ successor p n m.
Proof.
  induction acts as [| a acts IH]; intros pq pq' Hsub Hexp m Hm.
  - simpl in Hexp. injection Hexp as <-. by left.
  - simpl in Hexp.
    destruct (expand_action p n vs pq a) as [pq1 |] eqn:Hact; [| done].
    simpl in Hexp.
    destruct (IH pq1 pq' ltac:(set_solver) Hexp m Hm) as [Hin | Hsucc];
      [| by right].
    unfold expand_action in Hact.
    destruct (node_state n) as [[x y] theta] eqn:Hstate.
    destruct (motion_predict p x y theta (fst a) (snd a))
      as [[next |] |] eqn:Hnext; simpl in Hact; try done.
    + destruct (push_test p n vs next); injection Hact as <-; [| by left].
      unfold heappush in Hin. apply elem_of_cons in Hin as [-> | Hin];
        [| by left].
      right. exists a, next. rewrite Hstate. split; [| done].
      apply Hsub. set_solver.
    + injection Hact as <-. by left.
Qed.

(** The expansion removes no node from the frontier. *)
Lemma expand_keeps (p : planner) (n : node) (vs : visited_map)
    (acts : list (R * R)) :
  forall pq pq' : frontier,
  expand p n vs pq acts = Ok pq' -> forall m, m ∈ pq -> m ∈ pq'.
Proof.
  induction acts as [| a acts IH]; intros pq pq' Hexp m Hm.
  - simpl in Hexp. by injection Hexp as <-.
  - simpl in Hexp.
    destruct (expand_action p n vs pq a) as [pq1 |] eqn:Hact; [| done].
    simpl in Hexp. apply (IH pq1 pq' Hexp).
    unfold expand_action in Hact.
    destruct (node_state n) as [[x y] theta].
    destruct (motion_predict p x y theta (fst a) (snd a)) as [[next |] |];
      simpl in Hact; try done.
    + destruct (push_test p n vs next); injection Hact as <-; [by right | done].
    + by injection Hact as <-.
Qed.





End SearchClaims.

(** ** [dump_action_table] *)

Section DumpClaims.
Import DSPA Dump.

Lemma join_chars_inj (cs cs' : list ascii) :
  join_chars cs = join_chars cs' -> cs = cs'.
Proof.
  revert cs'. induction cs as [| c cs IH]; intros cs' Heq.
  - destruct cs' as [| c' [| d' cs']]; simpl in Heq; [done | done | done].
  - destruct cs as [| d cs].
    + destruct cs' as [| c' [| d' cs']]; simpl in Heq; [done | | done].
      by injection Heq as ->.
    + destruct cs' as [| c' [| d' cs']]; [done | done |].
      change (String c (String "," (join_chars (d :: cs)))
              = String c' (String "," (join_chars (d' :: cs')))) in Heq.
      injection Heq as -> Heq. f_equal. by apply IH.
Qed.

#[export] Instance dump_key_inj : Inj (=) (=) dump_key.
Proof.
  intros k k' Heq. unfold dump_key in Heq. apply join_chars_inj in Heq.
  rewrite <- (string_of_list_ascii_of_string k),
          <- (string_of_list_ascii_of_string k').
  by rewrite Heq.
Qed.

(** The table as dumped holds the value of [k] under [dump_key k]. *)
Lemma lookup_dump (table : action_table) (k : string) :
  reload (dump_action_table table) !! dump_key k = table !! k.
Proof. unfold reload, dump_action_table. apply (lookup_kmap dump_key). Qed.

(** C3 fails on the code.  The table that maps the key of state
    (1, 2, 0), "1,2,0", to FORWARD is dumped under the key
    "1,,,2,,,0": [dump_action_table] joins the characters of the key
    with commas.  The lookup of the executor for state (1, 2, 0)
    succeeds on the table and raises [KeyError] on the reloaded one. *)
Theorem C3_dump_breaks_lookup :
  let table : action_table := {[ state_key (1, 2, 0) := Some FORWARD ]} in
  state_key (1, 2, 0) = "1,2,0"%string /\
  executor_lookup table (1, 2, 0) = Ok (Some FORWARD) /\
  reload (dump_action_table table)
  = {[ "1,,,2,,,0"%string := Some FORWARD ]} /\
  executor_lookup (reload (dump_action_table table)) (1, 2, 0)
  = Raise KeyError.
Proof.
  intros table.
  assert (state_key (1, 2, 0) = "1,2,0"%string) as Hkey
    by (vm_compute; reflexivity).
  assert (reload (dump_action_table table)
          = {[ "1,,,2,,,0"%string := Some FORWARD ]}) as Hdump.
  { unfold reload, dump_action_table, table.
    rewrite (kmap_singleton dump_key). rewrite Hkey. done. }
  split; [done |]. split; [| split; [done |]].
  - unfold executor_lookup, table. by rewrite lookup_singleton_eq.
  - unfold executor_lookup. rewrite Hdump, Hkey.
    rewrite lookup_singleton_ne; done.
Qed.

End DumpClaims.

(** ** The motion model inside the world of DSPA_planner.py *)

Section DspaMotionFacts.
Import Num Grid Aux Motion DSPA MdpAux.

Lemma dspa_collision_checker_ok (p : planner) (x y : R) :
  shape (aug_map p) (world_height p) (world_width p) ->
  exists b, collision_checker p x y = Ok b.
Proof.
  intros Hshape.
  destruct (dspa_collision_checker_spec p x y Hshape) as (b & Hb & _).
  by exists b.
Qed.

(** With a checker that never raises, the motion model never raises. *)
Lemma substeps_ok (cc : R -> R -> result bool) (v w frequency : R) (n : nat) :
  (forall x y, exists b, cc x y = Ok b) ->
  forall q : pose, exists r, substeps cc n v w frequency q = Ok r.
Proof.
  intros Hcc. induction n as [| n IH]; intros [[x y] theta].
  - by eexists.
  - cbn [substeps substep].
    match goal with |- context [cc ?a ?b] => destruct (Hcc a b) as [hit ->] end.
    cbn [rbind]. destruct hit; [by eexists | apply IH].
Qed.

Lemma discrete_motion_predict_ok (p : planner) (x y theta : Z) (v w : R) :
  shape (aug_map p) (world_height p) (world_width p) ->
  exists r, discrete_motion_predict p x y theta v w = Ok r.
Proof.
  intros Hshape.
  unfold discrete_motion_predict, Motion.discrete_motion_predict,
    Motion.motion_predict.
  pose proof (dspa_collision_checker_ok p) as Hcc.
  match goal with
  | |- context [substeps ?cc ?n ?v' ?w' ?f ?q] =>
      destruct (substeps_ok cc v' w' f n
                  (fun a b => Hcc a b Hshape) q) as [[[[x1 y1] theta1] |] ->]
  end; cbn [rbind]; [| by eexists].
  match goal with
  | |- context [substeps ?cc ?n ?v' ?w' ?f ?q] =>
      destruct (substeps_ok cc v' w' f n
                  (fun a b => Hcc a b Hshape) q) as [[[[x2 y2] theta2] |] ->]
  end; cbn [rbind]; by eexists.
Qed.

(** The pose returned after at least one sub-step passed the checker. *)
Lemma substeps_last (cc : R -> R -> result bool) (v w frequency : R) (n : nat) :
  forall (q : pose) (x' y' theta' : R),
  (1 <= n)%nat ->
  substeps cc n v w frequency q = Ok (Some (x', y', theta')) ->
  cc x' y' = Ok false.
Proof.
  induction n as [| n IH]; intros [[x y] theta] x' y' theta' Hn Hrun; [lia |].
  cbn [substeps substep] in Hrun.
  match type of Hrun with
  | context [cc ?a ?b] => destruct (cc a b) as [hit |] eqn:Hhit
  end; cbn [rbind] in Hrun; [| done].
  destruct hit; [done |].
  destruct n as [| n].
  - cbn [substeps] in Hrun. injection Hrun as <- <- <-. exact Hhit.
  - eapply IH; [lia | exact Hrun].
Qed.

(** A position that passes the checker lies strictly inside the world. *)
Lemma interior_position (p : planner) (x y : R) :
  well_formed p ->
  collision_checker p x y = Ok false ->
  (0 <= x <= IZR (int_trunc (IZR (world_width p) * resolution p)))%R /\
  (0 <= y <= IZR (int_trunc (IZR (world_height p) * resolution p)))%R.
Proof.
  intros (Hshape & Hres & Hw & Hh) Hfree.
  destruct (dspa_collision_checker_spec p x y Hshape) as (b & Hb & Hiff).
  rewrite Hfree in Hb. injection Hb as <-.
  set (iy := int_trunc (y / resolution p)) in *.
  set (ix := int_trunc (x / resolution p)) in *.
  assert (0 < iy < world_height p /\ 0 < ix < world_width p) as [Hiy Hix].
  { destruct (decide (0 < iy < world_height p /\ 0 < ix < world_width p));
      [done |].
    assert (false = true) as Habs; [| done]. apply Hiff. lia. }
  assert (forall (c : R) (n : Z), 0 < int_trunc (c / resolution p) < n ->
            (0 <= c < IZR n * resolution p)%R) as Hbox.
  { intros c n [Hlo Hhi].
    pose proof (int_trunc_pos_bound _ Hlo) as [Hl Hu].
    assert (1 <= IZR (int_trunc (c / resolution p)))%R as H1
      by (apply (IZR_le 1); lia).
    assert (IZR (int_trunc (c / resolution p)) + 1 <= IZR n)%R as H2
      by (rewrite <- plus_IZR; apply IZR_le; lia).
    assert (c = c / resolution p * resolution p)%R as Hc
      by (field; lra).
    split.
    - rewrite Hc. apply Rmult_le_pos; lra.
    - rewrite Hc at 1. apply Rmult_lt_compat_r; lra. }
  destruct (Hbox x _ Hix) as [Hx0 Hx1]. destruct (Hbox y _ Hiy) as [Hy0 Hy1].
  rewrite <- Hw, <- Hh. lra.
Qed.

(** A successor state is a state of the state space. *)
Lemma discrete_motion_predict_closed (p : planner) (x y theta : Z) (v w : R)
    (s' : state) :
  well_formed p ->
  discrete_motion_predict p x y theta v w = Ok (Some s') ->
  in_state_space p s'.
Proof.
  intros Hwf Hdmp.
  unfold discrete_motion_predict, Motion.discrete_motion_predict in Hdmp.
  destruct (Motion.motion_predict _ _ _ _ _ _ _ _)
    as [[[[x1 y1] theta1] |] |] eqn:H1; cbn [rbind] in Hdmp; try done.
  destruct (Motion.motion_predict _ x1 _ _ _ _ _ _)
    as [[[[x2 y2] theta2] |] |] eqn:H2; cbn [rbind] in Hdmp; try done.
  injection Hdmp as <-.
  unfold Motion.motion_predict in H2. rewrite num_steps_default in H2.
  apply substeps_last in H2; [| lia].
  destruct (interior_position p x2 y2 Hwf H2) as [Hx Hy].
  unfold in_state_space. split; [| split].
  - apply py_round_between. simpl. lra.
  - apply py_round_between. simpl. lra.
  - apply Z.mod_pos_bound. lia.
Qed.

End DspaMotionFacts.

(** ** Value iteration *)

Section ValueIterationFacts.
Import Num Grid Aux Motion DSPA MdpAux.

Lemma elem_of_states (p : planner) (s : state) :
  s ∈ states p <-> in_state_space p s.
Proof.
  destruct s as [[x y] theta]. unfold states, in_state_space.
  rewrite list_elem_of_bind. split.
  - intros (height & Hin & Hh). apply list_elem_of_bind in Hin
      as (width & Hin & Hw). apply list_elem_of_bind in Hin
      as (th & Hin & Ht). apply list_elem_of_singleton in Hin.
    injection Hin as -> -> ->.
    apply elem_of_range in Hh, Hw, Ht. lia.
  - intros (Hx & Hy & Ht). exists y. split; [| apply elem_of_range; lia].
    apply list_elem_of_bind. exists x. split; [| apply elem_of_range; lia].
    apply list_elem_of_bind. exists theta. split; [| apply elem_of_range; lia].
    by apply list_elem_of_singleton.
Qed.

Lemma init_values_lookup (sts : list state) (s : state) (v : R) :
  init_values sts !! s = Some v -> v = 0%R /\ s ∈ sts.
Proof.
  unfold init_values.
  assert (forall (l : list state) (acc : gmap state R),
            fold_left (fun sv s => <[s := 0%R]> sv) l acc !! s = Some v ->
            acc !! s = Some v \/ (v = 0%R /\ s ∈ l)) as Hgen.
  { induction l as [| s' l IH]; intros acc Hl; simpl in Hl; [by left |].
    apply IH in Hl as [Hl | [-> Hin]].
    - apply lookup_insert_Some in Hl as [[<- <-] | [_ Hl]].
      + right. split; [done | set_solver].
      + by left.
    - right. split; [done | set_solver]. }
  intros Hl. apply Hgen in Hl as [Hl | Hl]; [| done].
  by rewrite lookup_empty in Hl.
Qed.

Lemma init_values_dom (sts : list state) (s : state) :
  s ∈ sts -> is_Some (init_values sts !! s).
Proof.
  unfold init_values.
  assert (forall (l : list state) (acc : gmap state R),
            s ∈ l \/ is_Some (acc !! s) ->
            is_Some (fold_left (fun sv s => <[s := 0%R]> sv) l acc !! s))
    as Hgen.
  { induction l as [| s' l IH]; intros acc Hin; simpl.
    - destruct Hin as [Hin | Hin]; [set_solver | done].
    - apply IH. destruct Hin as [Hin | Hin].
      + apply elem_of_cons in Hin as [-> | Hin]; [| by left].
        right. by rewrite lookup_insert_eq.
      + right. apply lookup_insert_is_Some'. by right. }
  intros Hin. apply Hgen. by left.
Qed.

Lemma get_next_state_value_contributed (sv : gmap state R)
    (ns : option state) (v : R) :
  get_next_state_value sv ns = Ok v -> contributed sv v.
Proof.
  unfold get_next_state_value. destruct ns as [s |].
  - destruct (sv !! s) as [v' |] eqn:Hs; [| done].
    intros [= <-]. right. by exists s.
  - intros [= <-]. by left.
Qed.

(** The next-state value of an action is a contributed value, or the
    0.9 / 0.05 / 0.05 mix of three of them. *)
Lemma next_state_value_shape (p : planner) (sv : gmap state R) (s : state)
    (a : action) (q : R) :
  next_state_value p sv s a = Ok q ->
  contributed sv q \/
  exists v1 v2 v3,
    contributed sv v1 /\ contributed sv v2 /\ contributed sv v3 /\
    q = (0 + v1 * (9 / 10) + v2 * (5 / 100) + v3 * (5 / 100))%R.
Proof.
  unfold next_state_value. destruct s as [[x y] theta].
  case_bool_decide as Hturn.
  - destruct a as [v w].
    destruct (discrete_motion_predict p x y theta (IZR v) (IZR w))
      as [ns |]; cbn [rbind]; [| done].
    intros Hq. left. by eapply get_next_state_value_contributed.
  - unfold get_forward_action_value.
    destruct (discrete_motion_predict p x y theta 1 0) as [ns1 |];
      cbn [rbind]; [| done].
    destruct (get_next_state_value sv ns1) as [v1 |] eqn:H1;
      cbn [rbind]; [| done].
    destruct (discrete_motion_predict p x y theta (PI / 2) 1) as [ns2 |];
      cbn [rbind]; [| done].
    destruct (get_next_state_value sv ns2) as [v2 |] eqn:H2;
      cbn [rbind]; [| done].
    destruct (discrete_motion_predict p x y theta (PI / 2) (-1)) as [ns3 |];
      cbn [rbind]; [| done].
    destruct (get_next_state_value sv ns3) as [v3 |] eqn:H3;
      cbn [rbind]; [| done].
    intros [= <-]. right. exists v1, v2, v3.
    repeat split; try done; by eapply get_next_state_value_contributed.
Qed.

Lemma get_next_state_value_ok (p : planner) (sv : gmap state R)
    (x y theta : Z) (v w : R) :
  well_formed p -> covers p sv ->
  exists ns q, discrete_motion_predict p x y theta v w = Ok ns /\
               get_next_state_value sv ns = Ok q.
Proof.
  intros Hwf Hcov. pose proof Hwf as (Hshape & _).
  destruct (discrete_motion_predict_ok p x y theta v w Hshape) as [ns Hns].
  exists ns. destruct ns as [s' |].
  - pose proof (discrete_motion_predict_closed _ _ _ _ _ _ _ Hwf Hns) as Hin.
    destruct (Hcov s' Hin) as [q Hq]. exists q. split; [done |].
    unfold get_next_state_value. by rewrite Hq.
  - by exists crash_penalty.
Qed.

Lemma next_state_value_ok (p : planner) (sv : gmap state R) (s : state)
    (a : action) :
  well_formed p -> covers p sv -> exists q, next_state_value p sv s a = Ok q.
Proof.
  intros Hwf Hcov. unfold next_state_value. destruct s as [[x y] theta].
  case_bool_decide as Hturn.
  - destruct a as [v w].
    destruct (get_next_state_value_ok p sv x y theta (IZR v) (IZR w) Hwf Hcov)
      as (ns & q & -> & Hq). cbn [rbind]. by exists q.
  - unfold get_forward_action_value.
    destruct (get_next_state_value_ok p sv x y theta 1 0 Hwf Hcov)
      as (ns1 & q1 & -> & Hq1). cbn [rbind]. rewrite Hq1. cbn [rbind].
    destruct (get_next_state_value_ok p sv x y theta (PI / 2) 1 Hwf Hcov)
      as (ns2 & q2 & -> & Hq2). cbn [rbind]. rewrite Hq2. cbn [rbind].
    destruct (get_next_state_value_ok p sv x y theta (PI / 2) (-1) Hwf Hcov)
      as (ns3 & q3 & -> & Hq3). cbn [rbind]. rewrite Hq3. cbn [rbind].
    by eexists.
Qed.

Lemma get_current_state_value_ok (p : planner) (s : state) :
  well_formed p -> exists c, get_current_state_value p s = Ok c.
Proof.
  intros (Hshape & _). unfold get_current_state_value.
  destruct s as [[x y] theta].
  destruct (dspa_collision_checker_ok p (IZR x) (IZR y) Hshape) as [b ->].
  cbn [rbind]. destruct b; [by eexists |].
  destruct (check_goal _ _ _); by eexists.
Qed.

Lemma best_total_ok (p : planner) (sv : gmap state R) (s : state)
    (acts : list action) :
  well_formed p -> covers p sv ->
  forall acc, exists r, best_total p sv s acts acc = Ok r.
Proof.
  intros Hwf Hcov. induction acts as [| a acts IH]; intros acc.
  - by eexists.
  - cbn [best_total].
    destruct (get_current_state_value_ok p s Hwf) as [c ->]. cbn [rbind].
    destruct (next_state_value_ok p sv s a Hwf Hcov) as [q ->]. cbn [rbind].
    apply IH.
Qed.

Lemma covers_insert (p : planner) (sv : gmap state R) (s : state) (v : R) :
  covers p sv -> covers p (<[s := v]> sv).
Proof.
  intros Hcov s' Hin. apply lookup_insert_is_Some'. right. by apply Hcov.
Qed.

Lemma sweep_ok (p : planner) (sts : list state) :
  well_formed p ->
  forall sv, covers p sv ->
  exists sv', sweep p sts sv = Ok sv' /\ covers p sv'.
Proof.
  intros Hwf. induction sts as [| s sts IH]; intros sv Hcov.
  - by exists sv.
  - cbn [sweep].
    destruct (best_total_ok p sv s actions Hwf Hcov sentinel) as [r ->].
    cbn [rbind]. apply IH. by apply covers_insert.
Qed.

Lemma sweeps_ok (p : planner) (sts : list state) (n : nat) :
  well_formed p ->
  forall sv, covers p sv ->
  exists sv', sweeps p n sts sv = Ok sv' /\ covers p sv'.
Proof.
  intros Hwf. induction n as [| n IH]; intros sv Hcov.
  - by exists sv.
  - cbn [sweeps]. destruct (sweep_ok p sts Hwf sv Hcov) as (sv1 & -> & Hcov1).
    cbn [rbind]. by apply IH.
Qed.

(** A property of the table that every update of a sweep preserves
    holds after the sweep. *)
Lemma sweep_inv (p : planner) (P : gmap state R -> Prop) (sts : list state) :
  (forall sv s r, P sv -> s ∈ sts ->
     best_total p sv s actions sentinel = Ok r -> P (<[s := r]> sv)) ->
  forall sv sv', P sv -> sweep p sts sv = Ok sv' -> P sv'.
Proof.
  induction sts as [| s sts IH]; intros Hstep sv sv' HP Hrun.
  - injection Hrun as <-. done.
  - cbn [sweep] in Hrun.
    destruct (best_total p sv s actions sentinel) as [r |] eqn:Hr;
      cbn [rbind] in Hrun; [| done].
    eapply IH; [| | exact Hrun].
    + intros sv0 s0 r0 HP0 Hin. apply Hstep; [done | set_solver].
    + eapply Hstep; [done | set_solver | done].
Qed.

Lemma sweeps_inv (p : planner) (P : gmap state R -> Prop) (sts : list state)
    (n : nat) :
  (forall sv s r, P sv -> s ∈ sts ->
     best_total p sv s actions sentinel = Ok r -> P (<[s := r]> sv)) ->
  forall sv sv', P sv -> sweeps p n sts sv = Ok sv' -> P sv'.
Proof.
  intros Hstep. induction n as [| n IH]; intros sv sv' HP Hrun.
  - injection Hrun as <-. done.
  - cbn [sweeps] in Hrun.
    destruct (sweep p sts sv) as [sv1 |] eqn:H1; cbn [rbind] in Hrun; [| done].
    eapply IH; [| exact Hrun]. by eapply sweep_inv.
Qed.

End ValueIterationFacts.

Section ExtractionFacts.
Import Num Grid Aux Motion DSPA MdpAux.

(** The running maximum of a sweep: it is at least its initial value and
    every total, and it is the initial value or one of the totals. *)
Lemma best_total_spec (p : planner) (sv : gmap state R) (s : state)
    (acts : list action) :
  forall acc r,
  best_total p sv s acts acc = Ok r ->
  (acc <= r)%R /\
  (forall a, a ∈ acts -> exists c q,
     get_current_state_value p s = Ok c /\ next_state_value p sv s a = Ok q /\
     (c + 95 / 100 * q <= r)%R) /\
  (r = acc \/ exists a c q, a ∈ acts /\
     get_current_state_value p s = Ok c /\ next_state_value p sv s a = Ok q /\
     r = (c + 95 / 100 * q)%R).
Proof.
  induction acts as [| a acts IH]; intros acc r Hrun.
  - injection Hrun as <-. split; [lra |]. split; [| by left].
    intros a Hin. by apply elem_of_nil in Hin.
  - cbn [best_total] in Hrun.
    destruct (get_current_state_value p s) as [c |] eqn:Hc;
      cbn [rbind] in Hrun; [| done].
    destruct (next_state_value p sv s a) as [q |] eqn:Hq;
      cbn [rbind] in Hrun; [| done].
    apply IH in Hrun as (Hge & Hall & Hex).
    destruct (Rgt_dec (c + 95 / 100 * q) acc) as [Hgt | Hle].
    + split; [lra |]. split.
      * intros a' Hin.
        destruct (proj1 (elem_of_cons _ _ _) Hin) as [-> | Hin'];
          [| by apply Hall].
        exists c, q. done.
      * right. destruct Hex as [-> | (a' & c' & q' & Hin & Hc' & Hq' & ->)].
        -- exists a, c, q. split; [by left | done].
        -- exists a', c', q'. split; [by right | done].
    + split; [lra |]. split.
      * intros a' Hin.
        destruct (proj1 (elem_of_cons _ _ _) Hin) as [-> | Hin'];
          [| by apply Hall].
        exists c, q. split; [done |]. split; [done | lra].
      * destruct Hex as [-> | (a' & c' & q' & Hin & Hc' & Hq' & ->)];
          [by left |].
        right. exists a', c', q'. split; [by right | done].
Qed.

(** The running [(max_value, best_action)] of the extraction. *)
Lemma best_action_spec (p : planner) (sv : gmap state R) (s : state)
    (acts : list action) :
  forall acc r,
  best_action p sv s acts acc = Ok r ->
  (fst acc <= fst r)%R /\
  (forall a, a ∈ acts -> exists q,
     next_state_value p sv s a = Ok q /\ (q <= fst r)%R) /\
  (r = acc \/ exists a, a ∈ acts /\
     next_state_value p sv s a = Ok (fst r) /\ snd r = Some a /\
     (fst acc < fst r)%R).
Proof.
  induction acts as [| a acts IH]; intros acc r Hrun.
  - injection Hrun as <-. split; [lra |]. split; [| by left].
    intros a Hin. by apply elem_of_nil in Hin.
  - cbn [best_action] in Hrun.
    destruct (next_state_value p sv s a) as [q |] eqn:Hq;
      cbn [rbind] in Hrun; [| done].
    apply IH in Hrun as (Hge & Hall & Hex).
    destruct (Rgt_dec q (fst acc)) as [Hgt | Hle]; cbn [fst] in *.
    + split; [lra |]. split.
      * intros a' Hin.
        destruct (proj1 (elem_of_cons _ _ _) Hin) as [-> | Hin'];
          [| by apply Hall].
        by exists q.
      * right. destruct Hex as [-> | (a' & Hin & Hq' & Hs & Hlt)].
        -- exists a. split; [by left | done].
        -- exists a'. split; [by right |]. split; [done |].
           split; [done | cbn [fst] in Hlt; lra].
    + split; [lra |]. split.
      * intros a' Hin.
        destruct (proj1 (elem_of_cons _ _ _) Hin) as [-> | Hin'];
          [| by apply Hall].
        exists q. split; [done | lra].
      * destruct Hex as [-> | (a' & Hin & Hq' & Hs & Hlt)]; [by left |].
        right. exists a'. split; [by right | done].
Qed.

(** What the extraction records for a state, read off the result of its
    loop over the actions. *)
Lemma best_action_entry (p : planner) (sv : gmap state R) (s : state)
    (r : R * option action) :
  best_action p sv s actions (sentinel, None) = Ok r ->
  match snd r with
  | Some a => a ∈ actions /\ maximizes_next_value p sv s a
  | None => no_value_above_sentinel p sv s
  end.
Proof.
  intros Hrun. apply best_action_spec in Hrun as (Hge & Hall & Hex).
  cbn [fst] in Hge.
  destruct Hex as [-> | (a & Hin & Hq & Hs & Hlt)].
  - cbn [snd]. intros a q Hin Hq. destruct (Hall a Hin) as (q' & Hq' & Hle).
    rewrite Hq in Hq'. injection Hq' as <-. done.
  - rewrite Hs. split; [done |]. exists (fst r). split; [done |].
    split; [done |]. intros a' q' Hin' Hq'.
    destruct (Hall a' Hin') as (q'' & Hq'' & Hle).
    rewrite Hq' in Hq''. injection Hq'' as <-. done.
Qed.

(** The extraction never removes a key. *)
Lemma extract_keeps (p : planner) (sv : gmap state R) (sts : list state)
    (k : string) :
  forall table table' : action_table,
  extract p sv sts table = Ok table' -> is_Some (table !! k) ->
  is_Some (table' !! k).
Proof.
  induction sts as [| s sts IH]; intros table table' Hrun Hk.
  - by injection Hrun as <-.
  - cbn [extract] in Hrun.
    destruct (best_action p sv s actions (sentinel, None)) as [r |];
      cbn [rbind] in Hrun; [| done].
    eapply IH; [exact Hrun |]. apply lookup_insert_is_Some'. by right.
Qed.

(** Every entry of the table that the extraction returns was there
    before or is the entry of one of the states; every state has one. *)
Lemma extract_spec (p : planner) (sv : gmap state R) (sts : list state) :
  forall table table' : action_table,
  extract p sv sts table = Ok table' ->
  (forall k e, table' !! k = Some e ->
     table !! k = Some e \/
     exists s r, s ∈ sts /\ k = state_key s /\
       best_action p sv s actions (sentinel, None) = Ok r /\ e = snd r) /\
  (forall s, s ∈ sts -> is_Some (table' !! state_key s)).
Proof.
  induction sts as [| s sts IH]; intros table table' Hrun.
  - injection Hrun as <-. split; [by left |]. intros s Hin. by apply elem_of_nil in Hin.
  - cbn [extract] in Hrun.
    destruct (best_action p sv s actions (sentinel, None)) as [r |] eqn:Hr;
      cbn [rbind] in Hrun; [| done].
    pose proof (IH _ _ Hrun) as [Hfrom Hdom]. split.
    + intros k e Hk.
      destruct (Hfrom k e Hk) as [Hk' | (s' & r' & Hin & -> & Hr' & ->)].
      * apply lookup_insert_Some in Hk' as [[<- <-] | [_ Hk']]; [| by left].
        right. exists s, r. split; [by left | done].
      * right. exists s', r'. split; [by right | done].
    + intros s' Hin. destruct (proj1 (elem_of_cons _ _ _) Hin) as [-> | Hin'];
        [| by apply Hdom].
      eapply extract_keeps; [exact Hrun |]. by rewrite lookup_insert_eq.
Qed.

End ExtractionFacts.

(** ** The keys of the action table *)

Section KeyFacts.
Import DSPA KeyAux.

Lemma pretty_N_go_comma_free (x : N) :
  forall s, comma_free s -> comma_free (pretty_N_go x s).
Proof.
  induction (N.lt_wf_0 x) as [x _ IH]. intros s Hs.
  destruct (decide (x = 0%N)) as [-> | Hx].
  - by rewrite pretty_N_go_0.
  - rewrite pretty_N_go_step by lia. apply IH.
    + apply N.div_lt; lia.
    + split; [| done]. unfold pretty_N_char. by repeat case_match.
Qed.

Lemma pretty_N_comma_free (x : N) : comma_free (pretty x).
Proof.
  unfold pretty, pretty_N. destruct (decide (x = 0%N)).
  - by split.
  - by apply pretty_N_go_comma_free.
Qed.

Lemma pretty_Z_comma_free (z : Z) : comma_free (pretty z).
Proof.
  unfold pretty, pretty_Z. destruct z as [| x | x].
  - by split.
  - apply pretty_N_comma_free.
  - split; [done |]. apply pretty_N_comma_free.
Qed.

Lemma append_nil_l (s : string) : "" +:+ s = s.
Proof. reflexivity. Qed.

Lemma append_cons (c : ascii) (a s : string) :
  String c a +:+ s = String c (a +:+ s).
Proof. reflexivity. Qed.

(** Two strings that agree after a comma-free prefix and a comma have
    the same prefix and the same rest. *)
Lemma split_at_comma (a a' b b' : string) :
  comma_free a -> comma_free a' ->
  a +:+ "," +:+ b = a' +:+ "," +:+ b' -> a = a' /\ b = b'.
Proof.
  revert a'. induction a as [| c a IH]; intros [| c' a'] Ha Ha' Heq;
    repeat (rewrite append_nil_l in Heq || rewrite append_cons in Heq).
  - by injection Heq as ->.
  - injection Heq as <- _. by destruct Ha' as [? _].
  - injection Heq as -> _. by destruct Ha as [? _].
  - injection Heq as -> Heq. destruct Ha as [_ Ha], Ha' as [_ Ha'].
    destruct (IH a' Ha Ha' Heq) as [-> ->]. done.
Qed.

(** States of the state space with the same key are the same state. *)
Lemma state_key_inj (x y theta x' y' theta' : Z) :
  0 <= theta < 4 -> 0 <= theta' < 4 ->
  state_key (x, y, theta) = state_key (x', y', theta') ->
  (x, y, theta) = (x', y', theta').
Proof.
  intros Ht Ht' Heq. unfold state_key in Heq.
  rewrite !Z.mod_small in Heq by done.
  apply split_at_comma in Heq as [Hx Heq]; try apply pretty_Z_comma_free.
  apply split_at_comma in Heq as [Hy Ht'']; try apply pretty_Z_comma_free.
  apply (inj pretty) in Hx, Hy, Ht''. by subst.
Qed.

End KeyFacts.

(** ** The action table of [generate_plan] *)

Section PlanFacts.
Import Num Grid Aux Motion DSPA MdpAux KeyAux.

Lemma best_action_ok (p : planner) (sv : gmap state R) (s : state)
    (acts : list action) :
  well_formed p -> covers p sv ->
  forall acc, exists r, best_action p sv s acts acc = Ok r.
Proof.
  intros Hwf Hcov. induction acts as [| a acts IH]; intros acc.
  - by eexists.
  - cbn [best_action].
    destruct (next_state_value_ok p sv s a Hwf Hcov) as [q ->]. cbn [rbind].
    apply IH.
Qed.

Lemma extract_ok (p : planner) (sv : gmap state R) (sts : list state) :
  well_formed p -> covers p sv ->
  forall table : action_table, exists table', extract p sv sts table = Ok table'.
Proof.
  intros Hwf Hcov. induction sts as [| s sts IH]; intros table.
  - by eexists.
  - cbn [extract].
    destruct (best_action_ok p sv s actions Hwf Hcov (sentinel, None))
      as [r ->].
    cbn [rbind]. apply IH.
Qed.

(** In a well-formed world [generate_plan] returns. *)
Lemma generate_plan_ok (p : planner) :
  well_formed p -> exists sv table, generate_plan p = Ok (sv, table).
Proof.
  intros Hwf. unfold generate_plan.
  assert (covers p (init_values (states p))) as Hcov.
  { intros s Hs. by apply init_values_dom, elem_of_states. }
  destruct (sweeps_ok p (states p) (steps p) Hwf _ Hcov) as (sv & -> & Hcov').
  cbn [rbind].
  destruct (extract_ok p sv (states p) Hwf Hcov' ∅) as [table ->].
  cbn [rbind]. by exists sv, table.
Qed.

Lemma generate_plan_inv (p : planner) (sv : gmap state R)
    (table : action_table) :
  generate_plan p = Ok (sv, table) ->
  sweeps p (steps p) (states p) (init_values (states p)) = Ok sv /\
  extract p sv (states p) ∅ = Ok table.
Proof.
  unfold generate_plan. intros Hrun.
  destruct (sweeps p (steps p) (states p) (init_values (states p)))
    as [sv0 |] eqn:Hsw; cbn [rbind] in Hrun; [| done].
  destruct (extract p sv0 (states p) ∅) as [table0 |] eqn:Hex;
    cbn [rbind] in Hrun; [| done].
  injection Hrun as <- <-. done.
Qed.

(** The entry that the extraction records for a state of the state
    space is the result of the loop over the actions for that state. *)
Lemma plan_entry (p : planner) (sv : gmap state R) (table : action_table)
    (s : state) :
  generate_plan p = Ok (sv, table) -> in_state_space p s ->
  exists r, best_action p sv s actions (sentinel, None) = Ok r /\
            table !! state_key s = Some (snd r).
Proof.
  intros Hrun Hs. apply generate_plan_inv in Hrun as [_ Hext].
  apply extract_spec in Hext as [Hfrom Hdom].
  destruct (Hdom s) as [e He]; [by apply elem_of_states |].
  destruct (Hfrom _ _ He) as [He' | (s' & r & Hs' & Hkey & Hr & ->)].
  - by rewrite lookup_empty in He'.
  - apply elem_of_states in Hs'.
    destruct s as [[x y] theta], s' as [[x' y'] theta'].
    apply state_key_inj in Hkey; [| apply Hs | apply Hs'].
    injection Hkey as -> -> ->. by exists r.
Qed.

(** C8 (as amended).  When [generate_plan] returns, the action table
    holds, for every state of the state space, the entry that the
    extraction computed from the final state values.  An entry that is
    an action maximizes the expected next-state value alone (the value
    of the successor for the turns, the 0.9 / 0.05 / 0.05 mix for
    FORWARD, the crash penalty for a collided outcome), and that value
    exceeds the initial [max_value] -10000000; the entry is [None] when
    no action has a next-state value above -10000000.  The reward of
    the state plays no part. *)
Theorem C8_policy_extraction (p : planner) (sv : gmap state R)
    (table : action_table) (s : state) :
  generate_plan p = Ok (sv, table) ->
  in_state_space p s ->
  exists e, table !! state_key s = Some e /\
    match e with
    | Some a => a ∈ actions /\ maximizes_next_value p sv s a
    | None => no_value_above_sentinel p sv s
    end.
Proof.
  intros Hrun Hs. destruct (plan_entry p sv table s Hrun Hs) as (r & Hr & He).
  exists (snd r). split; [done |]. by apply best_action_entry.
Qed.


(** The rewards of the state space stay above -500000 when the goal is
    in reach. *)
Lemma reward_lower_bound (p : planner) (s : state) (c : R) :
  goal_in_reach p -> in_state_space p s ->
  get_current_state_value p s = Ok c -> (- 499999 <= c)%R.
Proof.
  intros [Hnorm Hreach] Hs. unfold get_current_state_value.
  destruct s as [[x y] theta].
  destruct (collision_checker p (IZR x) (IZR y)) as [hit |];
    cbn [rbind]; [| done].
  destruct hit; [intros [= <-]; unfold crash_penalty; lra |].
  destruct (check_goal _ _ _); [intros [= <-]; lra |].
  intros [= <-]. specialize (Hreach x y theta Hs).
  set (d := d_from_goal (goal p) (IZR x) (IZR y)) in *.
  set (n := distance_penalty_normalization p) in *.
  assert (d / n <= 499999)%R; [| lra].
  apply (Rmult_le_reg_r n); [done |].
  unfold Rdiv. rewrite Rmult_assoc, Rinv_l by lra. lra.
Qed.

Lemma next_state_value_above (p : planner) (sv : gmap state R) (s : state)
    (a : action) (q : R) :
  values_above sv -> next_state_value p sv s a = Ok q -> (- 9999980 <= q)%R.
Proof.
  intros Hsv Hq.
  assert (forall v, contributed sv v -> (- 9999980 <= v)%R) as Hc.
  { intros v [-> | [k Hk]]; [unfold crash_penalty; lra | by eapply Hsv]. }
  apply next_state_value_shape in Hq
    as [Hq | (v1 & v2 & v3 & H1 & H2 & H3 & ->)]; [by apply Hc |].
  apply Hc in H1, H2, H3. lra.
Qed.

Lemma values_above_plan (p : planner) (n : nat) (sv : gmap state R) :
  goal_in_reach p ->
  sweeps p n (states p) (init_values (states p)) = Ok sv ->
  values_above sv.
Proof.
  intros Hreach Hrun.
  eapply (sweeps_inv p values_above); [| | exact Hrun].
  - intros sv0 s r Hsv0 Hs Hr s' v Hlook.
    apply lookup_insert_Some in Hlook as [[<- <-] | [_ Hlook]];
      [| by eapply Hsv0].
    apply best_total_spec in Hr as (_ & Hall & _).
    destruct (Hall FORWARD ltac:(by left)) as (c & q & Hc & Hq & Hle).
    apply reward_lower_bound in Hc; [| done | by apply elem_of_states].
    apply next_state_value_above in Hq; [| done]. lra.
  - intros s v Hlook. apply init_values_lookup in Hlook as [-> _]. lra.
Qed.

(** C9 (as amended).  When the goal is in reach of the state space
    (every reward is above -500000) and [generate_plan] returns, the
    action table maps the key of every state of the state space to one
    of the three actions, never to [None], and the lookup of the
    executor for that state returns it. *)
Theorem C9_action_table_total (p : planner) (sv : gmap state R)
    (table : action_table) (x y theta : Z) :
  goal_in_reach p ->
  generate_plan p = Ok (sv, table) ->
  in_state_space p (x, y, theta) ->
  exists a,
    a ∈ actions /\
    table !! (pretty x +:+ "," +:+ pretty y +:+ "," +:+ pretty theta)
    = Some (Some a) /\
    executor_lookup table (x, y, theta) = Ok (Some a).
Proof.
  intros Hreach Hrun Hs.
  destruct (plan_entry p sv table _ Hrun Hs) as (r & Hr & He).
  pose proof (generate_plan_inv _ _ _ Hrun) as [Hsw _].
  pose proof (values_above_plan p _ sv Hreach Hsw) as Hsv.
  apply best_action_spec in Hr as (_ & Hall & Hex).
  destruct (Hall FORWARD ltac:(by left)) as (q & Hq & Hle).
  apply next_state_value_above in Hq; [| done].
  destruct Hex as [-> | (a & Hin & _ & Ha & _)].
  - cbn [fst] in Hle. unfold sentinel in Hle. lra.
  - exists a. split; [done |]. rewrite Ha in He.
    assert (state_key (x, y, theta)
            = pretty x +:+ "," +:+ pretty y +:+ "," +:+ pretty theta) as Hkey.
    { unfold state_key. rewrite Z.mod_small; [done | apply Hs]. }
    rewrite <- Hkey. split; [done |]. unfold executor_lookup. by rewrite He.
Qed.


Lemma int_trunc_maze : int_trunc (IZR 200 * (5 / 100)) = 10.
Proof. apply int_trunc_eq; [lia | simpl; lra]. Qed.

Lemma well_formed_maze (g : R * R) : well_formed (dspa_maze g).
Proof.
  unfold well_formed. cbn [dspa_maze world_width world_height resolution aug_map].
  rewrite int_trunc_maze.
  split; [exact shape_maze_map |].
  split; [lra |]. split; lra.
Qed.

Lemma state_space_maze (g : R * R) (x y theta : Z) :
  in_state_space (dspa_maze g) (x, y, theta)
  <-> 0 <= x <= 10 /\ 0 <= y <= 10 /\ 0 <= theta < 4.
Proof.
  unfold in_state_space. cbn [dspa_maze world_width world_height resolution].
  by rewrite int_trunc_maze.
Qed.

Lemma goal_in_reach_near : goal_in_reach dspa_near.
Proof.
  split; [unfold distance_penalty_normalization; simpl; lra |].
  intros x y theta Hs. apply state_space_maze in Hs as (Hx & Hy & _).
  unfold distance_penalty_normalization, d_from_goal. simpl.
  assert (0 <= IZR x <= 10 /\ 0 <= IZR y <= 10)%R as [Hx' Hy'].
  { split; split; try (apply (IZR_le 0); lia); apply (IZR_le _ 10); lia. }
  assert ((IZR x - 1) * ((IZR x - 1) * 1) + (IZR y - 8) * ((IZR y - 8) * 1)
          <= 13 * 13)%R as Hsq by nra.
  apply sqrt_le_1_alt in Hsq. rewrite sqrt_square in Hsq by lra. lra.
Qed.

Lemma C8_policy_extraction_witness :
  exists sv table,
    generate_plan dspa_near = Ok (sv, table) /\
    in_state_space dspa_near (5, 5, 0) /\
    exists e, table !! state_key (5, 5, 0) = Some e /\
      match e with
      | Some a => a ∈ actions /\ maximizes_next_value dspa_near sv (5, 5, 0) a
      | None => no_value_above_sentinel dspa_near sv (5, 5, 0)
      end.
Proof.
  destruct (generate_plan_ok dspa_near) as (sv & table & Hrun).
  { apply well_formed_maze. }
  assert (in_state_space dspa_near (5, 5, 0)) as Hs.
  { apply state_space_maze. lia. }
  exists sv, table. split; [exact Hrun |]. split; [exact Hs |].
  apply (C8_policy_extraction dspa_near sv table (5, 5, 0) Hrun Hs).
Defined.

Lemma C9_action_table_total_witness :
  exists sv table,
    goal_in_reach dspa_near /\
    generate_plan dspa_near = Ok (sv, table) /\
    in_state_space dspa_near (5, 5, 0) /\
    exists a,
      a ∈ actions /\
      table !! (pretty 5 +:+ "," +:+ pretty 5 +:+ "," +:+ pretty 0)
      = Some (Some a) /\
      executor_lookup table (5, 5, 0) = Ok (Some a).
Proof.
  destruct (generate_plan_ok dspa_near) as (sv & table & Hrun).
  { apply well_formed_maze. }
  assert (in_state_space dspa_near (5, 5, 0)) as Hs.
  { apply state_space_maze. lia. }
  exists sv, table. split; [exact goal_in_reach_near |].
  split; [exact Hrun |]. split; [exact Hs |].
  apply (C9_action_table_total dspa_near sv table 5 5 0
           goal_in_reach_near Hrun Hs).
Defined.

End PlanFacts.

(** ** Trajectories that stay near their start *)

Section TrajectoryFacts.
Import Num Grid Aux Motion.

Lemma Rabs_le_inv' (x b : R) : (Rabs x <= b)%R -> (- b <= x <= b)%R.
Proof.
  intros Hx. unfold Rabs in Hx. destruct (Rcase_abs x); lra.
Qed.

Lemma Rabs_sin_le (k t : R) : (Rabs (k * sin t) <= Rabs k)%R.
Proof.
  rewrite Rabs_mult. pose proof (SIN_bound t) as [Hlo Hhi].
  assert (Rabs (sin t) <= 1)%R as Hs by (apply Rabs_le; lra).
  pose proof (Rabs_pos k). nra.
Qed.

Lemma Rabs_cos_le (k t : R) : (Rabs (k * cos t) <= Rabs k)%R.
Proof.
  rewrite Rabs_mult. pose proof (COS_bound t) as [Hlo Hhi].
  assert (Rabs (cos t) <= 1)%R as Hs by (apply Rabs_le; lra).
  pose proof (Rabs_pos k). nra.
Qed.

(** Motion along an arc ([w <> 0]) keeps the pose on the circle of
    radius [|v / w|] around [(C1, C2)]: where the checker reports no
    collision within that distance of the centre, the sub-steps all
    pass. *)
Lemma substeps_arc (cc : R -> R -> result bool) (v w frequency k C1 C2 : R) :
  w <> 0%R -> k = (v / w)%R ->
  (forall a b, (Rabs (a - C1) <= Rabs k)%R -> (Rabs (b - C2) <= Rabs k)%R ->
               cc a b = Ok false) ->
  forall (n : nat) (x y theta : R),
  x = (C1 + k * sin theta)%R -> y = (C2 - k * cos theta)%R ->
  exists x' y' theta',
    substeps cc n v w frequency (x, y, theta) = Ok (Some (x', y', theta')) /\
    x' = (C1 + k * sin theta')%R /\ y' = (C2 - k * cos theta')%R.
Proof.
  intros Hw Hk Hfree. induction n as [| n IH]; intros x y theta Hx Hy.
  - by exists x, y, theta.
  - cbn [substeps substep]. destruct (Req_dec_T w 0) as [Hw0 | _]; [done |].
    set (theta1 := (theta + w / frequency)%R).
    assert ((x + (- v / w * sin theta + v / w * sin theta1))
            = C1 + k * sin theta1)%R as Hx1.
    { rewrite Hx, Hk. unfold Rdiv. ring. }
    assert ((y + (v / w * cos theta - v / w * cos theta1))
            = C2 - k * cos theta1)%R as Hy1.
    { rewrite Hy, Hk. unfold Rdiv. ring. }
    rewrite Hfree.
    + cbn [rbind]. by apply IH.
    + rewrite Hx1. replace (C1 + k * sin theta1 - C1)%R
        with (k * sin theta1)%R by ring. apply Rabs_sin_le.
    + rewrite Hy1. replace (C2 - k * cos theta1 - C2)%R
        with (- (k * cos theta1))%R by ring.
      rewrite Rabs_Ropp. apply Rabs_cos_le.
Qed.

(** A turning [discrete_motion_predict] of radius at most 1 in a region
    free of collisions within 2 units of the start returns a state at
    most 2 units away. *)
Lemma discrete_arc (cc : R -> R -> result bool) (x y theta : Z) (v w : R) :
  (w * PI / 2)%R <> 0%R ->
  (Rabs (v / (w * PI / 2)) <= 1)%R ->
  (forall a b, (Rabs (a - IZR x) <= 2)%R -> (Rabs (b - IZR y) <= 2)%R ->
               cc a b = Ok false) ->
  exists x2 y2 theta2,
    Motion.discrete_motion_predict cc x y theta v w
    = Ok (Some (py_round x2, py_round y2, py_round (theta2 / (PI / 2)) mod 4)) /\
    (Rabs (x2 - IZR x) <= 2)%R /\ (Rabs (y2 - IZR y) <= 2)%R.
Proof.
  intros Hw Hk Hfree.
  set (k := (v / (w * PI / 2))%R) in *.
  set (theta0 := (IZR theta * PI / 2)%R).
  set (C1 := (IZR x - k * sin theta0)%R).
  set (C2 := (IZR y + k * cos theta0)%R).
  pose proof (Rabs_sin_le k theta0) as Hs0.
  pose proof (Rabs_cos_le k theta0) as Hc0.
  assert (forall a b, (Rabs (a - C1) <= Rabs k)%R ->
            (Rabs (b - C2) <= Rabs k)%R -> cc a b = Ok false) as Hfree'.
  { intros a b Ha Hb. apply Hfree.
    - replace (a - IZR x)%R with ((a - C1) + - (k * sin theta0))%R
        by (unfold C1; ring).
      eapply Rle_trans; [apply Rabs_triang |]. rewrite Rabs_Ropp. lra.
    - replace (b - IZR y)%R with ((b - C2) + k * cos theta0)%R
        by (unfold C2; ring).
      eapply Rle_trans; [apply Rabs_triang |]. lra. }
  unfold Motion.discrete_motion_predict, Motion.motion_predict.
  rewrite num_steps_default. fold theta0.
  destruct (substeps_arc cc v (w * PI / 2) frequency_default k C1 C2 Hw
              eq_refl Hfree' 5 (IZR x) (IZR y) theta0)
    as (x1 & y1 & theta1 & -> & Hx1 & Hy1);
    [unfold C1; ring | unfold C2; ring |].
  cbn [rbind].
  destruct (substeps_arc cc v (w * PI / 2) frequency_default k C1 C2 Hw
              eq_refl Hfree' 5 x1 y1 theta1 Hx1 Hy1)
    as (x2 & y2 & theta2 & -> & Hx2 & Hy2).
  cbn [rbind]. exists x2, y2, theta2. split; [done |].
  pose proof (Rabs_sin_le k theta2) as Hs2.
  pose proof (Rabs_cos_le k theta2) as Hc2.
  split.
  - replace (x2 - IZR x)%R with (k * sin theta2 + - (k * sin theta0))%R
      by (rewrite Hx2; unfold C1; ring).
    eapply Rle_trans; [apply Rabs_triang |]. rewrite Rabs_Ropp. lra.
  - replace (y2 - IZR y)%R with (- (k * cos theta2) + k * cos theta0)%R
      by (rewrite Hy2; unfold C2; ring).
    eapply Rle_trans; [apply Rabs_triang |]. rewrite Rabs_Ropp. lra.
Qed.

(** The same for the straight [discrete_motion_predict] at speed at
    most 1. *)
Lemma discrete_straight (cc : R -> R -> result bool) (x y theta : Z) (v : R) :
  (Rabs v <= 1)%R ->
  (forall a b, (Rabs (a - IZR x) <= 2)%R -> (Rabs (b - IZR y) <= 2)%R ->
               cc a b = Ok false) ->
  exists x2 y2 theta2,
    Motion.discrete_motion_predict cc x y theta v 0
    = Ok (Some (py_round x2, py_round y2, py_round (theta2 / (PI / 2)) mod 4)) /\
    (Rabs (x2 - IZR x) <= 2)%R /\ (Rabs (y2 - IZR y) <= 2)%R.
Proof.
  intros Hv Hfree.
  set (theta0 := (IZR theta * PI / 2)%R).
  set (c := (v * cos theta0)%R). set (s := (v * sin theta0)%R).
  assert (-1 <= c <= 1)%R as Hc.
  { apply Rabs_le_inv'. eapply Rle_trans; [apply Rabs_cos_le | done]. }
  assert (-1 <= s <= 1)%R as Hs.
  { apply Rabs_le_inv'. eapply Rle_trans; [apply Rabs_sin_le | done]. }
  assert (forall k : nat, (1 <= k <= 5)%nat -> (1 <= INR k <= 5)%R) as Hk.
  { intros k Hk. assert (INR 1 <= INR k <= INR 5)%R as H
      by (split; apply le_INR; lia). simpl in H. lra. }
  unfold Motion.discrete_motion_predict, dt_default, frequency_default.
  replace (0 * PI / 2)%R with 0%R by (unfold Rdiv; ring).
  rewrite motion_predict_straight.
  - cbn [rbind]. fold theta0. fold c s.
    replace (v * (1 / 2) * cos theta0)%R with (c / 2)%R by (unfold c; field).
    replace (v * (1 / 2) * sin theta0)%R with (s / 2)%R by (unfold s; field).
    rewrite motion_predict_straight.
    + cbn [rbind]. fold c s.
      replace (v * (1 / 2) * cos theta0)%R with (c / 2)%R by (unfold c; field).
      replace (v * (1 / 2) * sin theta0)%R with (s / 2)%R by (unfold s; field).
      eexists _, _, _. split; [done |].
      split; apply Rabs_le; lra.
    + intros k Hk'. apply Hk in Hk'. fold c s.
      apply Hfree; apply Rabs_le; nra.
  - intros k Hk'. apply Hk in Hk'. fold theta0. fold c s.
    apply Hfree; apply Rabs_le; nra.
Qed.

End TrajectoryFacts.

(** ** A goal out of reach *)

Section FarGoal.
Import Num Grid Aux Motion DSPA MdpAux KeyAux.

(** What a sweep writes for a state, and what it leaves alone. *)
Lemma sweep_untouched (p : planner) (sts : list state) (s : state) :
  forall sv sv', sweep p sts sv = Ok sv' -> s ∉ sts -> sv' !! s = sv !! s.
Proof.
  induction sts as [| s0 sts IH]; intros sv sv' Hrun Hnin.
  - by injection Hrun as <-.
  - cbn [sweep] in Hrun.
    destruct (best_total p sv s0 actions sentinel) as [r |];
      cbn [rbind] in Hrun; [| done].
    apply not_elem_of_cons in Hnin as [Hne Hnin].
    rewrite (IH _ _ Hrun Hnin). by apply lookup_insert_ne.
Qed.

Lemma sweep_written (p : planner) (P : gmap state R -> Prop)
    (sts : list state) (s : state) :
  (forall sv s r, P sv -> s ∈ sts ->
     best_total p sv s actions sentinel = Ok r -> P (<[s := r]> sv)) ->
  forall sv sv', P sv -> sweep p sts sv = Ok sv' -> s ∈ sts ->
  exists sv0 r, P sv0 /\ best_total p sv0 s actions sentinel = Ok r /\
                sv' !! s = Some r.
Proof.
  induction sts as [| s0 sts IH]; intros Hstep sv sv' HP Hrun Hin.
  - by apply elem_of_nil in Hin.
  - cbn [sweep] in Hrun.
    destruct (best_total p sv s0 actions sentinel) as [r0 |] eqn:Hr0;
      cbn [rbind] in Hrun; [| done].
    destruct (decide (s ∈ sts)) as [Hin' | Hnin].
    + eapply IH; [| | exact Hrun | exact Hin'].
      * intros sv1 s1 r1 HP1 Hin1. apply Hstep; [done | by right].
      * eapply Hstep; [done | by left | done].
    + destruct (proj1 (elem_of_cons _ _ _) Hin) as [-> | Hin']; [| done].
      exists sv, r0. split; [done |]. split; [done |].
      rewrite (sweep_untouched _ _ _ _ _ Hrun Hnin). by rewrite lookup_insert_eq.
Qed.

Lemma sweeps_last (p : planner) (sts : list state) (n : nat) :
  forall sv sv', sweeps p (S n) sts sv = Ok sv' ->
  exists sv1, sweeps p n sts sv = Ok sv1 /\ sweep p sts sv1 = Ok sv'.
Proof.
  induction n as [| n IH]; intros sv sv' Hrun.
  - cbn [sweeps] in Hrun.
    destruct (sweep p sts sv) as [sv1 |] eqn:H1; cbn [rbind] in Hrun; [| done].
    injection Hrun as <-. by exists sv.
  - change (sweeps p (S (S n)) sts sv)
      with (sv1 <-- sweep p sts sv ;; sweeps p (S n) sts sv1) in Hrun.
    destruct (sweep p sts sv) as [sv1 |] eqn:H1; cbn [rbind] in Hrun; [| done].
    destruct (IH _ _ Hrun) as (sv2 & H2 & Hlast). exists sv2.
    split; [| done]. cbn [sweeps]. rewrite H1. done.
Qed.

Lemma well_formed_far : well_formed dspa_far.
Proof. apply well_formed_maze. Qed.

(** The middle of the maze of [dspa_far] is free. *)
Lemma far_free (a b : R) :
  (3 <= a <= 7)%R -> (3 <= b <= 7)%R -> collision_checker dspa_far a b = Ok false.
Proof.
  intros Ha Hb.
  assert (forall c : R, (3 <= c <= 7)%R ->
            60 <= int_trunc (c / (5 / 100)) <= 140) as Hidx.
  { intros c Hc. split.
    - apply int_trunc_ge; [lia | simpl; lra].
    - apply le_IZR.
      pose proof (int_trunc_le (c / (5 / 100)) ltac:(lra)). simpl. lra. }
  pose proof (Hidx a Ha) as Hia. pose proof (Hidx b Hb) as Hib.
  unfold collision_checker.
  change (resolution dspa_far) with (5 / 100)%R.
  change (world_height dspa_far) with 200.
  change (world_width dspa_far) with 200.
  change (aug_map dspa_far) with maze_map.
  replace ((int_trunc (b / (5 / 100)) <=? 0)
           || (int_trunc (b / (5 / 100)) >=? 200)
           || (int_trunc (a / (5 / 100)) <=? 0)
           || (int_trunc (a / (5 / 100)) >=? 200)) with false by lia.
  destruct (np_get_inside maze_map 200 200 (int_trunc (b / (5 / 100)))
              (int_trunc (a / (5 / 100))) shape_maze_map)
    as (v & Hv & ->); [lia | lia |].
  rewrite maze_cell_free in Hv by lia. by injection Hv as <-.
Qed.

(** From (5, 5) every action leads to a state of the free middle. *)
Lemma far_successor (theta : Z) (v w : R) :
  (w = 0%R /\ (Rabs v <= 1)%R) \/
  ((w * PI / 2)%R <> 0%R /\ (Rabs (v / (w * PI / 2)) <= 1)%R) ->
  exists s', discrete_motion_predict dspa_far 5 5 theta v w = Ok (Some s') /\
             in_state_space dspa_far s' /\ interior dspa_far s'.
Proof.
  intros Hcase.
  assert (forall a b, (Rabs (a - IZR 5) <= 2)%R -> (Rabs (b - IZR 5) <= 2)%R ->
            collision_checker dspa_far a b = Ok false) as Hfree.
  { intros a b Ha Hb. apply Rabs_le_inv' in Ha, Hb. apply far_free; lra. }
  assert (exists x2 y2 theta2,
            discrete_motion_predict dspa_far 5 5 theta v w
            = Ok (Some (py_round x2, py_round y2,
                        py_round (theta2 / (PI / 2)) mod 4)) /\
            (Rabs (x2 - IZR 5) <= 2)%R /\ (Rabs (y2 - IZR 5) <= 2)%R)
    as (x2 & y2 & theta2 & Hrun & Hx & Hy).
  { destruct Hcase as [[-> Hv] | [Hw Hk]].
    - by apply discrete_straight.
    - by apply discrete_arc. }
  apply Rabs_le_inv' in Hx, Hy.
  assert (3 <= py_round x2 <= 7) as Hrx by (apply py_round_between; simpl; lra).
  assert (3 <= py_round y2 <= 7) as Hry by (apply py_round_between; simpl; lra).
  eexists. split; [exact Hrun |]. split.
  - apply state_space_maze.
    split; [lia |]. split; [lia |]. apply Z.mod_pos_bound. lia.
  - unfold interior. apply far_free.
    + split; [apply (IZR_le 3) | apply (IZR_le _ 7)]; lia.
    + split; [apply (IZR_le 3) | apply (IZR_le _ 7)]; lia.
Qed.

(** Every state of [dspa_far] is more than 10^10 - 10 from the goal. *)
Lemma far_distance (x y : Z) :
  0 <= x <= 10 ->
  (10000000000 - 10 <= d_from_goal (goal dspa_far) (IZR x) (IZR y))%R.
Proof.
  intros Hx. unfold d_from_goal. simpl fst. simpl snd.
  assert (0 <= IZR x <= 10)%R as Hx'.
  { split; [apply (IZR_le 0) | apply (IZR_le _ 10)]; lia. }
  set (g := (10000000000 - IZR x)%R).
  assert (g * g <= (IZR x - 10000000000) ^ 2 + (IZR y - 0) ^ 2)%R as Hsq.
  { unfold g. simpl. nra. }
  apply sqrt_le_1_alt in Hsq. rewrite sqrt_square in Hsq by (unfold g; lra).
  unfold g in Hsq. lra.
Qed.

(** The rewards of [dspa_far]: never positive, and at most the initial
    maximum -10000000 in the interior. *)
Lemma far_reward (s : state) (c : R) :
  in_state_space dspa_far s ->
  get_current_state_value dspa_far s = Ok c ->
  (c <= 0)%R /\ (interior dspa_far s -> (c <= sentinel)%R).
Proof.
  intros Hs. destruct s as [[x y] theta].
  apply state_space_maze in Hs as (Hx & Hy & _).
  pose proof (far_distance x y Hx) as Hd.
  unfold get_current_state_value, interior.
  destruct (collision_checker dspa_far (IZR x) (IZR y)) as [hit |];
    cbn [rbind]; [| done].
  destruct hit.
  - intros [= <-]. unfold crash_penalty. split; [lra | done].
  - unfold check_goal. destruct (Rlt_dec _ _) as [Hlt | _]; [lra |].
    intros [= <-].
    unfold distance_penalty_normalization, sentinel. simpl in Hd |- *.
    set (d := d_from_goal _ (IZR x) (IZR y)) in *.
    split; [lra |]. intros _. lra.
Qed.

Lemma far_contributed (sv : gmap state R) (v : R) :
  values_between sv -> contributed sv v -> (v <= 0)%R.
Proof.
  intros Hsv [-> | [k Hk]]; [unfold crash_penalty; lra |].
  by apply (Hsv k v).
Qed.

(** What a sweep of [dspa_far] writes. *)
Lemma far_step (sv : gmap state R) (s : state) (r : R) :
  values_between sv -> s ∈ states dspa_far ->
  best_total dspa_far sv s actions sentinel = Ok r ->
  (sentinel <= r <= 0)%R /\ (interior dspa_far s -> r = sentinel).
Proof.
  intros Hsv Hs Hr. apply elem_of_states in Hs.
  apply best_total_spec in Hr as (Hge & _ & Hex).
  destruct Hex as [-> | (a & c & q & _ & Hc & Hq & ->)].
  - unfold sentinel. split; [lra | done].
  - apply (far_reward s c Hs) in Hc as [Hc0 Hci].
    assert (q <= 0)%R as Hq0.
    { apply next_state_value_shape in Hq
        as [Hq | (v1 & v2 & v3 & H1 & H2 & H3 & ->)].
      - by eapply far_contributed.
      - apply (far_contributed sv) in H1, H2, H3; try done. lra. }
    split; [lra |]. intros Hint. specialize (Hci Hint). lra.
Qed.

Lemma far_step_between (sv : gmap state R) (s : state) (r : R) :
  values_between sv -> s ∈ states dspa_far ->
  best_total dspa_far sv s actions sentinel = Ok r ->
  values_between (<[s := r]> sv).
Proof.
  intros Hsv Hs Hr s' v Hlook.
  apply lookup_insert_Some in Hlook as [[<- <-] | [_ Hlook]];
    [| by eapply Hsv].
  by apply (far_step sv s r Hsv Hs Hr).
Qed.

(** After the sweeps the interior states hold the initial maximum. *)
Lemma far_values (sv : gmap state R) (table : action_table) (s : state) :
  generate_plan dspa_far = Ok (sv, table) ->
  in_state_space dspa_far s -> interior dspa_far s ->
  sv !! s = Some sentinel.
Proof.
  intros Hrun Hs Hint. apply generate_plan_inv in Hrun as [Hsw _].
  change (steps dspa_far) with (S 199) in Hsw.
  apply sweeps_last in Hsw as (sv1 & Hsw & Hlast).
  assert (values_between sv1) as Hsv1.
  { eapply (sweeps_inv dspa_far values_between); [| | exact Hsw].
    - intros sv0 s0 r0. apply far_step_between.
    - intros s0 v Hlook. apply init_values_lookup in Hlook as [-> _].
      unfold sentinel. lra. }
  destruct (sweep_written dspa_far values_between (states dspa_far) s)
    with (sv := sv1) (sv' := sv) as (sv0 & r & Hsv0 & Hr & Hlook);
    [intros sv0 s0 r0; apply far_step_between | done | done
    | by apply elem_of_states |].
  rewrite Hlook. f_equal.
  apply (far_step sv0 s r Hsv0); [by apply elem_of_states | done | done].
Qed.

(** The next-state value of every action of state (5, 5, 0) is the
    initial maximum. *)
Lemma far_next_values (sv : gmap state R) (table : action_table) (a : action) :
  generate_plan dspa_far = Ok (sv, table) -> a ∈ actions ->
  next_state_value dspa_far sv (5, 5, 0) a = Ok sentinel.
Proof.
  intros Hrun Ha.
  assert (forall v w,
            (w = 0%R /\ (Rabs v <= 1)%R) \/
            ((w * PI / 2)%R <> 0%R /\ (Rabs (v / (w * PI / 2)) <= 1)%R) ->
            exists ns, discrete_motion_predict dspa_far 5 5 0 v w = Ok ns /\
                       get_next_state_value sv ns = Ok sentinel) as Hnext.
  { intros v w Hcase.
    destruct (far_successor 0 v w Hcase) as (s' & Hs' & Hin & Hint).
    exists (Some s'). split; [done |]. unfold get_next_state_value.
    by rewrite (far_values sv table s' Hrun Hin Hint). }
  pose proof PI_RGT_0 as Hpi.
  assert (forall w : R, (Rabs (0 / (w * PI / 2)) <= 1)%R) as Hk0.
  { intros w. unfold Rdiv at 1. rewrite Rmult_0_l, Rabs_R0. lra. }
  unfold actions in Ha.
  apply elem_of_cons in Ha as [-> | Ha]; [| apply elem_of_cons in Ha
    as [-> | Ha]; [| apply list_elem_of_singleton in Ha as ->]].
  - unfold next_state_value, FORWARD. rewrite bool_decide_eq_false_2
      by (intros [? | ?]; done).
    unfold get_forward_action_value.
    destruct (Hnext 1%R 0%R) as (ns1 & -> & H1).
    { left. split; [done |]. rewrite Rabs_R1. lra. }
    cbn [rbind]. rewrite H1. cbn [rbind].
    destruct (Hnext (PI / 2)%R 1%R) as (ns2 & -> & H2).
    { right. split; [lra |].
      replace (PI / 2 / (1 * PI / 2))%R with 1%R by (field; lra).
      rewrite Rabs_R1. lra. }
    cbn [rbind]. rewrite H2. cbn [rbind].
    destruct (Hnext (PI / 2)%R (-1)%R) as (ns3 & -> & H3).
    { right. split; [lra |].
      replace (PI / 2 / (-1 * PI / 2))%R with (-1)%R by (field; lra).
      apply Rabs_le. lra. }
    cbn [rbind]. rewrite H3. cbn [rbind].
    f_equal. unfold sentinel. lra.
  - unfold next_state_value, TURN_LEFT. rewrite bool_decide_eq_true_2
      by (by left).
    destruct (Hnext (IZR 0) (IZR 1)) as (ns & -> & H1).
    { right. split; [simpl; lra | apply Hk0]. }
    cbn [rbind]. exact H1.
  - unfold next_state_value, TURN_RIGHT. rewrite bool_decide_eq_true_2
      by (by right).
    destruct (Hnext (IZR 0) (IZR (-1))) as (ns & -> & H1).
    { right. split; [simpl; lra | apply Hk0]. }
    cbn [rbind]. exact H1.
Qed.


Lemma far_state : in_state_space dspa_far (5, 5, 0).
Proof. apply state_space_maze. lia. Qed.

(** The entry of state (5, 5, 0) is [None]. *)
Lemma far_entry (sv : gmap state R) (table : action_table) :
  generate_plan dspa_far = Ok (sv, table) ->
  table !! state_key (5, 5, 0) = Some None.
Proof.
  intros Hrun.
  destruct (plan_entry dspa_far sv table (5, 5, 0) Hrun far_state)
    as (r & Hr & He).
  rewrite He. f_equal.
  apply best_action_spec in Hr as (_ & _ & [-> | (a & Ha & Hq & _ & Hlt)]);
    [done |].
  rewrite (far_next_values sv table a Hrun Ha) in Hq.
  injection Hq as Hq. cbn [fst] in Hlt. lra.
Qed.

(** C9 fails as stated.  In the standard maze without obstacles and
    with the goal at (10^10, 0), [generate_plan] returns and the key
    "5,5,0" of the in-range state (5, 5, 0) is mapped to [None]: the
    executor is handed [None] for it. *)
Lemma C9_counterexample :
  exists sv table,
    generate_plan dspa_far = Ok (sv, table) /\
    in_state_space dspa_far (5, 5, 0) /\
    table !! "5,5,0"%string = Some None /\
    executor_lookup table (5, 5, 0) = Ok None.
Proof.
  destruct (generate_plan_ok dspa_far well_formed_far) as (sv & table & Hrun).
  exists sv, table. split; [done |]. split; [exact far_state |].
  pose proof (far_entry sv table Hrun) as He.
  assert (state_key (5, 5, 0) = "5,5,0"%string) as Hkey
    by (vm_compute; reflexivity).
  split; [by rewrite <- Hkey |]. unfold executor_lookup. by rewrite He.
Qed.

(** C8 fails as stated.  In the same world the three actions of state
    (5, 5, 0) all have the next-state value -10000000, the maximum, and
    the extraction records none of them. *)
Lemma C8_counterexample :
  exists sv table,
    generate_plan dspa_far = Ok (sv, table) /\
    in_state_space dspa_far (5, 5, 0) /\
    (forall a, a ∈ actions ->
       next_state_value dspa_far sv (5, 5, 0) a = Ok sentinel) /\
    ~ exists a, table !! state_key (5, 5, 0) = Some (Some a).
Proof.
  destruct (generate_plan_ok dspa_far well_formed_far) as (sv & table & Hrun).
  exists sv, table. split; [done |]. split; [exact far_state |]. split.
  - intros a Ha. by apply (far_next_values sv table).
  - intros [a Ha]. rewrite (far_entry sv table Hrun) in Ha. done.
Qed.

End FarGoal.

(** ** Dumped keys are not state keys *)

Section DumpedKeys.
Import DSPA Dump KeyAux.

Lemma count_commas_free (s : string) : comma_free s -> count_commas s = 0%nat.
Proof.
  induction s as [| c s IH]; [done |]. intros [Hc Hs]. simpl.
  rewrite IH by done. destruct (Ascii.eqb_spec c ","); [done | lia].
Qed.

Lemma count_commas_app (a b : string) :
  count_commas (a +:+ b) = (count_commas a + count_commas b)%nat.
Proof.
  induction a as [| c a IH].
  - by rewrite append_nil_l.
  - rewrite append_cons. simpl. rewrite IH. lia.
Qed.

Lemma count_commas_length (s : string) :
  (count_commas s <= String.length s)%nat.
Proof.
  induction s as [| c s IH]; simpl; [lia |]. destruct (Ascii.eqb c ","); lia.
Qed.

Lemma count_commas_state_key (s : state) : count_commas (state_key s) = 2%nat.
Proof.
  destruct s as [[x y] theta]. unfold state_key.
  rewrite !count_commas_app.
  rewrite (count_commas_free (pretty x)), (count_commas_free (pretty y)),
    (count_commas_free (pretty (theta mod 4)))
    by apply pretty_Z_comma_free.
  reflexivity.
Qed.

(** [dump_key] puts a comma between every two characters. *)
Lemma count_commas_dump_key (k : string) :
  count_commas (dump_key k)
  = (count_commas k + Nat.pred (String.length k))%nat.
Proof.
  unfold dump_key. induction k as [| c k IH]; [done |].
  destruct k as [| d k].
  - simpl. lia.
  - change (join_chars (list_ascii_of_string (String c (String d k))))
      with (String c (String "," (join_chars (list_ascii_of_string (String d k))))).
    cbn [count_commas]. rewrite IH. simpl. lia.
Qed.

Lemma dump_key_not_state_key (s s' : state) :
  state_key s <> dump_key (state_key s').
Proof.
  intros Heq. apply (f_equal count_commas) in Heq.
  rewrite count_commas_dump_key, !count_commas_state_key in Heq.
  pose proof (count_commas_length (state_key s')) as Hlen.
  rewrite count_commas_state_key in Hlen. lia.
Qed.

(** No lookup of the executor succeeds on the reloaded dump of a table
    whose keys are state keys. *)
Lemma dump_loses_state_keys (table : action_table) (s : state) :
  (forall k, is_Some (table !! k) -> exists s', k = state_key s') ->
  executor_lookup (reload (dump_action_table table)) s = Raise KeyError.
Proof.
  intros Hkeys. unfold executor_lookup, reload, dump_action_table.
  assert (kmap dump_key table !! state_key s = None) as ->; [| done].
  rewrite (lookup_kmap_None dump_key). intros k Hk.
  destruct (table !! k) as [e |] eqn:He; [| done]. exfalso.
  destruct (Hkeys k) as [s' ->]; [by rewrite He |].
  by apply (dump_key_not_state_key s s').
Qed.

(** In particular on the dump of the table of any plan. *)
Lemma dump_loses_plan (p : planner) (sv : gmap state R) (table : action_table)
    (s : state) :
  generate_plan p = Ok (sv, table) ->
  executor_lookup (reload (dump_action_table table)) s = Raise KeyError.
Proof.
  intros Hrun. apply dump_loses_state_keys. intros k [e He].
  apply generate_plan_inv in Hrun as [_ Hext].
  apply extract_spec in Hext as [Hfrom _].
  destruct (Hfrom k e He) as [He' | (s' & r & _ & -> & _)].
  - by rewrite lookup_empty in He'.
  - by exists s'.
Qed.

End DumpedKeys.

(** ** More on obstacle inflation *)

Section InflationExtras.
Import Num Grid Aux Inflation FrameAux MapStats.

Lemma int_trunc_mono (x y : R) : (x <= y)%R -> int_trunc x <= int_trunc y.
Proof.
  intros Hxy. unfold int_trunc.
  destruct (Rle_dec 0 x) as [Hx | Hx], (Rle_dec 0 y) as [Hy | Hy]; try lra.
  - by apply Zfloor_le.
  - pose proof (Zceil_bound x) as [Hlo Hhi].
    assert (IZR (Zceil x) < IZR 1)%R as Hlt by (simpl; lra).
    apply lt_IZR in Hlt.
    assert (0 <= Zfloor y); [| lia]. apply Zfloor_lub. simpl. lra.
  - by apply Zceil_le.
Qed.

(** Inside the grid, the cells occupied after inflation are those
    occupied before and those marked. *)
Lemma occupied_inflate_iff (pb h w : Z) (raw : grid) (r c : Z) :
  shape raw h w -> 0 <= r < h -> 0 <= c < w ->
  occupied (inflate pb h w raw) r c <-> occupied raw r c \/ marked pb h w raw r c.
Proof.
  intros Hshape Hr Hc. unfold occupied. rewrite cell_inflate.
  destruct (cell_in_shape raw h w r c Hshape Hr Hc) as [v Hv]. rewrite Hv.
  pose proof (hit_marked pb h w raw r c Hr Hc) as Hiff.
  destruct (existsb _ _); simpl.
  - split; [intros _; right; by apply Hiff | done].
  - split; [by left |]. intros [H | H]; [done |]. apply Hiff in H. done.
Qed.

Lemma occupied_in_shape (g : grid) (h w r c : Z) :
  shape g h w -> occupied g r c -> 0 <= r < h /\ 0 <= c < w.
Proof.
  intros Hshape Hocc.
  destruct (decide (0 <= r < h /\ 0 <= c < w)) as [? | Hout]; [done |].
  unfold occupied in Hocc. by rewrite (cell_out_of_shape g h w) in Hocc.
Qed.

(** A larger buffer marks at least the same cells. *)
Lemma marked_mono (pb pb' h w : Z) (raw : grid) (r c : Z) :
  pb <= pb' -> marked pb h w raw r c -> marked pb' h w raw r c.
Proof.
  intros Hpb (i & ii & Hi & Hii & Htrig & Hr & Hc).
  exists i, ii. repeat split; try done; lia.
Qed.

(** The frame of an inflated map is occupied. *)
Lemma frame_occupied (pb h w : Z) (raw : grid) (r c : Z) :
  shape raw h w -> 1 <= pb -> 0 <= r < h -> 0 <= c < w ->
  in_frame pb h w r c -> occupied (inflate pb h w raw) r c.
Proof.
  intros Hshape Hpb Hr Hc Hframe.
  apply occupied_inflate_iff; [done.. |]. right. unfold marked, trigger.
  destruct Hframe as [H | [H | [H | H]]].
  - exists 0, c. repeat split; lia.
  - exists (h - 1), c. repeat split; lia.
  - exists r, 0. repeat split; lia.
  - exists r, (w - 1). repeat split; lia.
Qed.



(** X2.  A larger inflation ratio never frees a cell: at a positive
    resolution, every cell occupied in the map inflated with the smaller
    ratio is occupied in the map inflated with the larger one. *)
Theorem inflation_ratio_monotone (data : list Z) (h w : Z)
    (resolution ratio ratio' : R) (aug aug' : grid) :
  (0 < resolution)%R -> (ratio <= ratio')%R ->
  map_callback data h w resolution ratio = Ok aug ->
  map_callback data h w resolution ratio' = Ok aug' ->
  forall r c, occupied aug r c -> occupied aug' r c.
Proof.
  intros Hres Hratio Haug Haug' r c Hocc. unfold map_callback in Haug, Haug'.
  destruct (reshape data h w) as [raw |] eqn:Hraw; cbn [rbind] in *; [| done].
  destruct (Req_dec_T resolution 0) as [Hz | _]; [done |].
  injection Haug as <-. injection Haug' as <-.
  pose proof (reshape_shape _ _ _ _ Hraw) as Hshape.
  destruct (occupied_in_shape _ h w r c (shape_inflate _ _ _ _ Hshape) Hocc)
    as [Hr Hc].
  apply occupied_inflate_iff in Hocc; [| done..].
  apply occupied_inflate_iff; [done.. |].
  destruct Hocc as [Hocc | Hm]; [by left | right].
  eapply marked_mono; [| exact Hm].
  unfold pixel_buffer. apply int_trunc_mono.
  assert (0 < ROBOT_SIZE / resolution)%R.
  { unfold ROBOT_SIZE. apply Rdiv_lt_0_compat; lra. }
  nra.
Qed.

Lemma inflation_ratio_monotone_witness :
  exists aug aug',
    (0 < 25 / 100)%R /\ (1 <= 2)%R /\
    map_callback one_obstacle_data 7 7 (25 / 100) 1 = Ok aug /\
    map_callback one_obstacle_data 7 7 (25 / 100) 2 = Ok aug' /\
    forall r c, occupied aug r c -> occupied aug' r c.
Proof.
  assert (forall ratio, map_callback one_obstacle_data 7 7 (25 / 100) ratio
          = Ok (inflate (pixel_buffer (25 / 100) ratio) 7 7 one_obstacle))
    as Hrun.
  { intros ratio. unfold map_callback. rewrite reshape_one_obstacle.
    cbn [rbind]. destruct (Req_dec_T (25 / 100) 0) as [Hz | _]; [lra | done]. }
  eexists _, _. split; [lra |]. split; [lra |].
  split; [apply Hrun |]. split; [apply Hrun |].
  apply (inflation_ratio_monotone one_obstacle_data 7 7 (25 / 100) 1 2);
    [lra | lra | apply Hrun | apply Hrun].
Defined.

(** X3.  Adding obstacles to the raw map never frees a cell of the
    inflated map. *)
Theorem inflation_map_monotone (pb h w : Z) (raw raw' : grid) :
  shape raw h w -> shape raw' h w ->
  (forall r c, occupied raw r c -> occupied raw' r c) ->
  forall r c, occupied (inflate pb h w raw) r c ->
              occupied (inflate pb h w raw') r c.
Proof.
  intros Hshape Hshape' Hsub r c Hocc.
  destruct (occupied_in_shape _ h w r c (shape_inflate _ _ _ _ Hshape) Hocc)
    as [Hr Hc].
  apply occupied_inflate_iff in Hocc; [| done..].
  apply occupied_inflate_iff; [done.. |].
  destruct Hocc as [Hocc | (i & ii & Hi & Hii & Htrig & Hrw & Hcw)];
    [left; by apply Hsub | right].
  exists i, ii. repeat split; try lia.
  unfold trigger in *.
  destruct (decide (cell raw i ii = Some 100)) as [Hcell | Hcell].
  - apply Hsub in Hcell. unfold occupied in Hcell.
    by rewrite bool_decide_eq_true_2.
  - rewrite bool_decide_eq_false_2 in Htrig by done. simpl in Htrig.
    destruct (bool_decide (cell raw' i ii = Some 100)); [done | exact Htrig].
Qed.

Lemma inflation_map_monotone_witness :
  (forall r c, occupied (free_grid 7 7) r c -> occupied one_obstacle r c) /\
  (forall r c, occupied (inflate 1 7 7 (free_grid 7 7)) r c ->
               occupied (inflate 1 7 7 one_obstacle) r c).
Proof.
  assert (forall r c, occupied (free_grid 7 7) r c -> occupied one_obstacle r c)
    as Hsub.
  { intros r c Hocc. unfold occupied in Hocc.
    by apply cell_free_grid in Hocc. }
  split; [exact Hsub |].
  apply (inflation_map_monotone 1 7 7 (free_grid 7 7) one_obstacle
           (shape_free_grid 7 7) shape_one_obstacle Hsub).
Defined.

(** X4.  With a buffer of at least one cell the inflated map is
    occupied on the whole frame that the border cells reach ([pb] rows
    and columns at the top and the left, [pb + 1] at the bottom and the
    right), whatever the raw map holds; when the raw map has no occupied
    cell, the inflated map is occupied nowhere else. *)
Theorem inflation_frame (pb h w : Z) (raw : grid) (r c : Z) :
  shape raw h w -> 1 <= pb -> 0 <= r < h -> 0 <= c < w ->
  (in_frame pb h w r c -> occupied (inflate pb h w raw) r c) /\
  ((forall i ii, ~ occupied raw i ii) ->
   occupied (inflate pb h w raw) r c -> in_frame pb h w r c).
Proof.
  intros Hshape Hpb Hr Hc. split; [by apply frame_occupied |].
  intros Hfree Hocc. apply occupied_inflate_iff in Hocc; [| done..].
  destruct Hocc as [Hocc | (i & ii & Hi & Hii & Htrig & Hrw & Hcw)].
  - by apply Hfree in Hocc.
  - unfold trigger in Htrig.
    rewrite bool_decide_eq_false_2 in Htrig by apply Hfree.
    unfold in_frame. simpl in Htrig. lia.
Qed.

Lemma inflation_frame_witness :
  (in_frame 1 7 7 0 3 -> occupied (inflate 1 7 7 (free_grid 7 7)) 0 3) /\
  ((forall i ii, ~ occupied (free_grid 7 7) i ii) ->
   occupied (inflate 1 7 7 (free_grid 7 7)) 0 3 -> in_frame 1 7 7 0 3).
Proof.
  apply (inflation_frame 1 7 7 (free_grid 7 7) 0 3); try lia.
  apply (shape_free_grid 7 7).
Defined.

Lemma map_values_fold (l : list Z) (v : Z) :
  forall acc : gmap Z Z,
  fold_left
    (fun mv value =>
       match mv !! value with
       | Some n => <[value := n + 1]> mv
       | None => <[value := 1]> mv
       end) l acc !! v
  = match acc !! v with
    | Some n => Some (n + Z.of_nat (count_occ Z.eq_dec l v))
    | None => if decide (v ∈ l)
              then Some (Z.of_nat (count_occ Z.eq_dec l v)) else None
    end.
Proof.
  induction l as [| x l IH]; intros acc.
  - simpl. destruct (acc !! v) as [n |]; [f_equal; lia |].
    destruct (decide (v ∈ [])) as [Hin | _]; [| done].
    by apply elem_of_nil in Hin.
  - cbn [fold_left]. rewrite IH. cbn [count_occ].
    destruct (Z.eq_dec x v) as [-> | Hne].
    + destruct (decide (v ∈ v :: l)) as [_ | Hnin];
        [| exfalso; apply Hnin; by left].
      destruct (acc !! v) as [n |] eqn:Hacc;
        rewrite lookup_insert_eq; f_equal; lia.
    + assert ((match acc !! x with
               | Some n => <[x := n + 1]> acc
               | None => <[x := 1]> acc
               end) !! v = acc !! v) as ->
        by (destruct (acc !! x); by rewrite lookup_insert_ne).
      destruct (acc !! v) as [n |]; [done |].
      destruct (decide (v ∈ l)) as [Hin | Hnin],
               (decide (v ∈ x :: l)) as [Hin' | Hnin']; try done.
      * exfalso. apply Hnin'. by right.
      * exfalso. apply elem_of_cons in Hin' as [-> | Hin']; done.
Qed.

(** X5.  The histogram that [map_callback] builds and prints maps every
    value of the map data to the number of its occurrences, and holds no
    other key. *)
Theorem map_values_count (data : list Z) (v : Z) :
  map_values data !! v
  = if decide (v ∈ data) then Some (Z.of_nat (count_occ Z.eq_dec data v))
    else None.
Proof. unfold map_values. by rewrite map_values_fold, lookup_empty. Qed.

End InflationExtras.

(** ** The two collision checkers compared *)

Section CheckerExtras.
Import Num Grid Aux Inflation FrameAux Motion Examples MdpAux CheckerAux.


Lemma maze_map_eq : maze_map = inflate 10 200 200 (free_grid 200 200).
Proof. reflexivity. Qed.


End CheckerExtras.


(** ** The trajectories of the motion model *)

Section WaypointFacts.
Import Num Grid Aux Motion Trajectory.

(** Equality of results that carry poses, componentwise. *)
Ltac pose_eq :=
  repeat match goal with
         | |- Ok _ = Ok _ => f_equal
         | |- Some _ = Some _ => f_equal
         | |- (_, _) = (_, _) => f_equal
         end.

(** One sub-step checks the first waypoint and moves there. *)
Lemma substep_waypoint (cc : R -> R -> result bool) (v w frequency : R)
    (p : pose) :
  substep cc v w frequency p
  = (hit <-- at_waypoint cc v w frequency p 1 ;;
     if hit : bool then Ok None else Ok (Some (waypoint v w frequency p 1))).
Proof.
  destruct p as [[x y] theta]. unfold substep, at_waypoint, waypoint.
  replace (theta + INR 1 * (w / frequency))%R with (theta + w / frequency)%R
    by (simpl; lra).
  destruct (Req_dec_T w 0) as [Hw | Hw].
  - replace (x + INR 1 * (v * cos theta / frequency))%R
      with (x + v * cos theta / frequency)%R by (simpl; lra).
    replace (y + INR 1 * (v * sin theta / frequency))%R
      with (y + v * sin theta / frequency)%R by (simpl; lra).
    done.
  - replace (x + (- v / w * sin theta + v / w * sin (theta + w / frequency)))%R
      with (x + v / w * (sin (theta + w / frequency) - sin theta))%R
      by (unfold Rdiv; ring).
    replace (y + (v / w * cos theta - v / w * cos (theta + w / frequency)))%R
      with (y - v / w * (cos (theta + w / frequency) - cos theta))%R
      by (unfold Rdiv; ring).
    done.
Qed.

(** The waypoints from the first waypoint are the later waypoints. *)
Lemma waypoint_shift (v w frequency : R) (p : pose) (k : nat) :
  waypoint v w frequency (waypoint v w frequency p 1) k
  = waypoint v w frequency p (S k).
Proof.
  destruct p as [[x y] theta]. unfold waypoint.
  destruct (Req_dec_T w 0) as [Hw | Hw].
  - replace (theta + INR 1 * (w / frequency))%R with theta
      by (rewrite Hw; unfold Rdiv; ring).
    pose_eq; rewrite ?S_INR; simpl; rewrite ?Hw; unfold Rdiv; ring.
  - replace (theta + INR 1 * (w / frequency) + INR k * (w / frequency))%R
      with (theta + INR (S k) * (w / frequency))%R
      by (rewrite S_INR; simpl; ring).
    pose_eq; ring.
Qed.

Lemma at_waypoint_shift (cc : R -> R -> result bool) (v w frequency : R)
    (p : pose) (k : nat) :
  at_waypoint cc v w frequency (waypoint v w frequency p 1) k
  = at_waypoint cc v w frequency p (S k).
Proof. unfold at_waypoint. by rewrite waypoint_shift. Qed.

Lemma waypoint_0 (v w frequency : R) (p : pose) : waypoint v w frequency p 0 = p.
Proof.
  destruct p as [[x y] theta]. unfold waypoint.
  replace (theta + INR 0 * (w / frequency))%R with theta by (simpl; ring).
  destruct (Req_dec_T w 0); pose_eq; simpl; ring.
Qed.

(** The sub-steps return a pose exactly when every waypoint passes the
    checker, and the pose is the last waypoint. *)
Lemma substeps_Some (cc : R -> R -> result bool) (v w frequency : R) (n : nat) :
  forall p q : pose,
  substeps cc n v w frequency p = Ok (Some q) <->
  (forall k : nat, (1 <= k <= n)%nat ->
     at_waypoint cc v w frequency p k = Ok false) /\
  q = waypoint v w frequency p n.
Proof.
  induction n as [| n IH]; intros p q.
  - cbn [substeps]. rewrite waypoint_0. split.
    + intros [= <-]. split; [intros k Hk; lia | done].
    + intros [_ ->]. done.
  - cbn [substeps]. rewrite substep_waypoint. split.
    + intros Hrun.
      destruct (at_waypoint cc v w frequency p 1) as [hit |] eqn:H1;
        cbn [rbind] in Hrun; [| done].
      destruct hit; cbn [rbind] in Hrun; [done |].
      apply IH in Hrun as [Hfree ->]. split; [| apply waypoint_shift].
      intros k Hk. destruct k as [| k]; [lia |].
      destruct k as [| k]; [done |].
      rewrite <- at_waypoint_shift. apply Hfree. lia.
    + intros [Hfree ->]. rewrite (Hfree 1%nat) by lia. cbn [rbind].
      apply IH. split; [| by rewrite waypoint_shift].
      intros k Hk. rewrite at_waypoint_shift. apply Hfree. lia.
Qed.

(** The first waypoint that does not pass the checker decides: a
    collision makes the sub-steps return [None], an exception of the
    checker propagates. *)
Lemma substeps_stop (cc : R -> R -> result bool) (v w frequency : R) (n : nat) :
  forall (p : pose) (k : nat),
  (1 <= k <= n)%nat ->
  (forall j : nat, (1 <= j < k)%nat ->
     at_waypoint cc v w frequency p j = Ok false) ->
  at_waypoint cc v w frequency p k <> Ok false ->
  substeps cc n v w frequency p
  = (hit <-- at_waypoint cc v w frequency p k ;; Ok None).
Proof.
  induction n as [| n IH]; intros p k Hk Hfree Hstop; [lia |].
  cbn [substeps]. rewrite substep_waypoint.
  destruct (decide (k = 1%nat)) as [-> | Hne].
  - destruct (at_waypoint cc v w frequency p 1) as [[|] |]; done.
  - rewrite (Hfree 1%nat) by lia. cbn [rbind].
    destruct k as [| k]; [lia |].
    rewrite <- at_waypoint_shift. apply IH; [lia | |].
    + intros j Hj. rewrite at_waypoint_shift. apply Hfree. lia.
    + by rewrite at_waypoint_shift.
Qed.

End WaypointFacts.

Section MotionExtras.
Import Num Grid Aux Motion Trajectory.

Ltac pose_eq :=
  repeat match goal with
         | |- Ok _ = Ok _ => f_equal
         | |- Some _ = Some _ => f_equal
         | |- (_, _) = (_, _) => f_equal
         end.

Lemma waypoint_add (v w frequency : R) (p : pose) (m k : nat) :
  waypoint v w frequency (waypoint v w frequency p m) k
  = waypoint v w frequency p (m + k).
Proof.
  revert p. induction m as [| m IH]; intros p.
  - by rewrite waypoint_0.
  - change (S m + k)%nat with (S (m + k)).
    rewrite <- (waypoint_shift v w frequency p (m + k)),
            <- (waypoint_shift v w frequency p m).
    apply IH.
Qed.

(** [motion_predict] with the default [dt] and [frequency] in terms of
    the waypoints. *)
Lemma motion_predict_Some (cc : R -> R -> result bool) (x y theta v w : R)
    (q : pose) :
  Motion.motion_predict cc x y theta v w dt_default frequency_default
  = Ok (Some q) <->
  (forall k : nat, (1 <= k <= 5)%nat ->
     at_waypoint cc v w 10 (x, y, theta) k = Ok false) /\
  q = waypoint v w 10 (x, y, theta) 5.
Proof.
  unfold Motion.motion_predict. rewrite num_steps_default.
  unfold frequency_default. apply substeps_Some.
Qed.

(** The same for [discrete_motion_predict]: ten waypoints, and the
    rounding of the last one. *)
Lemma discrete_motion_predict_Some (cc : R -> R -> result bool)
    (x y theta : Z) (v w : R) (s' : Z * Z * Z) :
  Motion.discrete_motion_predict cc x y theta v w = Ok (Some s') <->
  (forall k : nat, (1 <= k <= 10)%nat ->
     at_waypoint cc v (w * PI / 2) 10
       (IZR x, IZR y, (IZR theta * PI / 2)%R) k = Ok false) /\
  s' = (let '(x2, y2, theta2) :=
          waypoint v (w * PI / 2) 10 (IZR x, IZR y, (IZR theta * PI / 2)%R) 10
        in (py_round x2, py_round y2, py_round (theta2 / (PI / 2)) mod 4)).
Proof.
  unfold Motion.discrete_motion_predict.
  set (p0 := (IZR x, IZR y, (IZR theta * PI / 2)%R)).
  set (w' := (w * PI / 2)%R).
  split.
  - intros Hrun.
    destruct (Motion.motion_predict cc (IZR x) (IZR y) (IZR theta * PI / 2)
                v w' dt_default frequency_default)
      as [[[[x1 y1] theta1] |] |] eqn:H1; cbn [rbind] in Hrun; try done.
    destruct (Motion.motion_predict cc x1 y1 theta1 v w' dt_default
                frequency_default)
      as [[[[x2 y2] theta2] |] |] eqn:H2; cbn [rbind] in Hrun; try done.
    injection Hrun as <-.
    apply motion_predict_Some in H1 as [Hfree1 Hq1].
    apply motion_predict_Some in H2 as [Hfree2 Hq2].
    fold p0 in Hfree1, Hq1. rewrite Hq1 in Hfree2, Hq2.
    rewrite waypoint_add in Hq2. change (5 + 5)%nat with 10%nat in Hq2.
    rewrite <- Hq2.
    split; [| done]. intros k Hk.
    destruct (decide (k <= 5)%nat) as [Hle | Hgt]; [apply Hfree1; lia |].
    specialize (Hfree2 (k - 5)%nat ltac:(lia)).
    unfold at_waypoint in Hfree2. rewrite waypoint_add in Hfree2.
    replace (5 + (k - 5))%nat with k in Hfree2 by lia. exact Hfree2.
  - intros [Hfree ->].
    assert (Motion.motion_predict cc (IZR x) (IZR y) (IZR theta * PI / 2)
              v w' dt_default frequency_default
            = Ok (Some (waypoint v w' 10 p0 5))) as ->.
    { apply motion_predict_Some. split; [| done].
      intros k Hk. apply Hfree. lia. }
    cbn [rbind].
    destruct (waypoint v w' 10 p0 5) as [[x1 y1] theta1] eqn:Hq1.
    assert (Motion.motion_predict cc x1 y1 theta1 v w' dt_default
              frequency_default
            = Ok (Some (waypoint v w' 10 p0 10))) as ->.
    { apply motion_predict_Some. split.
      - intros k Hk. unfold at_waypoint. rewrite <- Hq1, waypoint_add.
        apply (Hfree (5 + k)%nat). lia.
      - by rewrite <- Hq1, waypoint_add. }
    cbn [rbind]. by destruct (waypoint v w' 10 p0 10) as [[x2 y2] theta2].
Qed.

(** X10.  The first waypoint that does not pass the collision checker
    decides the result of [motion_predict]: [None] for a collision, and an
    exception of the checker propagates. *)
Theorem motion_predict_first_collision (cc : R -> R -> result bool)
    (x y theta v w : R) (k : nat) :
  (1 <= k <= 5)%nat ->
  (forall j : nat, (1 <= j < k)%nat ->
     at_waypoint cc v w frequency_default (x, y, theta) j = Ok false) ->
  (at_waypoint cc v w frequency_default (x, y, theta) k = Ok true ->
   Motion.motion_predict cc x y theta v w dt_default frequency_default
   = Ok None) /\
  (forall e, at_waypoint cc v w frequency_default (x, y, theta) k = Raise e ->
   Motion.motion_predict cc x y theta v w dt_default frequency_default
   = Raise e).
Proof.
  intros Hk Hfree. unfold Motion.motion_predict. rewrite num_steps_default.
  split.
  - intros Hhit.
    rewrite (substeps_stop cc v w frequency_default 5 (x, y, theta) k Hk Hfree)
      by (by rewrite Hhit).
    by rewrite Hhit.
  - intros e Hraise.
    rewrite (substeps_stop cc v w frequency_default 5 (x, y, theta) k Hk Hfree)
      by (by rewrite Hraise).
    by rewrite Hraise.
Qed.

End MotionExtras.

(** ** How far the robot moves *)

Section TrigFacts.
Import Num Motion Trajectory.

Lemma sin_sq_le (t : R) : (sin t * sin t <= t * t)%R.
Proof.
  pose proof (SIN_bound t) as [Hlo Hhi]. pose proof PI2_1 as Hpi.
  destruct (Rle_dec 1 t) as [H1 | H1]; [nra |].
  destruct (Rle_dec t (-1)) as [H2 | H2]; [nra |].
  destruct (Rtotal_order t 0) as [Hneg | [-> | Hpos]].
  - pose proof (sin_gt_x t Hneg) as Hgt.
    assert (sin t < 0)%R by (apply sin_lt_0_var; lra). nra.
  - rewrite sin_0. lra.
  - pose proof (sin_lt_x t Hpos) as Hlt.
    assert (0 < sin t)%R by (apply sin_gt_0; lra). nra.
Qed.

Lemma cos_lower (t : R) : (1 - t * t / 2 <= cos t)%R.
Proof.
  replace t with (2 * (t / 2))%R at 3 by field.
  rewrite cos_2a_sin. pose proof (sin_sq_le (t / 2)). nra.
Qed.

(** The squared chord between two points of the unit circle. *)
Lemma chord_sq (theta phi : R) :
  ((sin (theta + phi) - sin theta) * (sin (theta + phi) - sin theta)
   + (cos (theta + phi) - cos theta) * (cos (theta + phi) - cos theta))%R
  = (2 - 2 * cos phi)%R.
Proof.
  rewrite sin_plus, cos_plus.
  pose proof (sin2_cos2 theta) as Ht. pose proof (sin2_cos2 phi) as Hp.
  unfold Rsqr in Ht, Hp.
  replace ((sin theta * cos phi + cos theta * sin phi - sin theta)
           * (sin theta * cos phi + cos theta * sin phi - sin theta)
           + (cos theta * cos phi - sin theta * sin phi - cos theta)
             * (cos theta * cos phi - sin theta * sin phi - cos theta))%R
    with ((sin theta * sin theta + cos theta * cos theta)
          * ((cos phi - 1) * (cos phi - 1) + sin phi * sin phi))%R by ring.
  rewrite Ht.
  replace ((cos phi - 1) * (cos phi - 1) + sin phi * sin phi)%R
    with (sin phi * sin phi + cos phi * cos phi + 1 - 2 * cos phi)%R by ring.
  rewrite Hp. ring.
Qed.

(** The robot moves no farther than its speed allows: the [k]-th
    waypoint lies within [|v| * k / frequency] of the start. *)
Lemma waypoint_displacement (v w frequency x y theta : R) (k : nat) :
  frequency <> 0%R ->
  let '(x', y', _) := waypoint v w frequency (x, y, theta) k in
  ((x' - x) * (x' - x) + (y' - y) * (y' - y)
   <= (v * INR k / frequency) * (v * INR k / frequency))%R.
Proof.
  intros Hf. unfold waypoint. destruct (Req_dec_T w 0) as [Hw | Hw].
  - pose proof (sin2_cos2 theta) as Ht. unfold Rsqr in Ht.
    replace ((x + INR k * (v * cos theta / frequency) - x)
             * (x + INR k * (v * cos theta / frequency) - x)
             + (y + INR k * (v * sin theta / frequency) - y)
               * (y + INR k * (v * sin theta / frequency) - y))%R
      with ((v * INR k / frequency) * (v * INR k / frequency)
            * (sin theta * sin theta + cos theta * cos theta))%R
      by (field; done).
    rewrite Ht. lra.
  - set (phi := (INR k * (w / frequency))%R).
    replace ((x + v / w * (sin (theta + phi) - sin theta) - x)
             * (x + v / w * (sin (theta + phi) - sin theta) - x)
             + (y - v / w * (cos (theta + phi) - cos theta) - y)
               * (y - v / w * (cos (theta + phi) - cos theta) - y))%R
      with ((v / w) * (v / w)
            * ((sin (theta + phi) - sin theta) * (sin (theta + phi) - sin theta)
               + (cos (theta + phi) - cos theta)
                 * (cos (theta + phi) - cos theta)))%R by ring.
    rewrite chord_sq.
    replace ((v * INR k / frequency) * (v * INR k / frequency))%R
      with ((v / w) * (v / w) * (phi * phi))%R by (unfold phi; field; done).
    apply Rmult_le_compat_l; [nra |].
    pose proof (cos_lower phi). lra.
Qed.

End TrigFacts.

(** ** The standard maze without obstacles *)

Section MazeFacts.
Import Num Grid Aux Inflation FrameAux Motion Trajectory Examples MdpAux.

Lemma maze_index (c : R) :
  (1 / 2 <= c < 945 / 100)%R -> 10 <= int_trunc (c / (5 / 100)) <= 188.
Proof.
  intros Hc. split.
  - apply int_trunc_ge; [lia | simpl; lra].
  - assert (int_trunc (c / (5 / 100)) < 189); [| lia].
    apply lt_IZR.
    pose proof (int_trunc_le (c / (5 / 100)) ltac:(lra)). simpl. lra.
Qed.

(** The standard maze without obstacles is free from half a unit inside
    its lower left corner to 9.45 units. *)
Lemma csda_maze_free_wide (x y : R) :
  (1 / 2 <= x < 945 / 100)%R -> (1 / 2 <= y < 945 / 100)%R ->
  CSDA.collision_checker csda_maze x y = Ok false.
Proof.
  intros Hx Hy. unfold CSDA.collision_checker.
  cbn [csda_maze CSDA.resolution CSDA.aug_map].
  pose proof (maze_index x Hx) as Hix. pose proof (maze_index y Hy) as Hiy.
  destruct (np_get_inside maze_map 200 200 (int_trunc (y / (5 / 100)))
              (int_trunc (x / (5 / 100))) shape_maze_map)
    as (v & Hv & ->); [lia | lia |].
  rewrite maze_cell_free in Hv by lia. by injection Hv as <-.
Qed.

Lemma dspa_maze_free (g : R * R) (x y : R) :
  (1 / 2 <= x < 945 / 100)%R -> (1 / 2 <= y < 945 / 100)%R ->
  DSPA.collision_checker (dspa_maze g) x y = Ok false.
Proof.
  intros Hx Hy. unfold DSPA.collision_checker.
  cbn [dspa_maze DSPA.resolution DSPA.aug_map DSPA.world_width
       DSPA.world_height].
  pose proof (maze_index x Hx) as Hix. pose proof (maze_index y Hy) as Hiy.
  replace ((int_trunc (y / (5 / 100)) <=? 0)
           || (int_trunc (y / (5 / 100)) >=? 200)
           || (int_trunc (x / (5 / 100)) <=? 0)
           || (int_trunc (x / (5 / 100)) >=? 200)) with false by lia.
  destruct (np_get_inside maze_map 200 200 (int_trunc (y / (5 / 100)))
              (int_trunc (x / (5 / 100))) shape_maze_map)
    as (v & Hv & ->); [lia | lia |].
  rewrite maze_cell_free in Hv by lia. by injection Hv as <-.
Qed.

(** Its inflated border is hit half a cell inside the free part. *)
Lemma dspa_maze_hit (g : R * R) :
  DSPA.collision_checker (dspa_maze g) (4 / 10) 5 = Ok true.
Proof.
  unfold DSPA.collision_checker.
  cbn [dspa_maze DSPA.resolution DSPA.aug_map DSPA.world_width
       DSPA.world_height].
  replace (int_trunc (5 / (5 / 100))) with 100
    by (symmetry; apply int_trunc_eq; [lia | simpl; lra]).
  replace (int_trunc (4 / 10 / (5 / 100))) with 8
    by (symmetry; apply int_trunc_eq; [lia | simpl; lra]).
  cbn [Z.leb Z.geb Z.compare Pos.compare Pos.compare_cont orb].
  destruct (np_get_inside maze_map 200 200 100 8 shape_maze_map)
    as (v & Hv & ->); [lia | lia |].
  assert (occupied maze_map 100 8) as Hocc.
  { rewrite maze_map_eq. apply frame_occupied; try lia.
    - apply (shape_free_grid 200 200).
    - unfold in_frame. lia. }
  unfold occupied in Hocc. rewrite Hv in Hocc. by injection Hocc as ->.
Qed.

(** From (0.6, 5) heading west in the standard maze, the first waypoint
    is free and the second is a collision. *)
Lemma first_collision_example :
  at_waypoint (DSPA.collision_checker dspa_near) 1 0 frequency_default
    ((6 / 10)%R, 5%R, PI) 2 = Ok true.
Proof.
  unfold at_waypoint, waypoint, frequency_default.
  destruct (Req_dec_T 0 0) as [_ | Hne]; [| lra].
  rewrite cos_PI, sin_PI.
  replace (6 / 10 + INR 2 * (1 * -1 / 10))%R with (4 / 10)%R by (simpl; lra).
  replace (5 + INR 2 * (1 * 0 / 10))%R with 5%R by (simpl; lra).
  apply dspa_maze_hit.
Qed.

Lemma first_collision_free (j : nat) :
  (1 <= j < 2)%nat ->
  at_waypoint (DSPA.collision_checker dspa_near) 1 0 frequency_default
    ((6 / 10)%R, 5%R, PI) j = Ok false.
Proof.
  intros Hj. assert (j = 1%nat) as -> by lia.
  unfold at_waypoint, waypoint, frequency_default.
  destruct (Req_dec_T 0 0) as [_ | Hne]; [| lra].
  rewrite cos_PI, sin_PI. apply dspa_maze_free; simpl; lra.
Qed.

Lemma motion_predict_first_collision_witness :
  Motion.motion_predict (DSPA.collision_checker dspa_near) (6 / 10) 5 PI 1 0
    dt_default frequency_default = Ok None.
Proof.
  apply (proj1 (motion_predict_first_collision
                  (DSPA.collision_checker dspa_near) (6 / 10) 5 PI 1 0 2
                  ltac:(lia) first_collision_free)).
  exact first_collision_example.
Defined.

End MazeFacts.

(** ** The moves of the discrete planner *)

Section DiscreteMoves.
Import Num Grid Aux Motion Trajectory Examples MdpAux DSPA PlanAux.

Ltac pose_eq :=
  repeat match goal with
         | |- Ok _ = Ok _ => f_equal
         | |- Some _ = Some _ => f_equal
         | |- (_, _) = (_, _) => f_equal
         end.

Lemma quarter_turns (n : Z) : (IZR n * PI / 2 / (PI / 2))%R = IZR n.
Proof. pose proof PI_neq0. field. done. Qed.

Lemma INR_bounds (k n : nat) : (k <= n)%nat -> (0 <= INR k <= INR n)%R.
Proof. intros Hk. split; [apply pos_INR | by apply le_INR]. Qed.

Lemma IZR_unit (c : Z) : -1 <= c <= 1 -> (-1 <= IZR c <= 1)%R.
Proof. intros [Hlo Hhi]. split; [apply (IZR_le (-1)) | apply (IZR_le _ 1)]; lia. Qed.

(** A turn without linear velocity keeps every waypoint on the spot. *)
Lemma waypoint_turn (w frequency x y theta : R) (k : nat) :
  w <> 0%R ->
  waypoint 0 w frequency (x, y, theta) k
  = (x, y, (theta + INR k * (w / frequency))%R).
Proof.
  intros Hw. unfold waypoint. destruct (Req_dec_T w 0) as [Hw0 | _]; [done |].
  pose_eq; unfold Rdiv; ring.
Qed.

(** X11.  TURN_LEFT and TURN_RIGHT in place, at a non-zero resolution:
    [discrete_motion_predict] with no linear velocity and a non-zero
    integer turn [w] keeps the position and adds [w] to the heading,
    modulo 4, when the position of the state passes the collision
    checker; it returns [None] when the position is in collision. *)
Theorem turn_in_place (p : planner) (x y theta w : Z) :
  resolution p <> 0%R -> w <> 0 ->
  (collision_checker p (IZR x) (IZR y) = Ok false ->
   discrete_motion_predict p x y theta 0 (IZR w)
   = Ok (Some (x, y, (theta + w) mod 4))) /\
  (collision_checker p (IZR x) (IZR y) = Ok true ->
   discrete_motion_predict p x y theta 0 (IZR w) = Ok None).
Proof.
  intros _ Hw.
  assert ((IZR w * PI / 2)%R <> 0%R) as Hw'.
  { pose proof PI_neq0 as Hpi.
    assert (IZR w <> 0%R) as Hwr by (by apply not_0_IZR).
    unfold Rdiv. intros Hz.
    apply Rmult_integral in Hz as [Hz | Hz]; [| lra].
    apply Rmult_integral in Hz as [Hz | Hz]; done. }
  unfold discrete_motion_predict. split; intros Hcc.
  - apply discrete_motion_predict_Some. split.
    + intros k Hk. unfold at_waypoint. by rewrite waypoint_turn.
    + rewrite waypoint_turn by done. rewrite !py_round_IZR. do 2 f_equal.
      replace ((IZR theta * PI / 2 + INR 10 * (IZR w * PI / 2 / 10))
               / (PI / 2))%R with (IZR (theta + w)).
      * by rewrite py_round_IZR.
      * rewrite plus_IZR. pose proof PI_neq0. simpl. field. done.
  - unfold Motion.discrete_motion_predict, Motion.motion_predict.
    rewrite num_steps_default.
    rewrite (substeps_stop _ _ _ _ 5 _ 1%nat); [| lia | intros j Hj; lia |].
    + unfold at_waypoint. rewrite waypoint_turn by done. by rewrite Hcc.
    + unfold at_waypoint. rewrite waypoint_turn by done. by rewrite Hcc.
Qed.

Lemma turn_in_place_witness :
  discrete_motion_predict dspa_near 5 5 3 0 (IZR 1)
  = Ok (Some (5, 5, (3 + 1) mod 4)).
Proof.
  assert (resolution dspa_near <> 0%R) as Hres
    by (cbn [dspa_near dspa_maze resolution]; lra).
  apply (proj1 (turn_in_place dspa_near 5 5 3 1 Hres ltac:(lia))).
  apply dspa_maze_free; simpl; lra.
Defined.

(** The cosine and the sine of the four headings. *)
Lemma heading_cos_sin (theta : Z) :
  0 <= theta < 4 ->
  cos (IZR theta * PI / 2) = IZR (fst (heading_vector theta)) /\
  sin (IZR theta * PI / 2) = IZR (snd (heading_vector theta)).
Proof.
  intros Ht.
  assert (theta = 0 \/ theta = 1 \/ theta = 2 \/ theta = 3)
    as [-> | [-> | [-> | ->]]] by lia; cbn [heading_vector Z.eqb fst snd].
  - replace (0 * PI / 2)%R with 0%R by (unfold Rdiv; ring).
    by rewrite cos_0, sin_0.
  - replace (1 * PI / 2)%R with (PI / 2)%R by (unfold Rdiv; ring).
    by rewrite cos_PI2, sin_PI2.
  - replace (2 * PI / 2)%R with PI by (unfold Rdiv; field).
    by rewrite cos_PI, sin_PI.
  - replace (3 * PI / 2)%R with (3 * (PI / 2))%R by (unfold Rdiv; ring).
    by rewrite cos_3PI2, sin_3PI2.
Qed.

Lemma heading_vector_unit (theta : Z) :
  -1 <= fst (heading_vector theta) <= 1 /\
  -1 <= snd (heading_vector theta) <= 1.
Proof. unfold heading_vector. repeat case_match; simpl; lia. Qed.

(** The last of the ten waypoints of a straight move and of a quarter
    circle of radius one, from a lattice point with a heading whose
    cosine [c] and sine [s] are integers. *)
Lemma straight_last (x y theta c s : Z) :
  cos (IZR theta * PI / 2) = IZR c -> sin (IZR theta * PI / 2) = IZR s ->
  waypoint 1 (0 * PI / 2) 10 (IZR x, IZR y, (IZR theta * PI / 2)%R) 10
  = (IZR (x + c), IZR (y + s), (IZR theta * PI / 2)%R).
Proof.
  intros Hcos Hsin. unfold waypoint.
  destruct (Req_dec_T (0 * PI / 2) 0) as [_ | Hne];
    [| exfalso; apply Hne; unfold Rdiv; ring].
  rewrite Hcos, Hsin, !plus_IZR. pose_eq; simpl; field.
Qed.

Lemma quarter_last (x y theta c s w : Z) :
  cos (IZR theta * PI / 2) = IZR c -> sin (IZR theta * PI / 2) = IZR s ->
  w = 1 \/ w = -1 ->
  waypoint (PI / 2) (IZR w * PI / 2) 10
    (IZR x, IZR y, (IZR theta * PI / 2)%R) 10
  = (IZR (x + c - w * s), IZR (y + s + w * c),
     (IZR (theta + w) * PI / 2)%R).
Proof.
  intros Hcos Hsin Hw. pose proof PI_neq0 as Hpi.
  assert (IZR w = 1%R \/ IZR w = (-1)%R) as Hw'
    by (destruct Hw as [-> | ->]; [by left | by right]).
  assert ((PI / 2 / (IZR w * PI / 2))%R = IZR w) as Hk
    by (destruct Hw' as [-> | ->]; field; done).
  unfold waypoint.
  destruct (Req_dec_T (IZR w * PI / 2) 0) as [Hw0 | _].
  { exfalso. pose proof PI2_RGT_0. destruct Hw' as [Hw1 | Hw1];
      rewrite Hw1 in Hw0; lra. }
  rewrite Hk.
  replace (IZR theta * PI / 2 + INR 10 * (IZR w * PI / 2 / 10))%R
    with (IZR theta * PI / 2 + IZR w * (PI / 2))%R by (simpl; field).
  rewrite sin_plus, cos_plus, Hcos, Hsin.
  assert (cos (IZR w * (PI / 2)) = 0%R /\ sin (IZR w * (PI / 2)) = IZR w)
    as [-> ->].
  { destruct Hw' as [-> | ->].
    - rewrite Rmult_1_l. by rewrite cos_PI2, sin_PI2.
    - replace (-1 * (PI / 2))%R with (- (PI / 2))%R by ring.
      rewrite cos_neg, sin_neg, cos_PI2, sin_PI2. done. }
  rewrite minus_IZR, !plus_IZR, !mult_IZR.
  pose_eq; destruct Hw' as [-> | ->]; field.
Qed.

Section Outcomes.
Variable cc : R -> R -> result bool.
Variables x y theta c s : Z.
Hypothesis Hcos : cos (IZR theta * PI / 2) = IZR c.
Hypothesis Hsin : sin (IZR theta * PI / 2) = IZR s.
Hypothesis Hc : -1 <= c <= 1.
Hypothesis Hs : -1 <= s <= 1.
Hypothesis Hfree :
  forall a b, (Rabs (a - IZR x) <= 2)%R -> (Rabs (b - IZR y) <= 2)%R ->
              cc a b = Ok false.

(** The outcome of the control [(1, 0)]: one unit along the heading. *)
Lemma straight_outcome :
  Motion.discrete_motion_predict cc x y theta 1 0
  = Ok (Some (x + c, y + s, theta mod 4)).
Proof.
  pose proof (IZR_unit c Hc) as Hc'. pose proof (IZR_unit s Hs) as Hs'.
  apply discrete_motion_predict_Some. split.
  - intros k Hk. unfold at_waypoint, waypoint.
    destruct (Req_dec_T (0 * PI / 2) 0) as [_ | Hne];
      [| exfalso; apply Hne; unfold Rdiv; ring].
    rewrite Hcos, Hsin.
    pose proof (INR_bounds k 10 ltac:(lia)) as Hk'. simpl INR in Hk'.
    apply Hfree; apply Rabs_le; nra.
  - rewrite (straight_last x y theta c s Hcos Hsin).
    by rewrite quarter_turns, !py_round_IZR.
Qed.

(** The outcome of the control [(pi / 2, w)] for [w] one of 1 and -1: a
    quarter of a circle of radius 1. *)
Lemma quarter_outcome (w : Z) :
  w = 1 \/ w = -1 ->
  Motion.discrete_motion_predict cc x y theta (PI / 2) (IZR w)
  = Ok (Some (x + c - w * s, y + s + w * c, (theta + w) mod 4)).
Proof.
  intros Hw.
  pose proof (IZR_unit c Hc) as Hc'. pose proof (IZR_unit s Hs) as Hs'.
  pose proof PI_neq0 as Hpi.
  assert (IZR w = 1%R \/ IZR w = (-1)%R) as Hw'
    by (destruct Hw as [-> | ->]; [by left | by right]).
  assert ((PI / 2 / (IZR w * PI / 2))%R = IZR w) as Hk
    by (destruct Hw' as [-> | ->]; field; done).
  apply discrete_motion_predict_Some. split.
  - intros k _. unfold at_waypoint, waypoint.
    destruct (Req_dec_T (IZR w * PI / 2) 0) as [Hw0 | _].
    { exfalso. pose proof PI2_RGT_0. destruct Hw' as [Hw1 | Hw1];
        rewrite Hw1 in Hw0; lra. }
    rewrite Hk, Hcos, Hsin.
    match goal with
    | |- context [(sin ?t - _)%R] =>
        generalize (SIN_bound t) (COS_bound t); generalize (sin t) (cos t)
    end.
    intros st ct Hst Hct.
    apply Hfree; apply Rabs_le; destruct Hw' as [-> | ->]; lra.
  - rewrite (quarter_last x y theta c s w Hcos Hsin Hw).
    by rewrite quarter_turns, !py_round_IZR.
Qed.

End Outcomes.

(** X12.  The three outcomes that [get_forward_action_value] weighs for
    FORWARD from a state with heading [theta], at a non-zero resolution
    and where no position within two units of the state is in
    collision: the straight move of one unit along the heading (weight
    0.9), and the two quarter circles of radius one, which end one unit
    ahead and one unit to the left with the heading turned left, or to
    the right with the heading turned right (weight 0.05 each). *)
Theorem forward_outcomes (p : planner) (x y theta : Z) :
  resolution p <> 0%R ->
  0 <= theta < 4 ->
  (forall a b, (Rabs (a - IZR x) <= 2)%R -> (Rabs (b - IZR y) <= 2)%R ->
               collision_checker p a b = Ok false) ->
  discrete_motion_predict p x y theta 1 0
  = Ok (Some (x + fst (heading_vector theta),
              y + snd (heading_vector theta), theta)) /\
  discrete_motion_predict p x y theta (PI / 2) 1
  = Ok (Some (x + fst (heading_vector theta) - snd (heading_vector theta),
              y + snd (heading_vector theta) + fst (heading_vector theta),
              (theta + 1) mod 4)) /\
  discrete_motion_predict p x y theta (PI / 2) (-1)
  = Ok (Some (x + fst (heading_vector theta) + snd (heading_vector theta),
              y + snd (heading_vector theta) - fst (heading_vector theta),
              (theta - 1) mod 4)).
Proof.
  intros _ Ht Hfree. destruct (heading_cos_sin theta Ht) as [Hcos Hsin].
  destruct (heading_vector_unit theta) as [Hc Hs].
  set (c := fst (heading_vector theta)) in *.
  set (s := snd (heading_vector theta)) in *.
  unfold discrete_motion_predict. split; [| split].
  - rewrite (straight_outcome _ x y theta c s); try done.
    by rewrite Z.mod_small.
  - rewrite (quarter_outcome _ x y theta c s Hcos Hsin Hc Hs Hfree 1)
      by (by left).
    do 3 f_equal; f_equal; lia.
  - rewrite (quarter_outcome _ x y theta c s Hcos Hsin Hc Hs Hfree (-1))
      by (by right).
    do 3 f_equal; f_equal; lia.
Qed.

Lemma dspa_maze_region (g : R * R) (a b : R) :
  (Rabs (a - IZR 5) <= 2)%R -> (Rabs (b - IZR 5) <= 2)%R ->
  collision_checker (dspa_maze g) a b = Ok false.
Proof.
  intros Ha Hb. apply Rabs_le_inv' in Ha, Hb.
  apply dspa_maze_free; lra.
Qed.

Lemma forward_outcomes_witness :
  discrete_motion_predict dspa_near 5 5 0 1 0
  = Ok (Some (5 + fst (heading_vector 0), 5 + snd (heading_vector 0), 0)) /\
  discrete_motion_predict dspa_near 5 5 0 (PI / 2) 1
  = Ok (Some (5 + fst (heading_vector 0) - snd (heading_vector 0),
              5 + snd (heading_vector 0) + fst (heading_vector 0),
              (0 + 1) mod 4)) /\
  discrete_motion_predict dspa_near 5 5 0 (PI / 2) (-1)
  = Ok (Some (5 + fst (heading_vector 0) + snd (heading_vector 0),
              5 + snd (heading_vector 0) - fst (heading_vector 0),
              (0 - 1) mod 4)).
Proof.
  apply (forward_outcomes dspa_near 5 5 0);
    [cbn [dspa_near dspa_maze resolution]; lra | lia |].
  apply dspa_maze_region.
Defined.

(** An integer position that passes the checker is a position of the
    state space. *)
Lemma interior_lattice (p : planner) (x y : Z) :
  usable p ->
  collision_checker p (IZR x) (IZR y) = Ok false ->
  0 <= x <= int_trunc (IZR (world_width p) * resolution p) /\
  0 <= y <= int_trunc (IZR (world_height p) * resolution p).
Proof.
  intros [Hshape Hres] Hfree.
  destruct (dspa_collision_checker_spec p (IZR x) (IZR y) Hshape)
    as (b & Hb & Hiff).
  rewrite Hfree in Hb. injection Hb as <-.
  set (iy := int_trunc (IZR y / resolution p)) in *.
  set (ix := int_trunc (IZR x / resolution p)) in *.
  assert (0 < iy < world_height p /\ 0 < ix < world_width p) as [Hiy Hix].
  { destruct (decide (0 < iy < world_height p /\ 0 < ix < world_width p));
      [done |].
    assert (false = true) as Habs; [| done]. apply Hiff. lia. }
  assert (forall (c n : Z), 0 < int_trunc (IZR c / resolution p) < n ->
            0 <= c <= int_trunc (IZR n * resolution p)) as Hbox.
  { intros c n [Hlo Hhi].
    pose proof (int_trunc_pos_bound _ Hlo) as [Hl Hu].
    assert (1 <= IZR (int_trunc (IZR c / resolution p)))%R as H1
      by (apply (IZR_le 1); lia).
    assert (IZR (int_trunc (IZR c / resolution p)) + 1 <= IZR n)%R as H2
      by (rewrite <- plus_IZR; apply IZR_le; lia).
    assert (IZR c = IZR c / resolution p * resolution p)%R as Hc
      by (field; lra).
    assert (0 < IZR c < IZR n * resolution p)%R as [Hc0 Hc1].
    { split.
      - rewrite Hc. apply Rmult_lt_0_compat; lra.
      - rewrite Hc at 1. apply Rmult_lt_compat_r; lra. }
    split.
    - apply lt_IZR in Hc0. lia.
    - rewrite int_trunc_nonneg by lra. apply Zfloor_lub. lra. }
  split; [by apply (Hbox x) | by apply (Hbox y)].
Qed.

(** A successor of a state of the state space under one of the controls
    of [generate_plan] is a state of the state space. *)
Lemma successor_in_space (p : planner) (x y theta : Z) (v w : R) (s' : state) :
  usable p -> in_state_space p (x, y, theta) -> control v w ->
  discrete_motion_predict p x y theta v w = Ok (Some s') ->
  in_state_space p s'.
Proof.
  intros Hp (Hx & Hy & Ht) Hctl Hrun.
  apply discrete_motion_predict_Some in Hrun as [Hfree ->].
  destruct (heading_cos_sin theta Ht) as [Hcos Hsin].
  set (c := fst (heading_vector theta)) in *.
  set (s := snd (heading_vector theta)) in *.
  specialize (Hfree 10%nat ltac:(lia)). unfold at_waypoint in Hfree.
  assert (forall X Y T : Z,
            collision_checker p (IZR X) (IZR Y) = Ok false ->
            in_state_space p
              (py_round (IZR X), py_round (IZR Y),
               py_round (IZR T * PI / 2 / (PI / 2)) mod 4)) as Hin.
  { intros X Y T Hcc. rewrite !py_round_IZR.
    destruct (interior_lattice p X Y Hp Hcc) as [HX HY].
    split; [done |]. split; [done |]. apply Z.mod_pos_bound. lia. }
  destruct Hctl as [[-> Hw] | [[-> ->] | [-> Hw]]].
  - assert ((w * PI / 2)%R <> 0%R) as Hw'.
    { pose proof PI2_RGT_0. destruct Hw as [-> | ->]; lra. }
    rewrite waypoint_turn in Hfree |- * by done.
    rewrite !py_round_IZR. split; [done |]. split; [done |].
    apply Z.mod_pos_bound. lia.
  - rewrite (straight_last x y theta c s Hcos Hsin) in Hfree |- *.
    by apply Hin.
  - assert (exists wz : Z, w = IZR wz /\ (wz = 1 \/ wz = -1)) as (wz & -> & Hwz).
    { destruct Hw as [-> | ->]; [exists 1 | exists (-1)]; split; auto. }
    rewrite (quarter_last x y theta c s wz Hcos Hsin Hwz) in Hfree |- *.
    by apply Hin.
Qed.

End DiscreteMoves.

(** ** Rewards, state values and the action table *)

Section RewardExtras.
Import Num Grid Aux Motion Trajectory Examples MdpAux DSPA.

(** On integer coordinates the goal test holds at the goal itself only:
    every other lattice point is at least one unit away. *)
Lemma check_goal_lattice (gx gy x y : Z) :
  check_goal (IZR gx, IZR gy) (IZR x) (IZR y) = true <-> x = gx /\ y = gy.
Proof.
  unfold check_goal, d_from_goal. cbn [fst snd].
  rewrite <- !minus_IZR. set (dx := x - gx). set (dy := y - gy).
  destruct (Rlt_dec _ _) as [Hlt | Hge].
  - split; [intros _ | done].
    destruct (decide (dx = 0 /\ dy = 0)) as [? | Hne]; [lia |].
    exfalso.
    assert (1 <= dx * dx + dy * dy) as Hsq by nia.
    apply IZR_le in Hsq. rewrite plus_IZR, !mult_IZR in Hsq.
    assert (1 <= IZR dx ^ 2 + IZR dy ^ 2)%R as Hsq' by (simpl; lra).
    apply sqrt_le_1_alt in Hsq'. rewrite sqrt_1 in Hsq'. lra.
  - split; [done |]. intros [Hx Hy]. exfalso. apply Hge.
    replace dx with 0 by lia. replace dy with 0 by lia.
    replace (0 ^ 2 + 0 ^ 2)%R with 0%R by (simpl; ring).
    rewrite sqrt_0. lra.
Qed.

Lemma d_from_goal_nonneg (g : R * R) (px py : R) : (0 <= d_from_goal g px py)%R.
Proof. unfold d_from_goal. apply sqrt_pos. Qed.

(** X13.  With an integer goal, as the [__main__] block parses it, the reward
    20 is given exactly at the states on the goal whose position passes
    the collision checker: a goal in collision is never rewarded. *)
Theorem goal_reward (p : planner) (gx gy x y theta : Z) :
  goal p = (IZR gx, IZR gy) ->
  (0 < distance_penalty_normalization p)%R ->
  get_current_state_value p (x, y, theta) = Ok 20%R <->
  collision_checker p (IZR x) (IZR y) = Ok false /\ x = gx /\ y = gy.
Proof.
  intros Hgoal Hnorm. unfold get_current_state_value. rewrite Hgoal.
  pose proof (check_goal_lattice gx gy x y) as Hcheck.
  destruct (collision_checker p (IZR x) (IZR y)) as [[|] |]; cbn [rbind].
  - split; [| by intros [? _]]. intros [= H]. unfold crash_penalty in H. lra.
  - destruct (check_goal _ _ _).
    + split; [intros _ | done]. split; [done |]. by apply Hcheck.
    + split.
      * intros [= H]. exfalso.
        pose proof (d_from_goal_nonneg (IZR gx, IZR gy) (IZR x) (IZR y)) as Hd.
        assert (0 <= d_from_goal (IZR gx, IZR gy) (IZR x) (IZR y)
                     / distance_penalty_normalization p)%R
          by (unfold Rdiv; apply Rle_mult_inv_pos; lra).
        lra.
      * intros [_ Hxy]. apply Hcheck in Hxy. done.
  - split; [done | by intros [? _]].
Qed.

Lemma goal_reward_witness :
  get_current_state_value dspa_near (1, 8, 0) = Ok 20%R <->
  collision_checker dspa_near (IZR 1) (IZR 8) = Ok false /\ 1 = 1 /\ 8 = 8.
Proof.
  apply (goal_reward dspa_near 1 8 1 8 0).
  - reflexivity.
  - unfold distance_penalty_normalization.
    cbn [dspa_near dspa_maze world_height world_width resolution]. lra.
Defined.

End RewardExtras.

Section PlanTotal.
Import Num Grid Aux Motion Trajectory Examples MdpAux DSPA PlanAux KeyAux.

Section Usable.
Variable p : planner.
Hypothesis Hp : usable p.

Lemma successor_value_ok (sv : gmap state R) (x y theta : Z) (v w : R) :
  covers p sv -> in_state_space p (x, y, theta) -> control v w ->
  exists ns q, discrete_motion_predict p x y theta v w = Ok ns /\
               get_next_state_value sv ns = Ok q.
Proof.
  intros Hcov Hs Hctl. pose proof Hp as [Hshape _].
  destruct (discrete_motion_predict_ok p x y theta v w Hshape) as [ns Hns].
  exists ns. destruct ns as [s' |].
  - pose proof (successor_in_space p _ _ _ _ _ _ Hp Hs Hctl Hns) as Hin.
    destruct (Hcov s' Hin) as [q Hq]. exists q. split; [done |].
    unfold get_next_state_value. by rewrite Hq.
  - by exists crash_penalty.
Qed.

Lemma action_value_ok (sv : gmap state R) (s : state) (a : action) :
  covers p sv -> in_state_space p s ->
  exists q, next_state_value p sv s a = Ok q.
Proof.
  intros Hcov Hs. unfold next_state_value. destruct s as [[x y] theta].
  case_bool_decide as Hturn.
  - destruct a as [v w].
    destruct (successor_value_ok sv x y theta (IZR v) (IZR w) Hcov Hs)
      as (ns & q & -> & Hq).
    { left. destruct Hturn as [[= -> ->] | [= -> ->]]; auto. }
    cbn [rbind]. by exists q.
  - unfold get_forward_action_value.
    destruct (successor_value_ok sv x y theta 1 0 Hcov Hs)
      as (ns1 & q1 & -> & Hq1); [right; left; done |].
    cbn [rbind]. rewrite Hq1. cbn [rbind].
    destruct (successor_value_ok sv x y theta (PI / 2) 1 Hcov Hs)
      as (ns2 & q2 & -> & Hq2); [right; right; auto |].
    cbn [rbind]. rewrite Hq2. cbn [rbind].
    destruct (successor_value_ok sv x y theta (PI / 2) (-1) Hcov Hs)
      as (ns3 & q3 & -> & Hq3); [right; right; auto |].
    cbn [rbind]. rewrite Hq3. cbn [rbind].
    by eexists.
Qed.

Lemma reward_ok (s : state) : exists c, get_current_state_value p s = Ok c.
Proof.
  pose proof Hp as [Hshape _]. unfold get_current_state_value.
  destruct s as [[x y] theta].
  destruct (dspa_collision_checker_ok p (IZR x) (IZR y) Hshape) as [b ->].
  cbn [rbind]. destruct b; [by eexists |].
  destruct (check_goal _ _ _); by eexists.
Qed.

Lemma state_update_ok (sv : gmap state R) (s : state) (acts : list action) :
  covers p sv -> in_state_space p s ->
  forall acc, exists r, best_total p sv s acts acc = Ok r.
Proof.
  intros Hcov Hs. induction acts as [| a acts IH]; intros acc.
  - by eexists.
  - cbn [best_total].
    destruct (reward_ok s) as [c ->]. cbn [rbind].
    destruct (action_value_ok sv s a Hcov Hs) as [q ->]. cbn [rbind].
    apply IH.
Qed.

Lemma sweep_total (sts : list state) :
  Forall (in_state_space p) sts ->
  forall sv, covers p sv ->
  exists sv', sweep p sts sv = Ok sv' /\ covers p sv'.
Proof.
  induction sts as [| s sts IH]; intros Hsts sv Hcov.
  - by exists sv.
  - cbn [sweep]. apply Forall_cons in Hsts as [Hs Hsts].
    destruct (state_update_ok sv s actions Hcov Hs sentinel) as [r ->].
    cbn [rbind]. apply IH; [done |]. by apply covers_insert.
Qed.

Lemma sweeps_total (sts : list state) (n : nat) :
  Forall (in_state_space p) sts ->
  forall sv, covers p sv ->
  exists sv', sweeps p n sts sv = Ok sv' /\ covers p sv'.
Proof.
  intros Hsts. induction n as [| n IH]; intros sv Hcov.
  - by exists sv.
  - cbn [sweeps].
    destruct (sweep_total sts Hsts sv Hcov) as (sv1 & -> & Hcov1).
    cbn [rbind]. by apply IH.
Qed.

Lemma entry_ok (sv : gmap state R) (s : state) (acts : list action) :
  covers p sv -> in_state_space p s ->
  forall acc, exists r, best_action p sv s acts acc = Ok r.
Proof.
  intros Hcov Hs. induction acts as [| a acts IH]; intros acc.
  - by eexists.
  - cbn [best_action].
    destruct (action_value_ok sv s a Hcov Hs) as [q ->]. cbn [rbind].
    apply IH.
Qed.

Lemma extract_total (sv : gmap state R) (sts : list state) :
  covers p sv -> Forall (in_state_space p) sts ->
  forall table : action_table, exists table', extract p sv sts table = Ok table'.
Proof.
  intros Hcov. induction sts as [| s sts IH]; intros Hsts table.
  - by eexists.
  - cbn [extract]. apply Forall_cons in Hsts as [Hs Hsts].
    destruct (entry_ok sv s actions Hcov Hs (sentinel, None)) as [r ->].
    cbn [rbind]. by apply IH.
Qed.

Lemma states_in_space : Forall (in_state_space p) (states p).
Proof. apply Forall_forall. intros s Hs. by apply elem_of_states. Qed.

Lemma generate_plan_returns :
  exists sv table, generate_plan p = Ok (sv, table).
Proof.
  unfold generate_plan.
  assert (covers p (init_values (states p))) as Hcov.
  { intros s Hs. by apply init_values_dom, elem_of_states. }
  destruct (sweeps_total (states p) (steps p) states_in_space _ Hcov)
    as (sv & -> & Hcov').
  cbn [rbind].
  destruct (extract_total sv (states p) Hcov' states_in_space ∅) as [table ->].
  cbn [rbind]. by exists sv, table.
Qed.

End Usable.

(** The keys of the two tables that [generate_plan] returns. *)
Lemma plan_domains (p : planner) (sv : gmap state R) (table : action_table) :
  generate_plan p = Ok (sv, table) ->
  (forall s, is_Some (sv !! s) <-> in_state_space p s) /\
  (forall k, is_Some (table !! k) <->
             exists s, in_state_space p s /\ k = state_key s).
Proof.
  intros Hrun. pose proof (generate_plan_inv _ _ _ Hrun) as [Hsw Hext].
  split.
  - intros s. split.
    + revert s.
      eapply (sweeps_inv p (fun sv => forall s, is_Some (sv !! s) ->
                                      in_state_space p s));
        [| | exact Hsw].
      * intros sv0 s0 r H0 Hin _ s Hs.
        apply lookup_insert_is_Some' in Hs as [<- | Hs];
          [by apply elem_of_states | by apply H0].
      * intros s [v Hv]. apply init_values_lookup in Hv as [_ Hin].
        by apply elem_of_states.
    + revert s.
      eapply (sweeps_inv p (covers p)); [| | exact Hsw].
      * intros sv0 s0 r H0 _ _. by apply covers_insert.
      * intros s Hs. by apply init_values_dom, elem_of_states.
  - apply extract_spec in Hext as [Hfrom Hdom]. intros k. split.
    + intros [e He].
      destruct (Hfrom k e He) as [He' | (s & r & Hs & -> & _)].
      * by rewrite lookup_empty in He'.
      * exists s. split; [by apply elem_of_states | done].
    + intros (s & Hs & ->). by apply Hdom, elem_of_states.
Qed.


End PlanTotal.

Section PlanExtras.
Import Num Grid Aux Motion Trajectory Examples Examples2 MdpAux DSPA PlanAux
  KeyAux Executor.

Lemma usable_com1 (g : R * R) : usable (dspa_com1 g).
Proof.
  split.
  - cbn [dspa_com1 aug_map world_height world_width]. unfold com1_map.
    apply shape_inflate, (shape_free_grid 983 2500).
  - cbn [dspa_com1 resolution]. lra.
Qed.


(** No reward exceeds 20. *)
Lemma reward_upper_bound (p : planner) (s : state) (c : R) :
  (0 < distance_penalty_normalization p)%R ->
  get_current_state_value p s = Ok c -> (c <= 20)%R.
Proof.
  intros Hnorm. unfold get_current_state_value. destruct s as [[x y] theta].
  destruct (collision_checker p (IZR x) (IZR y)) as [hit |];
    cbn [rbind]; [| done].
  destruct hit; [intros [= <-]; unfold crash_penalty; lra |].
  destruct (check_goal _ _ _); [intros [= <-]; lra |].
  intros [= <-].
  pose proof (d_from_goal_nonneg (goal p) (IZR x) (IZR y)) as Hd.
  assert (0 <= d_from_goal (goal p) (IZR x) (IZR y)
               / distance_penalty_normalization p)%R
    by (unfold Rdiv; apply Rle_mult_inv_pos; lra).
  lra.
Qed.

(** X15.  The state values stay between the initial value -10000000 of the
    running maximum of a sweep and 400 = 20 / (1 - 0.95), the value of
    collecting the reward 20 for ever. *)
Theorem state_values_bounded (p : planner) (sv : gmap state R)
    (table : action_table) :
  (0 < distance_penalty_normalization p)%R ->
  generate_plan p = Ok (sv, table) ->
  forall s v, sv !! s = Some v -> (sentinel <= v <= 400)%R.
Proof.
  intros Hnorm Hrun. apply generate_plan_inv in Hrun as [Hsw _].
  eapply (sweeps_inv p (fun sv => forall s v, sv !! s = Some v ->
                                  (sentinel <= v <= 400)%R));
    [| | exact Hsw].
  - intros sv0 s0 r H0 _ Hr s v Hlook.
    apply lookup_insert_Some in Hlook as [[<- <-] | [_ Hlook]];
      [| by eapply H0].
    apply best_total_spec in Hr as (Hge & _ & Hex). split; [done |].
    destruct Hex as [-> | (a & c & q & _ & Hc & Hq & ->)];
      [unfold sentinel; lra |].
    apply reward_upper_bound in Hc; [| done].
    assert (forall u, contributed sv0 u -> (u <= 400)%R) as Hcontr.
    { intros u [-> | [k Hk]]; [unfold crash_penalty; lra | by eapply H0]. }
    apply next_state_value_shape in Hq
      as [Hq | (v1 & v2 & v3 & H1 & H2 & H3 & ->)].
    + apply Hcontr in Hq. lra.
    + apply Hcontr in H1, H2, H3. lra.
  - intros s v Hlook. apply init_values_lookup in Hlook as [-> _].
    unfold sentinel. lra.
Qed.

Lemma state_values_bounded_witness :
  exists sv table,
    (0 < distance_penalty_normalization dspa_near)%R /\
    generate_plan dspa_near = Ok (sv, table) /\
    forall s v, sv !! s = Some v -> (sentinel <= v <= 400)%R.
Proof.
  destruct (generate_plan_ok dspa_near) as (sv & table & Hrun).
  { apply well_formed_maze. }
  assert (0 < distance_penalty_normalization dspa_near)%R as Hnorm.
  { unfold distance_penalty_normalization.
    cbn [dspa_near dspa_maze world_height world_width resolution]. lra. }
  exists sv, table. split; [exact Hnorm |]. split; [exact Hrun |].
  apply (state_values_bounded dspa_near sv table Hnorm Hrun).
Defined.

(** The extraction loop on the three actions, given their values. *)
Lemma best_action_three (p : planner) (sv : gmap state R) (s : state)
    (r : R * option action) :
  best_action p sv s actions (sentinel, None) = Ok r ->
  exists qF qL qR,
    next_state_value p sv s FORWARD = Ok qF /\
    next_state_value p sv s TURN_LEFT = Ok qL /\
    next_state_value p sv s TURN_RIGHT = Ok qR /\
    (snd r = Some FORWARD <->
     (sentinel < qF)%R /\ (qL <= qF)%R /\ (qR <= qF)%R) /\
    (snd r = Some TURN_LEFT <->
     (sentinel < qL)%R /\ (qF < qL)%R /\ (qR <= qL)%R) /\
    (snd r = Some TURN_RIGHT <->
     (sentinel < qR)%R /\ (qF < qR)%R /\ (qL < qR)%R) /\
    (snd r = None <->
     (qF <= sentinel)%R /\ (qL <= sentinel)%R /\ (qR <= sentinel)%R).
Proof.
  unfold actions. cbn [best_action]. intros Hrun.
  destruct (next_state_value p sv s FORWARD) as [qF |];
    cbn [rbind] in Hrun; [| done].
  destruct (next_state_value p sv s TURN_LEFT) as [qL |];
    cbn [rbind] in Hrun; [| done].
  destruct (next_state_value p sv s TURN_RIGHT) as [qR |];
    cbn [rbind] in Hrun; [| done].
  exists qF, qL, qR. split; [done |]. split; [done |]. split; [done |].
  injection Hrun as <-. cbn [fst].
  destruct (Rgt_dec qF sentinel) as [HF | HF];
    cbn [fst snd] in *;
    (destruct (Rgt_dec qL _) as [HL | HL]); cbn [fst snd] in *;
    (destruct (Rgt_dec qR _) as [HR | HR]); cbn [fst snd] in *;
    unfold FORWARD, TURN_LEFT, TURN_RIGHT;
    repeat split; intros; try done; try lra;
    repeat match goal with H : _ /\ _ |- _ => destruct H end; try lra.
Qed.

(** X16.  Ties between the actions go to the earlier one of FORWARD,
    TURN_LEFT, TURN_RIGHT: when [generate_plan] returns (at a non-zero
    resolution), the action table records FORWARD when its next-state
    value exceeds -10000000 and no other value is above it, TURN_LEFT
    only when its value is strictly above that of FORWARD, TURN_RIGHT
    only when its value is strictly above both others, and [None]
    exactly when no value exceeds -10000000. *)
Theorem extraction_tie_break (p : planner) (sv : gmap state R)
    (table : action_table) (s : state) :
  resolution p <> 0%R ->
  generate_plan p = Ok (sv, table) ->
  in_state_space p s ->
  exists qF qL qR,
    next_state_value p sv s FORWARD = Ok qF /\
    next_state_value p sv s TURN_LEFT = Ok qL /\
    next_state_value p sv s TURN_RIGHT = Ok qR /\
    (table !! state_key s = Some (Some FORWARD) <->
     (sentinel < qF)%R /\ (qL <= qF)%R /\ (qR <= qF)%R) /\
    (table !! state_key s = Some (Some TURN_LEFT) <->
     (sentinel < qL)%R /\ (qF < qL)%R /\ (qR <= qL)%R) /\
    (table !! state_key s = Some (Some TURN_RIGHT) <->
     (sentinel < qR)%R /\ (qF < qR)%R /\ (qL < qR)%R) /\
    (table !! state_key s = Some None <->
     (qF <= sentinel)%R /\ (qL <= sentinel)%R /\ (qR <= sentinel)%R).
Proof.
  intros _ Hrun Hs.
  destruct (plan_entry p sv table s Hrun Hs) as (r & Hr & ->).
  destruct (best_action_three p sv s r Hr)
    as (qF & qL & qR & HF & HL & HR & H1 & H2 & H3 & H4).
  exists qF, qL, qR. split; [done |]. split; [done |]. split; [done |].
  rewrite <- H1, <- H2, <- H3, <- H4.
  repeat split; intros H; congruence.
Qed.

Lemma extraction_tie_break_witness :
  exists sv table,
    resolution dspa_near <> 0%R /\
    generate_plan dspa_near = Ok (sv, table) /\
    in_state_space dspa_near (5, 5, 0) /\
    exists qF qL qR,
      next_state_value dspa_near sv (5, 5, 0) FORWARD = Ok qF /\
      next_state_value dspa_near sv (5, 5, 0) TURN_LEFT = Ok qL /\
      next_state_value dspa_near sv (5, 5, 0) TURN_RIGHT = Ok qR /\
      (table !! state_key (5, 5, 0) = Some (Some FORWARD) <->
       (sentinel < qF)%R /\ (qL <= qF)%R /\ (qR <= qF)%R) /\
      (table !! state_key (5, 5, 0) = Some (Some TURN_LEFT) <->
       (sentinel < qL)%R /\ (qF < qL)%R /\ (qR <= qL)%R) /\
      (table !! state_key (5, 5, 0) = Some (Some TURN_RIGHT) <->
       (sentinel < qR)%R /\ (qF < qR)%R /\ (qL < qR)%R) /\
      (table !! state_key (5, 5, 0) = Some None <->
       (qF <= sentinel)%R /\ (qL <= sentinel)%R /\ (qR <= sentinel)%R).
Proof.
  destruct (generate_plan_ok dspa_near) as (sv & table & Hrun).
  { apply well_formed_maze. }
  assert (in_state_space dspa_near (5, 5, 0)) as Hs.
  { apply state_space_maze. lia. }
  assert (resolution dspa_near <> 0%R) as Hres
    by (cbn [dspa_near dspa_maze resolution]; lra).
  exists sv, table. split; [exact Hres |].
  split; [exact Hrun |]. split; [exact Hs |].
  apply (extraction_tie_break dspa_near sv table (5, 5, 0) Hres Hrun Hs).
Defined.

End PlanExtras.

(** ** The lookup of the executor *)

Section ExecutorExtras.
Import Num Grid Aux Motion Trajectory Examples Examples2 MdpAux DSPA PlanAux
  KeyAux Executor.

Lemma state_key_mod (x y theta : Z) :
  state_key (x, y, theta) = state_key (x, y, theta mod 4).
Proof. unfold state_key. by rewrite Z.mod_mod. Qed.

(** The lookup of the executor succeeds exactly on the states whose
    position is a position of the state space, whatever the heading. *)
Lemma executor_lookup_iff (p : planner) (sv : gmap state R)
    (table : action_table) (x y theta : Z) :
  generate_plan p = Ok (sv, table) ->
  (in_state_space p (x, y, theta mod 4) ->
   exists e, executor_lookup table (x, y, theta) = Ok e) /\
  (~ in_state_space p (x, y, theta mod 4) ->
   executor_lookup table (x, y, theta) = Raise KeyError).
Proof.
  intros Hrun. destruct (plan_domains p sv table Hrun) as [_ Hdom].
  unfold executor_lookup. rewrite state_key_mod. split.
  - intros Hs. destruct (proj2 (Hdom _) (ex_intro _ _ (conj Hs eq_refl)))
      as [e ->].
    by exists e.
  - intros Hout.
    destruct (table !! state_key (x, y, theta mod 4)) as [e |] eqn:He;
      [| done].
    exfalso. apply Hout.
    destruct (proj1 (Hdom _) (mk_is_Some _ _ He))
      as ([[x' y'] theta'] & Hs & Hkey).
    apply state_key_inj in Hkey; [| apply Z.mod_pos_bound; lia | apply Hs].
    by rewrite Hkey.
Qed.

(** X17.  The executor of DSPA_planner.py finds an entry in the action
    table of [generate_plan] (run at a non-zero resolution) for every
    pose whose coordinates round into the state space, whatever its
    orientation: the heading is taken modulo 4.  For a pose that rounds
    out of the state space the lookup raises [KeyError]. *)
Theorem executor_lookup_pose (p : planner) (sv : gmap state R)
    (table : action_table) (x y phi : R) :
  resolution p <> 0%R ->
  generate_plan p = Ok (sv, table) ->
  ((-1 / 2 < x < IZR (int_trunc (IZR (world_width p) * resolution p)) + 1 / 2)%R ->
   (-1 / 2 < y < IZR (int_trunc (IZR (world_height p) * resolution p)) + 1 / 2)%R ->
   exists e,
     executor_lookup table (get_current_discrete_state (x, y, phi)) = Ok e) /\
  (rd x < 0 \/ int_trunc (IZR (world_width p) * resolution p) < rd x \/
   rd y < 0 \/ int_trunc (IZR (world_height p) * resolution p) < rd y ->
   executor_lookup table (get_current_discrete_state (x, y, phi))
   = Raise KeyError).
Proof.
  intros _ Hrun. unfold get_current_discrete_state.
  destruct (executor_lookup_iff p sv table (rd x) (rd y)
              (rd (phi / (PI / 2))) Hrun) as [Hin Hout].
  assert (forall (c : R) (n : Z), (-1 / 2 < c < IZR n + 1 / 2)%R ->
            0 <= rd c <= n) as Hrd.
  { intros c n [Hlo Hhi]. unfold rd.
    pose proof (py_round_bound c) as [Hl Hu]. split.
    - assert (IZR (-1) < IZR (py_round c))%R as H by (simpl; lra).
      apply lt_IZR in H. lia.
    - assert (IZR (py_round c) < IZR (n + 1))%R as H
        by (rewrite plus_IZR; simpl; lra).
      apply lt_IZR in H. lia. }
  split.
  - intros Hx Hy. apply Hin. split; [by apply Hrd |].
    split; [by apply Hrd |]. apply Z.mod_pos_bound. lia.
  - intros Hbad. apply Hout. intros (Hx & Hy & _). lia.
Qed.

Lemma executor_lookup_pose_witness :
  exists sv table,
    generate_plan dspa_near = Ok (sv, table) /\
    exists e,
      executor_lookup table
        (get_current_discrete_state ((26 / 10)%R, (74 / 10)%R, (- PI)%R))
      = Ok e.
Proof.
  destruct (generate_plan_ok dspa_near) as (sv & table & Hrun).
  { apply well_formed_maze. }
  assert (resolution dspa_near <> 0%R) as Hres
    by (cbn [dspa_near dspa_maze resolution]; lra).
  exists sv, table. split; [exact Hrun |].
  apply (proj1 (executor_lookup_pose dspa_near sv table (26 / 10) (74 / 10)
                  (- PI) Hres Hrun));
    cbn [dspa_near dspa_maze world_width world_height resolution];
    rewrite int_trunc_maze; simpl; lra.
Defined.

End ExecutorExtras.

(** ** The search of CSDA_planner.py *)

Section SearchExtras.
Import Num Grid Aux Motion Trajectory Examples CSDA SearchAux Search.

Lemma search_resolution_pos (p : planner) : (0 < search_resolution p)%R.
Proof. unfold search_resolution. destruct (com p); lra. Qed.

Lemma round_partial_error (p : planner) (x : R) :
  (Rabs (round_partial p x - x) <= search_resolution p / 2)%R.
Proof.
  pose proof (search_resolution_pos p) as Hres. unfold round_partial.
  set (res := search_resolution p) in *.
  pose proof (py_round_bound (x / res)) as [Hlo Hhi].
  assert (x = x / res * res)%R as Hx by (field; lra).
  apply Rabs_le. split.
  - assert ((x / res - 1 / 2) * res <= IZR (py_round (x / res)) * res)%R
      by (apply Rmult_le_compat_r; lra).
    nra.
  - assert (IZR (py_round (x / res)) * res <= (x / res + 1 / 2) * res)%R
      by (apply Rmult_le_compat_r; lra).
    nra.
Qed.

(** Every action of the search has the linear velocity 1. *)
Lemma actions_speed (a : R * R) : a ∈ actions -> fst a = 1%R.
Proof.
  unfold actions. intros Hin. apply list_elem_of_fmap in Hin as (i & -> & _).
  done.
Qed.

(** Applying a further action after a sequence of actions. *)
Lemma replay_app (p : planner) (acts : list (R * R)) (a : R * R) :
  forall s x y theta,
  replay p s acts = Ok (Some (x, y, theta)) ->
  replay p s (acts ++ [a]) = motion_predict p x y theta (fst a) (snd a).
Proof.
  induction acts as [| b acts IH]; intros [[x0 y0] theta0] x y theta Hrun.
  - cbn [replay] in Hrun. injection Hrun as -> -> ->. cbn [app replay].
    destruct (motion_predict p x y theta (fst a) (snd a)) as [[[[? ?] ?] |] |];
      done.
  - cbn [app replay] in Hrun |- *.
    destruct (motion_predict p x0 y0 theta0 (fst b) (snd b))
      as [[s' |] |]; cbn [rbind] in Hrun |- *; try done.
    by apply IH.
Qed.

(** A node that the search builds records the actions that lead to it:
    [motion_predict] takes the initial pose through them to the pose of
    the node, and their number is the depth of the node. *)
Lemma reached_replay (p : planner) (start : pose) (n : node) :
  reached p start n ->
  exists acts : list (R * R),
    action_seq (Some n) = map Some acts /\
    Forall (fun a => a ∈ actions) acts /\
    replay p start acts = Ok (Some (node_state n)) /\
    Z.of_nat (length acts) = node_g n /\
    (acts = [] -> node_state n = start).
Proof.
  induction 1 as [f | n m Hn IH Hsucc].
  - exists []. by repeat split.
  - destruct IH as (acts & Hseq & Hall & Hrun & Hlen & _).
    destruct Hsucc as (a & next & Ha & Hnext & ->).
    exists (acts ++ [a]). unfold action_seq in *. cbn [path_actions].
    split; [| split; [| split; [| split]]].
    + cbn [rev]. rewrite Hseq. by rewrite map_app.
    + apply Forall_app. split; [done |]. by apply Forall_singleton.
    + cbn [node_state].
      destruct (node_state n) as [[x y] theta].
      by rewrite (replay_app p acts a start x y theta Hrun).
    + rewrite length_app. cbn [length node_g]. lia.
    + intros Habs. by destruct acts.
Qed.

(** The frontier after one iteration holds nodes of the frontier before
    it and successors of the popped node. *)
Lemma iteration_frontier (p : planner) (n : node) (pq pq' : frontier)
    (vs vs' : visited_map) :
  iteration p n pq vs = Ok (Continue pq' vs') ->
  forall m, m ∈ pq' -> m ∈ pq \/ successor p n m.
Proof.
  unfold iteration. destruct (node_state n) as [[x y] theta].
  destruct (check_goal (goal p) x y); [done |].
  match goal with
  | |- context [if ?b then _ else _] => destruct b
  end.
  - intros [= <- <-] m Hm. by left.
  - destruct (expand p n _ pq actions) as [pq1 |] eqn:Hexp;
      cbn [rbind]; [| done].
    intros [= <- <-] m Hm. eapply expand_pushes; [| exact Hexp | exact Hm].
    done.
Qed.

Lemma iteration_goal (p : planner) (n n' : node) (pq : frontier)
    (vs : visited_map) :
  iteration p n pq vs = Ok (GoalFound n') ->
  n' = n /\
  (let '(x, y, _) := node_state n in check_goal (goal p) x y) = true.
Proof.
  unfold iteration. destruct (node_state n) as [[x y] theta].
  destruct (check_goal (goal p) x y); [by intros [= <-] |].
  match goal with
  | |- context [if ?b then _ else _] => destruct b
  end; [done |].
  destruct (expand p n _ pq actions); done.
Qed.

(** A run of the loop from a frontier of nodes built from [start] ends
    with such a node, on the goal, or with no node. *)
Lemma search_reached (p : planner) (start : pose) (pq : frontier)
    (vs : visited_map) (goal_node : option node) :
  search p pq vs goal_node ->
  Forall (reached p start) pq ->
  match goal_node with
  | Some n =>
      reached p start n /\
      (let '(x, y, _) := node_state n in check_goal (goal p) x y) = true
  | None => True
  end.
Proof.
  induction 1 as [vs | pq pq' vs n Hpop Hit
                  | pq pq' pq'' vs vs' n goal_node Hpop Hit Hrest IH];
    intros Hall.
  - done.
  - apply iteration_goal in Hit as [_ Hgoal]. split; [| done].
    rewrite Forall_forall in Hall. apply Hall.
    unfold heappop in Hpop. rewrite Hpop. by left.
  - apply IH. rewrite Forall_forall in Hall |- *. intros m Hm.
    unfold heappop in Hpop.
    destruct (iteration_frontier _ _ _ _ _ _ Hit m Hm) as [Hin | Hsucc].
    + apply Hall. rewrite Hpop. by right.
    + eapply reached_successor; [| exact Hsucc].
      apply Hall. rewrite Hpop. by left.
Qed.

(** X20.  The action sequence that [generate_plan] of CSDA_planner.py
    leaves (at a non-zero resolution) is a list of actions of the
    search, none of them [None]; executed from the initial pose,
    [motion_predict] takes them without a collision to a pose that
    passes the goal test, unless the sequence is empty.  This holds
    whichever node the heap returns. *)
Theorem plan_sound (p : planner) (start : pose)
    (seq : list (option (R * R))) :
  resolution p <> 0%R ->
  generate_plan p start seq ->
  exists (acts : list (R * R)) (final : pose),
    seq = map Some acts /\
    Forall (fun a => a ∈ actions) acts /\
    replay p start acts = Ok (Some final) /\
    (seq = [] \/
     (let '(x, y, _) := final in check_goal (goal p) x y) = true).
Proof.
  intros _ (goal_node & Hrun & ->).
  apply (search_reached p start) in Hrun.
  - destruct goal_node as [n |].
    + destruct Hrun as [Hn Hgoal].
      destruct (reached_replay p start n Hn)
        as (acts & Hseq & Hall & Hreplay & _).
      exists acts, (node_state n). split; [done |]. split; [done |].
      split; [done |]. by right.
    + exists [], start. split; [done |]. split; [done |].
      split; [done |]. by left.
  - apply Forall_singleton. unfold initial_node.
    destruct start as [[x y] theta]. apply reached_initial.
Qed.

End SearchExtras.

Section SearchWitness.
Import Num Grid Aux Motion Trajectory Examples CSDA SearchAux Search.

Ltac pose_eq :=
  repeat match goal with
         | |- Ok _ = Ok _ => f_equal
         | |- Some _ = Some _ => f_equal
         | |- (_, _) = (_, _) => f_equal
         end.

(** In the standard maze without obstacles every action of the search
    can be taken from a position at least one unit inside the free
    part. *)
Lemma csda_maze_move (x y theta w : R) :
  (1 <= x <= 89 / 10)%R -> (1 <= y <= 89 / 10)%R ->
  motion_predict csda_maze x y theta 1 w
  = Ok (Some (waypoint 1 w 10 (x, y, theta) 5)).
Proof.
  intros Hx Hy. unfold motion_predict. apply motion_predict_Some.
  split; [| done]. intros k Hk. unfold at_waypoint.
  pose proof (waypoint_displacement 1 w 10 x y theta k ltac:(lra)) as Hd.
  destruct (waypoint 1 w 10 (x, y, theta) k) as [[x' y'] theta'].
  assert (0 <= INR k <= 5)%R as Hk'.
  { pose proof (INR_bounds k 5 ltac:(lia)) as H. simpl in H. lra. }
  assert ((1 * INR k / 10) * (1 * INR k / 10) <= (1 / 2) * (1 / 2))%R
    as Hsq by nra.
  assert (forall d e : R, (d * d + e * e <= 1 / 2 * (1 / 2))%R ->
            (-1 / 2 <= d <= 1 / 2)%R) as Hhalf.
  { intros d e Hde. assert (d * d <= 1 / 2 * (1 / 2))%R as Hdd by nra.
    split; nra. }
  pose proof (Hhalf (x' - x) (y' - y) ltac:(lra))%R as Hdx.
  pose proof (Hhalf (y' - y) (x' - x) ltac:(lra))%R as Hdy.
  apply csda_maze_free_wide; lra.
Qed.

(** The expansion returns when [motion_predict] returns for every
    action, and its frontier holds the node of every action whose
    predicted pose passes the test that guards [heappush]. *)
Lemma expand_total (p : planner) (n : node) (vs : visited_map)
    (acts : list (R * R)) :
  (forall a, a ∈ acts ->
     exists r, (let '(x, y, theta) := node_state n in
                motion_predict p x y theta (fst a) (snd a)) = Ok r) ->
  forall pq, exists pq', expand p n vs pq acts = Ok pq'.
Proof.
  induction acts as [| a acts IH]; intros Hok pq.
  - by eexists.
  - cbn [expand]. unfold expand_action.
    destruct (Hok a ltac:(by left)) as [r Hr].
    destruct (node_state n) as [[x y] theta] eqn:Hstate. rewrite Hr.
    cbn [rbind].
    assert (forall a', a' ∈ acts ->
              exists r', (let '(x, y, theta) := (x, y, theta) in
                 motion_predict p x y theta (fst a') (snd a')) = Ok r')
      as Hok' by (intros a' Ha'; apply Hok; by right).
    destruct r as [next |]; [destruct (push_test p n vs next) |];
      cbn [rbind]; by apply IH.
Qed.

Lemma expand_pushed (p : planner) (n : node) (vs : visited_map)
    (acts : list (R * R)) (a : R * R) (next : pose) :
  a ∈ acts ->
  (let '(x, y, theta) := node_state n in
   motion_predict p x y theta (fst a) (snd a)) = Ok (Some next) ->
  push_test p n vs next = true ->
  forall pq pq', expand p n vs pq acts = Ok pq' ->
  Node (next_f p n next) (node_g n + 1) next (Some a) (Some n) ∈ pq'.
Proof.
  intros Ha Hnext Hpush. induction acts as [| b acts IH]; intros pq pq' Hexp.
  - by apply elem_of_nil in Ha.
  - cbn [expand] in Hexp.
    destruct (expand_action p n vs pq b) as [pq1 |] eqn:Hact;
      cbn [rbind] in Hexp; [| done].
    apply elem_of_cons in Ha as [<- | Ha]; [| by eapply IH].
    eapply expand_keeps; [exact Hexp |].
    unfold expand_action in Hact.
    destruct (node_state n) as [[x y] theta]. rewrite Hnext in Hact.
    cbn [rbind] in Hact. rewrite Hpush in Hact. injection Hact as <-.
    by left.
Qed.

(** The search of the example: the action [(1, 0)] takes the initial
    node to the goal. *)
Lemma example_not_goal : check_goal (goal csda_maze) 1 (75 / 10) = false.
Proof.
  unfold check_goal, d_from_goal. cbn [csda_maze goal fst snd].
  destruct (Rlt_dec _ _) as [Hlt | _]; [| done]. exfalso.
  assert ((1 / 2) * (1 / 2) <= (1 - 1) ^ 2 + (75 / 10 - 8) ^ 2)%R as Hsq
    by (simpl; lra).
  apply sqrt_le_1_alt in Hsq. rewrite sqrt_square in Hsq by lra. lra.
Qed.

Lemma example_at_goal : check_goal (goal csda_maze) 1 8 = true.
Proof.
  unfold check_goal, d_from_goal. cbn [csda_maze goal fst snd].
  destruct (Rlt_dec _ _) as [_ | Hge]; [done |]. exfalso. apply Hge.
  replace ((1 - 1) ^ 2 + (8 - 8) ^ 2)%R with 0%R by (simpl; ring).
  rewrite sqrt_0. lra.
Qed.

Lemma example_predict :
  motion_predict csda_maze 1 (75 / 10) (PI / 2) 1 0 = Ok (Some example_goal_pose).
Proof.
  rewrite csda_maze_move by lra. unfold waypoint, example_goal_pose.
  destruct (Req_dec_T 0 0) as [_ | Hne]; [| lra].
  rewrite cos_PI2, sin_PI2. pose_eq; simpl; lra.
Qed.

Lemma example_action : (1%R, 0%R) ∈ actions.
Proof.
  unfold actions. apply list_elem_of_fmap. exists 2. split.
  - f_equal. lra.
  - apply elem_of_range. lia.
Qed.

Lemma example_successor : successor csda_maze example_root example_child.
Proof.
  exists (1%R, 0%R), example_goal_pose. split; [apply example_action |].
  split; [| done]. exact example_predict.
Qed.

(** The run: the initial node is expanded, and the node of the action
    [(1, 0)] ends the search when the heap returns it. *)
Lemma one_step_plan :
  generate_plan csda_maze example_start [Some (1%R, 0%R)].
Proof.
  set (key := continuous_to_resolution csda_maze example_start).
  set (vs' := visited_set [] key (node_f example_root)).
  assert (push_test csda_maze example_root vs' example_goal_pose = true)
    as Hpush.
  { unfold push_test, vs', visited_set. cbn [visited_get].
    destruct (pose_eq_dec example_goal_pose key) as [Heq | _]; [| done].
    exfalso.
    unfold example_goal_pose, key, example_start, continuous_to_resolution
      in Heq.
    injection Heq as _ Hy _.
    pose proof (round_partial_error csda_maze (75 / 10)) as Herr.
    rewrite <- Hy in Herr. unfold search_resolution in Herr.
    cbn [csda_maze com] in Herr. apply Rabs_le_inv' in Herr. lra. }
  destruct (expand_total csda_maze example_root vs' actions)
    with (pq := @nil node) as [pq'' Hexp].
  { intros a Ha. unfold example_root, initial_node, example_start.
    cbn [node_state].
    rewrite (actions_speed a Ha). rewrite csda_maze_move by lra.
    by eexists. }
  assert (example_child ∈ pq'') as Hm.
  { apply (expand_pushed csda_maze example_root vs' actions (1%R, 0%R)
             example_goal_pose) with (pq := []);
      [apply example_action | exact example_predict | done | done]. }
  apply elem_of_Permutation in Hm as [rest Hrest].
  exists (Some example_child). split; [| done].
  apply (search_step csda_maze [example_root] [] pq'' [] vs' example_root
           (Some example_child)).
  - unfold heappop. reflexivity.
  - unfold iteration, example_root, initial_node, example_start.
    cbn [node_state]. rewrite example_not_goal. cbn [visited_get].
    change (Node (d_from_goal (goal csda_maze) 1 (75 / 10)) 0
              (1%R, (75 / 10)%R, (PI / 2)%R) None None)
      with example_root.
    change (continuous_to_resolution csda_maze
              (1%R, (75 / 10)%R, (PI / 2)%R)) with key.
    fold vs'. rewrite Hexp. done.
  - apply (search_goal csda_maze pq'' rest vs' example_child);
      [exact Hrest |].
    unfold iteration, example_child, example_goal_pose. cbn [node_state].
    by rewrite example_at_goal.
Qed.

Lemma plan_sound_witness :
  exists (acts : list (R * R)) (final : pose),
    [Some (1%R, 0%R)] = map Some acts /\
    Forall (fun a => a ∈ actions) acts /\
    replay csda_maze example_start acts = Ok (Some final) /\
    ([Some (1%R, 0%R)] = [] \/
     (let '(x, y, _) := final in check_goal (goal csda_maze) x y) = true).
Proof.
  apply (plan_sound csda_maze example_start [Some (1%R, 0%R)]).
  - cbn [csda_maze resolution]. lra.
  - exact one_step_plan.
Defined.

End SearchWitness.

(** ** More on [dump_action_table] *)

Section DumpExtras.
Import Num Grid Aux Motion Examples MdpAux DSPA Dump KeyAux DumpAux.

Lemma every_other_join (cs : list ascii) :
  every_other (join_chars cs) = string_of_list_ascii cs.
Proof.
  induction cs as [| c cs IH]; [done |].
  destruct cs as [| d cs]; [done |].
  change (every_other (String c (String "," (join_chars (d :: cs))))
          = String c (string_of_list_ascii (d :: cs))).
  cbn [every_other]. by rewrite IH.
Qed.

(** X21.  [dump_action_table] loses no entry: the dumped table holds the
    entry of every key [k] under the key that joins the characters of
    [k] with commas, it holds nothing else, and the characters at the
    even positions of a dumped key give [k] back. *)
Theorem dump_lossless (table : action_table) :
  (forall k, reload (dump_action_table table) !! dump_key k = table !! k) /\
  (forall k' e, reload (dump_action_table table) !! k' = Some e ->
                exists k, k' = dump_key k /\ table !! k = Some e) /\
  (forall k, every_other (dump_key k) = k).
Proof.
  split; [| split].
  - intros k. apply lookup_dump.
  - intros k' e He. unfold reload, dump_action_table in He.
    by apply (lookup_kmap_Some dump_key) in He.
  - intros k. unfold dump_key. rewrite every_other_join.
    apply string_of_list_ascii_of_string.
Qed.

(** X22.  For every action table that [generate_plan] produces (at a
    non-zero resolution) and every state, the lookup of the executor on
    the reloaded dump raises [KeyError]: a dumped key holds at least
    three commas, the key of a state two. *)
Theorem dump_breaks_every_lookup (p : planner) (sv : gmap state R)
    (table : action_table) (s : state) :
  resolution p <> 0%R ->
  generate_plan p = Ok (sv, table) ->
  executor_lookup (reload (dump_action_table table)) s = Raise KeyError.
Proof. intros _. apply dump_loses_plan. Qed.

Lemma dump_breaks_every_lookup_witness :
  exists sv table,
    generate_plan dspa_near = Ok (sv, table) /\
    executor_lookup (reload (dump_action_table table)) (5, 5, 0)
    = Raise KeyError.
Proof.
  destruct (generate_plan_ok dspa_near) as (sv & table & Hrun).
  { apply well_formed_maze. }
  assert (resolution dspa_near <> 0%R) as Hres
    by (cbn [dspa_near dspa_maze resolution]; lra).
  exists sv, table. split; [exact Hrun |].
  apply (dump_breaks_every_lookup dspa_near sv table (5, 5, 0) Hres Hrun).
Defined.

End DumpExtras.

Section PlanSize.
Import Num Grid Aux Motion DSPA MdpAux PlanAux.

Lemma length_range (a b : Z) : length (range a b) = Z.to_nat (b - a).
Proof. unfold range. by rewrite length_map, length_seq. Qed.

Lemma NoDup_range (a b : Z) : NoDup (range a b).
Proof.
  unfold range. apply NoDup_fmap_2.
  - intros n m Hnm. lia.
  - apply NoDup_seq.
Qed.

Lemma length_bind_const {A B : Type} (f : A -> list B) (l : list A) (n : nat) :
  (forall a, a ∈ l -> length (f a) = n) ->
  length (l ≫= f) = (length l * n)%nat.
Proof.
  induction l as [| a l IH]; intros Hf; [done |].
  rewrite bind_cons, length_app, IH, Hf; [done | by left |].
  intros a' Ha'. apply Hf. by right.
Qed.

(** [states] lists no state twice. *)
Lemma NoDup_states (p : planner) : NoDup (states p).
Proof.
  unfold states. apply NoDup_bind; [| | apply NoDup_range].
  - intros h1 h2 s _ _ H1 H2.
    apply list_elem_of_bind in H1 as (w1 & H1 & _).
    apply list_elem_of_bind in H2 as (w2 & H2 & _).
    apply list_elem_of_bind in H1 as (t1 & H1 & _).
    apply list_elem_of_bind in H2 as (t2 & H2 & _).
    apply list_elem_of_singleton in H1, H2. congruence.
  - intros h _. apply NoDup_bind; [| | apply NoDup_range].
    + intros w1 w2 s _ _ H1 H2.
      apply list_elem_of_bind in H1 as (t1 & H1 & _).
      apply list_elem_of_bind in H2 as (t2 & H2 & _).
      apply list_elem_of_singleton in H1, H2. congruence.
    + intros w _. apply NoDup_bind; [| | apply NoDup_range].
      * intros t1 t2 s _ _ H1 H2.
        apply list_elem_of_singleton in H1, H2. congruence.
      * intros t _. apply NoDup_singleton.
Qed.

Lemma length_states (p : planner) :
  Z.of_nat (length (states p))
  = 4 * Z.max 0 (int_trunc (IZR (world_width p) * resolution p) + 1)
      * Z.max 0 (int_trunc (IZR (world_height p) * resolution p) + 1).
Proof.
  unfold states.
  rewrite (length_bind_const _ _
             (Z.to_nat (int_trunc (IZR (world_width p) * resolution p) + 1)
              * 4)%nat).
  - rewrite length_range. lia.
  - intros h _. rewrite (length_bind_const _ _ 4%nat).
    + by rewrite length_range, Z.sub_0_r.
    + intros w _. by rewrite (length_bind_const _ _ 1%nat).
Qed.

(** A map whose keys are the elements of a duplicate-free list has the
    size of the list. *)
Lemma size_keys `{Countable K} {A : Type} (m : gmap K A) (l : list K) :
  NoDup l -> (forall k, is_Some (m !! k) <-> k ∈ l) -> size m = length l.
Proof.
  intros Hnd Hkeys. rewrite <- size_dom, <- (size_list_to_set (C := gset K) l Hnd).
  f_equal. apply set_eq. intros k.
  by rewrite elem_of_dom, elem_of_list_to_set.
Qed.

Lemma NoDup_state_keys (p : planner) : NoDup (state_key <$> states p).
Proof.
  apply NoDup_fmap_2_strong; [| apply NoDup_states].
  intros [[x y] t] [[x' y'] t'] Hs Hs' Heq.
  apply elem_of_states in Hs as (_ & _ & Ht), Hs' as (_ & _ & Ht').
  by apply state_key_inj.
Qed.

(** X23.  [generate_plan] of DSPA_planner.py leaves one state value and
    one entry of the action table for each state, no more: both tables
    have 4 * (int(world_width * resolution) + 1)
    * (int(world_height * resolution) + 1) keys, the number that
    [generate_plan] prints as [len(states)].  No two states share a key
    ["x,y,theta"] of the action table. *)
Theorem plan_table_sizes (p : planner) (sv : gmap state R)
    (table : action_table) :
  resolution p <> 0%R ->
  generate_plan p = Ok (sv, table) ->
  Z.of_nat (size sv)
  = 4 * Z.max 0 (int_trunc (IZR (world_width p) * resolution p) + 1)
      * Z.max 0 (int_trunc (IZR (world_height p) * resolution p) + 1) /\
  size table = size sv.
Proof.
  intros _ Hrun. apply plan_domains in Hrun as [Hsv Htable].
  assert (size sv = length (states p)) as Hsize.
  { apply size_keys; [apply NoDup_states |].
    intros s. by rewrite Hsv, elem_of_states. }
  split; [by rewrite Hsize, length_states |].
  rewrite Hsize, <- (length_fmap state_key (states p)).
  apply size_keys; [apply NoDup_state_keys |].
  intros k. rewrite Htable, list_elem_of_fmap. split.
  - intros (s & Hs & ->). exists s. by rewrite elem_of_states.
  - intros (s & -> & Hs). exists s. by rewrite <- elem_of_states.
Qed.

End PlanSize.

Section PlanSizeWitness.
Import Num Grid Aux Motion DSPA MdpAux PlanAux Examples2.

Lemma plan_table_sizes_witness :
  exists sv table,
    resolution (dspa_com1 (1%R, 8%R)) <> 0%R /\
    generate_plan (dspa_com1 (1%R, 8%R)) = Ok (sv, table) /\
    Z.of_nat (size sv)
    = 4 * Z.max 0 (int_trunc (IZR (world_width (dspa_com1 (1%R, 8%R)))
                              * resolution (dspa_com1 (1%R, 8%R))) + 1)
        * Z.max 0 (int_trunc (IZR (world_height (dspa_com1 (1%R, 8%R)))
                              * resolution (dspa_com1 (1%R, 8%R))) + 1) /\
    size table = size sv.
Proof.
  destruct (generate_plan_returns (dspa_com1 (1%R, 8%R)) (usable_com1 _))
    as (sv & table & Hrun).
  assert (resolution (dspa_com1 (1%R, 8%R)) <> 0%R) as Hres.
  { cbn [dspa_com1 resolution]. lra. }
  exists sv, table. split; [exact Hres |]. split; [exact Hrun |].
  apply (plan_table_sizes (dspa_com1 (1%R, 8%R)) sv table Hres Hrun).
Defined.

End PlanSizeWitness.

(** ** The first passes of a search in the COM1 world *)

Section SearchRuns.
Import Num Grid Aux Inflation Motion Trajectory Examples Examples2 CSDA
       SearchAux Search.




Opaque com1_map.
















End SearchRuns.


(** ** Straight-line motion in binary64 *)

Section StraightLine.
Import Floats Num Grid Aux Binary64.

#[local] Set Warnings "-inexact-float".









End StraightLine.
